(** * word_counts: transcript cleaning, tokenizing and n-gram counting

    A shallow embedding of [phrases_counts.py] (and of the unigram-only
    [word_clouds.py], whose cleaning and tokenizing functions are the same
    text) together with the properties of its specification.

    Python strings are sequences of Unicode code points: a character is a
    code point [N], a string a [list N].  The character predicates of the
    interpreter are written out on ASCII; above U+007F they come from the
    Unicode character database, which is not part of the program and is a
    parameter of the development ([UnicodeData]). *)

From Stdlib Require Import ZArith NArith List String Ascii Lia Bool Sorted.
From stdpp Require Import gmap list.

Local Open Scope N_scope.

(** ** Characters and strings *)

(** [u "abc"] is the Python literal ["abc"]; [ch "a"] the one-character
    literal. *)
Definition ch (a : ascii) : N := N_of_ascii a.
Definition u (s : string) : list N := map ch (list_ascii_of_string s).

(** What the interpreter looks up in the Unicode database for a code point
    above U+007F.  [uc_lower pre c post] is the lower-casing of [c] standing
    between [rev pre] and [post] ([str.lower] is context sensitive there). *)
Class UnicodeData := {
  uc_space : N → bool;
  uc_decimal : N → bool;
  uc_digit : N → bool;
  uc_alnum : N → bool;
  uc_lower : list N → N → list N → list N
}.

(** The database that classifies nothing above U+007F; it is used to run the
    program on ASCII inputs. *)
Definition ascii_only : UnicodeData :=
  {| uc_space := λ _, false; uc_decimal := λ _, false; uc_digit := λ _, false;
     uc_alnum := λ _, false; uc_lower := λ _ c _, [c] |}.

Definition is_ascii (c : N) : bool := c <? 128.
Definition in_range (lo hi c : N) : bool := (lo <=? c) && (c <=? hi).

Definition ascii_upper_letter (c : N) : bool := in_range 65 90 c.
Definition ascii_lower_letter (c : N) : bool := in_range 97 122 c.
Definition ascii_letter (c : N) : bool := ascii_upper_letter c || ascii_lower_letter c.
Definition ascii_digit (c : N) : bool := in_range 48 57 c.

(** ASCII white space of [str.isspace]: TAB LF VT FF CR, FS GS RS US, SPACE. *)
Definition ascii_space (c : N) : bool :=
  in_range 9 13 c || in_range 28 31 c || (c =? 32).

Section Text.
Context {U : UnicodeData}.

(** [str.isspace] on one character; also the class [\s] and the separator
    of [str.split()] and [str.strip()]. *)
Definition is_space (c : N) : bool :=
  if is_ascii c then ascii_space c else uc_space c.

(** The class [\d]. *)
Definition is_decimal (c : N) : bool :=
  if is_ascii c then ascii_digit c else uc_decimal c.

(** [str.isdigit] on one character. *)
Definition is_digit (c : N) : bool :=
  if is_ascii c then ascii_digit c else uc_digit c.

(** The class [\w]: alphanumeric or underscore. *)
Definition is_word (c : N) : bool :=
  if is_ascii c then ascii_letter c || ascii_digit c || (c =? 95) else uc_alnum c.

(** ** The string methods the program calls *)

Fixpoint lower_from (pre s : list N) : list N :=
  match s with
  | [] => []
  | c :: s' =>
      (if is_ascii c then [if ascii_upper_letter c then c + 32 else c]
       else uc_lower pre c s') ++ lower_from (c :: pre) s'
  end.

(** [s.lower()] *)
Definition lower (s : list N) : list N := lower_from [] s.

(** [s.lstrip()], [s.rstrip()], [s.strip()] *)
Fixpoint lstrip (s : list N) : list N :=
  match s with
  | c :: s' => if is_space c then lstrip s' else s
  | [] => []
  end.

Definition rstrip (s : list N) : list N := rev (lstrip (rev s)).
Definition strip (s : list N) : list N := rstrip (lstrip s).

(** [s.rstrip(chars)] *)
Fixpoint lstrip_chars (chars s : list N) : list N :=
  match s with
  | c :: s' => if bool_decide (c ∈ chars) then lstrip_chars chars s' else s
  | [] => []
  end.

Definition rstrip_chars (chars s : list N) : list N :=
  rev (lstrip_chars chars (rev s)).

(** [s.startswith(c)] and [s.endswith(c)] for a one-character [c] *)
Definition startswith (c : N) (s : list N) : bool :=
  match s with x :: _ => x =? c | [] => false end.

Definition endswith (c : N) (s : list N) : bool := startswith c (rev s).

(** [s.replace(c, new)] for a one-character [c] *)
Definition replace (c : N) (new s : list N) : list N :=
  flat_map (λ x, if x =? c then new else [x]) s.

(** [s.isdigit()]: every character is a digit and there is at least one. *)
Definition isdigit (s : list N) : bool :=
  match s with [] => false | _ => forallb is_digit s end.

(** [sep.join(parts)] *)
Fixpoint join (sep : list N) (parts : list (list N)) : list N :=
  match parts with
  | [] => []
  | [p] => p
  | p :: ps => p ++ sep ++ join sep ps
  end.

(** [s.split()]: the maximal runs of characters that are not white space.
    [cur] is the run being read, reversed. *)
Fixpoint split_from (cur s : list N) : list (list N) :=
  match s with
  | [] => match cur with [] => [] | _ => [rev cur] end
  | c :: s' =>
      if is_space c then
        match cur with [] => split_from [] s' | _ => rev cur :: split_from [] s' end
      else split_from (c :: cur) s'
  end.

Definition split (s : list N) : list (list N) := split_from [] s.

(** [s.splitlines()]: the line boundaries are LF, CR, CR LF, VT, FF, FS, GS,
    RS, NEL (U+0085), LS (U+2028) and PS (U+2029); the breaks are dropped and
    a final break opens no empty last line. *)
Definition is_linebreak (c : N) : bool :=
  bool_decide (c ∈ [10; 11; 12; 13; 28; 29; 30; 133; 8232; 8233]).

Fixpoint splitlines_from (cur s : list N) : list (list N) :=
  match s with
  | [] => match cur with [] => [] | _ => [rev cur] end
  | c :: s' =>
      if is_linebreak c then
        match c, s' with
        | 13, 10 :: s'' => rev cur :: splitlines_from [] s''
        | _, _ => rev cur :: splitlines_from [] s'
        end
      else splitlines_from (c :: cur) s'
  end.

Definition splitlines (s : list N) : list (list N) := splitlines_from [] s.

End Text.

(** ** Regular expressions

    The fragment of Python's [re] syntax that the program's patterns use.
    Repetition is only ever applied to a character class, so [Rep] carries
    the class; the two optional groups are [Opt]. *)

Inductive regex :=
| Eps                                         (* the empty pattern *)
| Chr (p : N → bool)                          (* one character of a class *)
| Seq (r1 r2 : regex)                         (* r1 r2 *)
| Alt (r1 r2 : regex)                         (* r1|r2, r1 tried first *)
| Opt (r : regex)                             (* (?:r)?  greedy *)
| Rep (p : N → bool) (lo : nat) (hi : option nat)  (* c{lo,hi}, c*, c+  greedy *)
| Bol                                         (* ^ *)
| Eol                                         (* $ *)
| WordB (w : N → bool)                        (* \b for the word class w *)
| NotBehind (p : N → bool)                    (* (?<!c) *)
| NotAhead (r : regex).                       (* (?!r) *)

(** A continuation receives the character before the current position
    ([None] at the start of the string) and the unread input, and answers
    with the input left after the whole match. *)
Definition kont := option N → list N → option (list N).

(** Greedy bounded repetition of a class: one more character first, and
    only when the rest of the pattern then fails, stop here. *)
Fixpoint rep_m (p : N → bool) (lo : nat) (hi : option nat)
    (prev : option N) (s : list N) (k : kont) : option (list N) :=
  match s with
  | c :: s' =>
      if p c && negb (bool_decide (hi = Some 0%nat)) then
        match rep_m p (pred lo) (pred <$> hi) (Some c) s' k with
        | Some r => Some r
        | None => match lo with O => k prev s | S _ => None end
        end
      else match lo with O => k prev s | S _ => None end
  | [] => match lo with O => k prev s | S _ => None end
  end.

Definition word_at (w : N → bool) (c : option N) : bool :=
  match c with Some x => w x | None => false end.

(** The backtracking matcher, in the order [re] explores: it returns the
    input left after the first way of matching [r] and then [k]. *)
Fixpoint m (r : regex) (prev : option N) (s : list N) (k : kont) : option (list N) :=
  match r with
  | Eps => k prev s
  | Chr p => match s with c :: s' => if p c then k (Some c) s' else None | [] => None end
  | Seq r1 r2 => m r1 prev s (λ prev' s', m r2 prev' s' k)
  | Alt r1 r2 => match m r1 prev s k with Some x => Some x | None => m r2 prev s k end
  | Opt r1 => match m r1 prev s k with Some x => Some x | None => k prev s end
  | Rep p lo hi => rep_m p lo hi prev s k
  | Bol => match prev with None => k prev s | Some _ => None end
  | Eol => if bool_decide (s = [] ∨ s = [10]) then k prev s else None
  | WordB w => if xorb (word_at w prev) (word_at w (head s)) then k prev s else None
  | NotBehind p => if word_at p prev then None else k prev s
  | NotAhead r1 =>
      match m r1 prev s (λ _ _, Some []) with Some _ => None | None => k prev s end
  end.

(** The match of [r] that starts at the current position: the input left
    after it. *)
Definition match_here (r : regex) (prev : option N) (s : list N) : option (list N) :=
  m r prev s (λ _ rest, Some rest).

(** [r.match(s)]: is there a match at the start of the string? *)
Definition re_match (r : regex) (s : list N) : bool :=
  bool_decide (is_Some (match_here r None s)).

(** The same under the engine's must-advance flag: only a match of width
    at least one counts (the engine backtracks out of an empty one). *)
Definition match_here_advancing (r : regex) (prev : option N) (s : list N)
    : option (list N) :=
  m r prev s (λ _ rest, if (length rest <? length s)%nat then Some rest else None).

(** [r.sub(repl, s)]: one scan from left to right; at each position not
    inside the previous match the pattern is tried and a match is replaced
    by [repl], the scan going on after the match.  [skip] counts the
    characters of the current match still to pass.  After a match of width
    zero the engine looks once more at the same position for a match that
    advances, and copies the next character when there is none. *)
Fixpoint sub_from (r : regex) (repl : list N) (prev : option N) (s : list N)
    (skip : nat) : list N :=
  match s with
  | [] => match skip, match_here r prev [] with
          | O, Some _ => repl
          | _, _ => []
          end
  | c :: s' =>
      match skip with
      | S n => sub_from r repl (Some c) s' n
      | O =>
          match match_here r prev s with
          | Some rest =>
              match (length s - length rest)%nat with
              | S n => repl ++ sub_from r repl (Some c) s' n
              | O =>
                  repl ++
                  match match_here_advancing r prev s with
                  | Some rest' =>
                      repl ++ sub_from r repl (Some c) s' (length s' - length rest')
                  | None => c :: sub_from r repl (Some c) s' 0
                  end
              end
          | None => c :: sub_from r repl (Some c) s' 0
          end
      end
  end.

Definition re_sub (r : regex) (repl s : list N) : list N := sub_from r repl None s 0.

(** Pattern syntax. *)
Definition seqs (rs : list regex) : regex := foldr Seq Eps rs.
Definition lit (a : ascii) : regex := Chr (λ c, c =? ch a).
Definition lits (s : string) : regex := seqs (map lit (list_ascii_of_string s)).
Definition one_of (s : string) : N → bool := λ c, bool_decide (c ∈ u s).
Definition none_of (s : string) : N → bool := λ c, negb (one_of s c).
Definition star (p : N → bool) : regex := Rep p 0 None.
Definition plus (p : N → bool) : regex := Rep p 1 None.
Definition times (p : N → bool) (lo hi : nat) : regex := Rep p lo (Some hi).

(** A letter under [re.IGNORECASE]: a character matches when its simple
    lower case is the letter's, or one of the letter's case equivalents
    (for [s], LATIN SMALL LETTER LONG S, U+017F). *)
Definition lit_i (a : ascii) : regex :=
  Chr (λ c, let l := if ascii_upper_letter (ch a) then ch a + 32 else ch a in
            (c =? l) || (ascii_lower_letter l && (c =? l - 32)) ||
            ((l =? 115) && (c =? 383))).
Definition lits_i (s : string) : regex := seqs (map lit_i (list_ascii_of_string s)).

(** ** The program: patterns *)

Section Program.
Context {U : UnicodeData}.

Definition dig (lo hi : nat) : regex := times is_decimal lo hi.   (* \d{lo,hi} *)
Definition wb : regex := WordB is_word.                          (* \b *)
Definition ws : regex := star is_space.                         (* \s* *)
Definition not_space (c : N) : bool := negb (is_space c).       (* \S *)

(** [\d{2}:\d{2}:\d{2}] and [\d{2}:\d{2}:\d{2}[.,]\d{3}] *)
Definition hms : regex := seqs [dig 2 2; lit ":"; dig 2 2; lit ":"; dig 2 2].
Definition hms_ms : regex := seqs [hms; Chr (one_of ".,"); dig 3 3].

(** [\b\d{2}:\d{2}:\d{2}[.,]\d{3}\s*-->\s*\d{2}:\d{2}:\d{2}[.,]\d{3}\b] *)
Definition RANGE_VTT : regex := seqs [wb; hms_ms; ws; lits "-->"; ws; hms_ms; wb].

(** [\b\d{2}:\d{2}:\d{2}[.,]\d{3}\b] *)
Definition STAMP_HMS_MS : regex := seqs [wb; hms_ms; wb].

(** [\b\d{2}:\d{2}:\d{2}\b] *)
Definition STAMP_HMS : regex := seqs [wb; hms; wb].

(** [(?<!\d)\b\d{1,2}:\d{2}\b(?!:\d)] *)
Definition STAMP_MS : regex :=
  seqs [NotBehind is_decimal; wb; dig 1 2; lit ":"; dig 2 2; wb;
        NotAhead (seqs [lit ":"; Chr is_decimal])].

(** [\[\s*\d{1,2}:\d{2}(?::\d{2})?\s*\]] *)
Definition STAMP_BRACKETED : regex :=
  seqs [lit "["; ws; dig 1 2; lit ":"; dig 2 2; Opt (seqs [lit ":"; dig 2 2]); ws; lit "]"].

(** [^\s*\d+\s*$] *)
Definition LINE_NUMBER_SRT : regex := seqs [Bol; ws; plus is_decimal; ws; Eol].

(** [^\s*WEBVTT\b], ignoring case *)
Definition WEBVTT_HEADER : regex := seqs [Bol; ws; lits_i "WEBVTT"; wb].

(** [</?c(?:\.[^>]+)?>], ignoring case *)
Definition VTT_CUE_TAG : regex :=
  seqs [lit "<"; Opt (lit "/"); lit_i "c";
        Opt (seqs [lit "."; plus (none_of ">")]); lit ">"].

(** [^\s*[^:]{1,80}:\s+] *)
Definition SPEAKER_PREFIX : regex :=
  seqs [Bol; ws; times (none_of ":") 1 80; lit ":"; plus is_space].

(** [<[^>]+>] *)
Definition HTML_TAG : regex := seqs [lit "<"; plus (none_of ">"); lit ">"].

(** [https?://\S+|www\.\S+], ignoring case *)
Definition URL : regex :=
  Alt (seqs [lits_i "http"; Opt (lit_i "s"); lits "://"; plus not_space])
      (seqs [lits_i "www"; lit "."; plus not_space]).

(** [[^a-zA-Z0-9'\-]+] *)
Definition NON_ALNUM_APOST : regex :=
  plus (λ c, negb (ascii_letter c || ascii_digit c || (c =? 39) || (c =? 45))).

(** [(^'+|'+$)] *)
Definition APOST_EDGES : regex :=
  Alt (seqs [Bol; plus (one_of "'")]) (seqs [plus (one_of "'"); Eol]).

Definition DEFAULT_STOPWORDS : list (list N) := map u [
  "a";"an";"and";"the";"or";"but";"if";"then";"than";"that";"this";"those";"these";"there";"here";"when";"where";
  "why";"how";"what";"which";"who";"whom";"whose";"with";"without";"for";"from";"to";"in";"into";"on";"onto";
  "of";"at";"by";"be";"is";"am";"are";"was";"were";"been";"being";"as";"do";"does";"did";"done";"doing";"have";
  "has";"had";"having";"i";"me";"my";"myself";"we";"our";"ours";"ourselves";"you";"your";"yours";"yourself";
  "yourselves";"he";"him";"his";"himself";"she";"her";"hers";"herself";"it";"its";"itself";"they";"them";"their";
  "theirs";"themselves";"all";"any";"both";"each";"few";"more";"most";"other";"some";"such";"no";"nor";"not";
  "only";"own";"same";"so";"too";"very";"can";"could";"should";"would";"may";"might";"will";"just";"also";
  "um";"uh";"erm";"hmm";"like";"kinda";"sorta";"yeah";"right";"okay";"ok";"alright"
]%string.

(** ** The program: cleaning a line *)

(** The format of a file as [guess_fmt] gives it; [clean_line] treats every
    format other than ["vtt"] and ["srt"] as it treats ["txt"]. *)
Inductive fmt := vtt | srt | txt.

Definition strip_timestamps_everywhere (s : list N) : list N :=
  let s := re_sub RANGE_VTT (u " ") s in
  let s := re_sub STAMP_BRACKETED (u " ") s in
  let s := re_sub STAMP_HMS_MS (u " ") s in
  let s := re_sub STAMP_HMS (u " ") s in
  let s := re_sub STAMP_MS (u " ") s in
  s.

(** The part of [clean_line] after the format-specific lines: URLs, tags,
    time stamps and the speaker prefix are removed. *)
Definition generic_cleanup (s : list N) : list N :=
  let s := re_sub URL (u " ") s in
  let s := re_sub HTML_TAG (u " ") s in
  let s := strip_timestamps_everywhere s in
  let s := re_sub SPEAKER_PREFIX [] s in
  s.

Definition is_cue (s : list N) : bool :=
  (startswith (ch "(") s && endswith (ch ")") s) ||
  (startswith (ch "[") s && endswith (ch "]") s).

Definition clean_line (line : list N) (f : fmt) : list N :=
  let s := rstrip_chars [13; 10] line in
  match s with
  | [] => []
  | _ =>
      if match f with vtt => re_match WEBVTT_HEADER s | _ => false end then []
      else
        let s := match f with vtt => re_sub VTT_CUE_TAG (u " ") s | _ => s end in
        if match f with srt => re_match LINE_NUMBER_SRT s | _ => false end then []
        else
          let s := generic_cleanup s in
          if is_cue s then [] else strip s
  end.

(** ** The program: tokens and n-grams *)

(** The body of the loop of [tokenize] for one raw token: the token that is
    appended, if one is. *)
Definition clean_token (keep_numbers : bool) (raw : list N) : option (list N) :=
  let tok := replace 8217 (u "'") (re_sub APOST_EDGES [] raw) in
  let tok := replace (ch "'") [] tok in
  if negb keep_numbers && isdigit tok then None
  else match tok with [] => None | _ => Some tok end.

Definition tokenize (text : list N) (keep_numbers : bool) : list (list N) :=
  let text := re_sub NON_ALNUM_APOST (u " ") text in
  omap (clean_token keep_numbers) (split text).

End Program.

(** [tokens[i:j]] with Python's reading of the bounds: a negative bound
    counts from the end, and both are clamped to the list. *)
Definition slice_bound {A} (l : list A) (i : Z) : nat :=
  let n := Z.of_nat (length l) in
  Z.to_nat (if (i <? 0)%Z then Z.max 0 (n + i) else Z.min i n).

Definition slice {A} (l : list A) (i j : Z) : list A :=
  let a := slice_bound l i in
  let b := slice_bound l j in
  take (b - a) (drop a l).

(** [range(k)] *)
Definition range (k : Z) : list Z := map Z.of_nat (seq 0 (Z.to_nat k)).

Section Ngrams.
Context {U : UnicodeData}.

Definition make_ngrams (tokens : list (list N)) (n : Z) : list (list N) :=
  if (Z.of_nat (length tokens) <? n)%Z then []
  else map (λ i, join (u " ") (slice tokens i (i + n)))
           (range (Z.of_nat (length tokens) - n + 1)).

End Ngrams.

(** ** Exceptions *)

Inductive exn := OSError | UnicodeDecodeError | KeyError.

Inductive result (A : Type) :=
| Ok (a : A)
| Raise (e : exn).
Arguments Ok {A} a.
Arguments Raise {A} e.

#[global] Instance result_bind : MBind result :=
  λ A B f x, match x with Ok a => f a | Raise e => Raise e end.

(** ** Reading a file as text

    [Path.read_text(encoding, errors)] opens the file, reads its bytes,
    decodes them and translates the line ends.  Opening and reading may
    raise [OSError]; what they give is an attribute of the directory entry
    below. *)

Inductive errors := Strict | Ignore.
Inductive encoding := Utf8 | Latin1.

Definition continuation (x : N) : bool := in_range 128 191 x.

(** The well-formed UTF-8 sequence at the head of the input: its code point
    and its width. *)
Definition utf8_char (bs : list N) : option (N * nat) :=
  match bs with
  | [] => None
  | b0 :: t =>
      if b0 <? 128 then Some (b0, 1%nat)
      else if in_range 194 223 b0 then
        match t with
        | b1 :: _ =>
            if continuation b1 then Some ((b0 - 192) * 64 + (b1 - 128), 2%nat) else None
        | _ => None
        end
      else if in_range 224 239 b0 then
        match t with
        | b1 :: b2 :: _ =>
            if continuation b1 && continuation b2
               && negb ((b0 =? 224) && (b1 <? 160))
               && negb ((b0 =? 237) && (160 <=? b1))
            then Some ((b0 - 224) * 4096 + (b1 - 128) * 64 + (b2 - 128), 3%nat)
            else None
        | _ => None
        end
      else if in_range 240 244 b0 then
        match t with
        | b1 :: b2 :: b3 :: _ =>
            if continuation b1 && continuation b2 && continuation b3
               && negb ((b0 =? 240) && (b1 <? 144))
               && negb ((b0 =? 244) && (144 <=? b1))
            then Some ((b0 - 240) * 262144 + (b1 - 128) * 4096
                       + (b2 - 128) * 64 + (b3 - 128), 4%nat)
            else None
        | _ => None
        end
      else None
  end.

(** The UTF-8 decoder with its error handler: a byte that starts no
    well-formed sequence raises under [Strict] and is dropped under
    [Ignore].  [skip] counts the bytes of the current sequence still to
    pass. *)
Fixpoint utf8_decode_from (h : errors) (bs : list N) (skip : nat) : result (list N) :=
  match bs with
  | [] => Ok []
  | _ :: bs' =>
      match skip with
      | S n => utf8_decode_from h bs' n
      | O =>
          match utf8_char bs with
          | Some (c, width) =>
              t ← utf8_decode_from h bs' (pred width); Ok (c :: t)
          | None =>
              match h with
              | Strict => Raise UnicodeDecodeError
              | Ignore => utf8_decode_from h bs' 0
              end
          end
      end
  end.

Definition decode (enc : encoding) (h : errors) (bs : list Byte.byte) : result (list N) :=
  match enc with
  | Utf8 => utf8_decode_from h (map Byte.to_N bs) 0
  | Latin1 => Ok (map Byte.to_N bs)
  end.

(** Text mode with universal newlines: CR LF and CR are read as LF. *)
Fixpoint universal_newlines (s : list N) : list N :=
  match s with
  | [] => []
  | 13 :: s' =>
      10 :: match s' with 10 :: s'' => universal_newlines s'' | _ => universal_newlines s' end
  | c :: s' => c :: universal_newlines s'
  end.

(** [p.read_text(encoding=enc, errors=h)], given what opening and reading
    the file gives. *)
Definition read_text (io : result (list Byte.byte)) (enc : encoding) (h : errors)
    : result (list N) :=
  bs ← io; t ← decode enc h bs; Ok (universal_newlines t).

(** ** Counters *)

(** [c.update(items)] of [collections.Counter]: one more for each item. *)
Definition incr (c : gmap (list N) nat) (k : list N) : gmap (list N) nat :=
  <[k := S (default 0%nat (c !! k))]> c.

Definition update (c : gmap (list N) nat) (items : list (list N)) : gmap (list N) nat :=
  foldl incr c items.

(** [c[k]] of a [Counter]: zero for a missing key. *)
Definition count (c : gmap (list N) nat) (k : list N) : nat := default 0%nat (c !! k).

(** [sum(c.values())] *)
Definition total (c : gmap (list N) nat) : nat :=
  map_fold (λ _ v acc, (v + acc)%nat) 0%nat c.

(** ** The program: the corpus driver *)

(** A path as the driver sees it: whether it is a regular file, its suffix,
    and what opening and reading it gives, at the first attempt and at a
    second one.  [e_is_file] is the answer of [p.is_file()]: the listing is
    taken as answered.  A test that raises instead of answering (as it can
    on an entry that may not be examined) ends the run with its exception
    before any table is returned; listings with such an entry are not
    modelled. *)
Record entry := {
  e_is_file : bool;
  e_suffix : list N;
  e_read : result (list Byte.byte);
  e_reread : result (list Byte.byte)
}.

(** The parsed command line.  [a_ngrams] is any list of integers:
    [type=int] accepts zero and negative orders. *)
Record args := {
  a_minlen : Z;
  a_stopwords : option (list N);
  a_lower : bool;
  a_keep_numbers : bool;
  a_verbose : bool;
  a_ngrams : list Z
}.

Section Driver.
Context {U : UnicodeData}.

Definition guess_fmt (suffix : list N) : fmt :=
  let ext := lower suffix in
  if bool_decide (ext = u ".vtt") then vtt
  else if bool_decide (ext = u ".srt") then srt
  else txt.

(** [load_stopwords(path)]; [node] is what [path] names in the file
    system. *)
Definition load_stopwords (path : option (list N)) (node : entry)
    : result (gset (list N)) :=
  let sw : gset (list N) := list_to_set DEFAULT_STOPWORDS in
  match path with
  | Some (_ :: _) =>
      if e_is_file node then
        text ← read_text (e_read node) Utf8 Strict;
        Ok (sw ∪ list_to_set
                   (map (λ ln, lower (strip ln))
                        (filter (λ ln, strip ln ≠ []) (splitlines text))))
      else Ok sw
  | _ => Ok sw
  end.

(** [iter_files(root)], given what [root.rglob("*")] enumerates. *)
Definition iter_files (root : list entry) : list entry :=
  filter (λ p, e_is_file p = true ∧
               lower (e_suffix p) ∈ [u ".vtt"; u ".srt"; u ".txt"]) root.

(** The [try]/[except] of the loop body. *)
Definition read_file (fp : entry) : result (list N) :=
  match read_text (e_read fp) Utf8 Ignore with
  | Ok text => Ok text
  | Raise _ => read_text (e_reread fp) Latin1 Ignore
  end.

(** The filtered tokens of one file's text. *)
Definition file_tokens (a : args) (stop : gset (list N)) (f : fmt) (text : list N)
    : list (list N) :=
  let lines := map (λ ln, clean_line ln f) (splitlines text) in
  let cleaned := join (u " ") (filter (λ l, l ≠ []) lines) in
  let cleaned := if a_lower a then lower cleaned else cleaned in
  let tokens := tokenize cleaned (a_keep_numbers a) in
  filter (λ t, (a_minlen a ≤ Z.of_nat (length t))%Z ∧ t ∉ stop) tokens.

(** The loop [for n in args.ngrams] of one file. *)
Fixpoint count_ngrams (tokens : list (list N)) (ns : list Z)
    (ngram_counts : gmap Z (gmap (list N) nat))
    : result (gmap Z (gmap (list N) nat)) :=
  match ns with
  | [] => Ok ngram_counts
  | n :: ns' =>
      match ngram_counts !! n with
      | Some c =>
          count_ngrams tokens ns' (<[n := update c (make_ngrams tokens n)]> ngram_counts)
      | None => Raise KeyError
      end
  end.

(** The loop [for fp in iter_files(root)], from the counters [st].  The
    progress line written to [stderr] under [args.verbose] is left out. *)
Fixpoint parse_files (a : args) (stop : gset (list N)) (files : list entry)
    (st : gmap (list N) nat * gmap Z (gmap (list N) nat))
    : result (gmap (list N) nat * gmap Z (gmap (list N) nat)) :=
  match files with
  | [] => Ok st
  | fp :: rest =>
      text ← read_file fp;
      let tokens := file_tokens a stop (guess_fmt (e_suffix fp)) text in
      ngram_counts ← count_ngrams tokens (a_ngrams a) st.2;
      parse_files a stop rest (update st.1 tokens, ngram_counts)
  end.

(** [parse_dir(root, args)]: [root] is what [root.rglob("*")] enumerates and
    [stopnode] what [args.stopwords] names. *)
Definition parse_dir (root : list entry) (stopnode : entry) (a : args)
    : result (gmap (list N) nat * gmap Z (gmap (list N) nat)) :=
  let word_counts : gmap (list N) nat := ∅ in
  let ngram_counts : gmap Z (gmap (list N) nat) :=
    foldl (λ mp n, <[n := ∅]> mp) ∅ (a_ngrams a) in
  stop ← load_stopwords (a_stopwords a) stopnode;
  parse_files a stop (iter_files root) (word_counts, ngram_counts).

End Driver.

(** ** Vocabulary of the properties *)

(** The key-wise sum of two counters, and of a list of counters. *)
Definition merge (c1 c2 : gmap (list N) nat) : gmap (list N) nat :=
  union_with (λ x y, Some (x + y)%nat) c1 c2.

Definition merge_all (cs : list (gmap (list N) nat)) : gmap (list N) nat :=
  foldr merge ∅ cs.

(** Does every match of the pattern read at least one character? *)
Fixpoint consumes (r : regex) : bool :=
  match r with
  | Chr _ => true
  | Seq r1 r2 => consumes r1 || consumes r2
  | Alt r1 r2 => consumes r1 && consumes r2
  | Rep _ lo _ => bool_decide (lo ≠ 0%nat)
  | _ => false
  end.

(** The character before the position reached after reading [M]. *)
Definition after (prev : option N) (M : list N) : option N :=
  match last M with Some c => Some c | None => prev end.

(** What a match is: [matches r prev M rest] says that [r] matches the
    characters [M] when [prev] is the character before them and [rest] the
    input behind them. *)
Inductive matches : regex → option N → list N → list N → Prop :=
| mt_eps prev rest : matches Eps prev [] rest
| mt_chr p c prev rest : p c = true → matches (Chr p) prev [c] rest
| mt_seq r1 r2 prev M1 M2 rest :
    matches r1 prev M1 (M2 ++ rest) →
    matches r2 (after prev M1) M2 rest →
    matches (Seq r1 r2) prev (M1 ++ M2) rest
| mt_alt_l r1 r2 prev M rest : matches r1 prev M rest → matches (Alt r1 r2) prev M rest
| mt_alt_r r1 r2 prev M rest : matches r2 prev M rest → matches (Alt r1 r2) prev M rest
| mt_opt_some r prev M rest : matches r prev M rest → matches (Opt r) prev M rest
| mt_opt_none r prev rest : matches (Opt r) prev [] rest
| mt_rep p lo hi prev M rest :
    Forall (λ c, p c = true) M →
    (lo ≤ length M)%nat →
    (∀ h, hi = Some h → (length M ≤ h)%nat) →
    matches (Rep p lo hi) prev M rest
| mt_bol rest : matches Bol None [] rest
| mt_eol prev rest : rest = [] ∨ rest = [10] → matches Eol prev [] rest
| mt_wordb w prev rest :
    xorb (word_at w prev) (word_at w (head rest)) = true →
    matches (WordB w) prev [] rest
| mt_notbehind p prev rest : word_at p prev = false → matches (NotBehind p) prev [] rest
| mt_notahead r prev rest :
    m r prev rest (λ _ _, Some []) = None →
    matches (NotAhead r) prev [] rest.

(** A pattern without anchors, word boundaries and look-around. *)
Fixpoint context_free (r : regex) : bool :=
  match r with
  | Eps | Chr _ | Rep _ _ _ => true
  | Seq r1 r2 | Alt r1 r2 => context_free r1 && context_free r2
  | Opt r1 => context_free r1
  | _ => false
  end.

(** Every character the pattern can read satisfies [Q]. *)
Fixpoint reads_only (Q : N → Prop) (r : regex) : Prop :=
  match r with
  | Chr p | Rep p _ _ => ∀ c, p c = true → Q c
  | Seq r1 r2 | Alt r1 r2 => reads_only Q r1 ∧ reads_only Q r2
  | Opt r1 | NotAhead r1 => reads_only Q r1
  | _ => True
  end.

(** A tag is in the string: a [<], a character other than [>], and a [>]
    further on. *)
Definition has_tag (s : list N) : Prop :=
  ∃ a c b, s = a ++ 60 :: c :: b ∧ c ≠ 62 ∧ 62 ∈ b.

(** One pass of a rule over a string, in the words of the specification:
    from left to right, each match is replaced by [repl] and the pass goes
    on behind the match; a character at which the rule does not match is
    kept. *)
Inductive one_pass (r : regex) (repl : list N) : option N → list N → list N → Prop :=
| pass_end prev :
    match_here r prev [] = None →
    one_pass r repl prev [] []
| pass_keep prev c s out :
    match_here r prev (c :: s) = None →
    one_pass r repl (Some c) s out →
    one_pass r repl prev (c :: s) (c :: out)
| pass_replace prev s M c rest out :
    s = M ++ c :: rest →
    match_here r prev s = Some rest →
    one_pass r repl (Some c) rest out →
    one_pass r repl prev s (repl ++ out).

(** The rules of a list applied once each, in sequence, each by one pass
    over the whole string that puts a single space for every match. *)
Inductive rules_applied : list regex → list N → list N → Prop :=
| rules_done s : rules_applied [] s s
| rules_next r rs s s1 out :
    one_pass r (u " ") None s s1 →
    rules_applied rs s1 out →
    rules_applied (r :: rs) s out.

(** The pattern never matches at a [>]. *)
Definition not_at_gt (r : regex) : Prop :=
  ∀ prev s, match_here r prev (62 :: s) = None.

(** [bool(r.search(s))]: does the pattern match somewhere? *)
Fixpoint search_from (r : regex) (prev : option N) (s : list N) : bool :=
  bool_decide (is_Some (match_here r prev s)) ||
  match s with [] => false | c :: s' => search_from r (Some c) s' end.

Definition re_search (r : regex) (s : list N) : bool := search_from r None s.

Section Vocabulary.
Context {U : UnicodeData}.

(** The filtered tokens of one file: the loop body up to the counting. *)
Definition tokens_of (a : args) (stop : gset (list N)) (fp : entry)
    : result (list (list N)) :=
  text ← read_file fp; Ok (file_tokens a stop (guess_fmt (e_suffix fp)) text).

(** One turn of the loop [for n in args.ngrams] when the key is present. *)
Definition bump (tokens : list (list N)) (g : gmap Z (gmap (list N) nat)) (n : Z)
    : gmap Z (gmap (list N) nat) :=
  alter (λ c, update c (make_ngrams tokens n)) n g.

(** Every requested order has its counter. *)
Definition has_orders (ns : list Z) (g : gmap Z (gmap (list N) nat)) : Prop :=
  ∀ n, n ∈ ns → is_Some (g !! n).

(** The n-gram counters after the files whose filtered tokens are [toks]. *)
Definition ngrams_after (ns : list Z) (g : gmap Z (gmap (list N) nat))
    (toks : list (list (list N))) : gmap Z (gmap (list N) nat) :=
  foldl (λ g t, foldl (bump t) g ns) g toks.

(** No counter of an order in [ns] has the empty string as a key. *)
Definition empty_key_free (ns : Z → Prop) (g : gmap Z (gmap (list N) nat)) : Prop :=
  ∀ n c, ns n → g !! n = Some c → c !! [] = None.

(** The count of the empty string in the counter of order 0. *)
Definition empties (g : gmap Z (gmap (list N) nat)) : nat :=
  count (default ∅ (g !! 0%Z)) [].

(** A string that white space neither starts nor ends. *)
Definition trimmed (s : list N) : Prop :=
  (∀ c, head s = Some c → is_space c = false) ∧
  (∀ c, last s = Some c → is_space c = false).

(** The five time-stamp rules in their order of precedence. *)
Definition timestamp_rules : list regex :=
  [RANGE_VTT; STAMP_BRACKETED; STAMP_HMS_MS; STAMP_HMS; STAMP_MS].

(** A URL is in the string. *)
Definition has_url (s : list N) : Prop :=
  ∃ a M b, s = a ++ M ++ b ∧ matches URL None M [].

(** Does a line of format [f] that holds no URL and no tag still set off a
    rule of [clean_line]: the header or index line of its format, a time
    stamp, a speaker prefix, or the cue brackets? *)
Definition fires (f : fmt) (t : list N) : bool :=
  match f with
  | vtt => re_match WEBVTT_HEADER t
  | srt => re_match LINE_NUMBER_SRT t
  | txt => false
  end
  || existsb (λ r, re_search r t) timestamp_rules
  || re_search SPEAKER_PREFIX t
  || is_cue t.

End Vocabulary.

(** Did the computation return? *)
Definition is_ok {A} (r : result A) : bool :=
  match r with Ok _ => true | Raise _ => false end.

(** Sample data: the defaults of the command line, a readable file with a
    given content, a file that cannot be read, and a path that names
    nothing. *)
Definition default_args : args :=
  {| a_minlen := 2; a_stopwords := None; a_lower := true;
     a_keep_numbers := false; a_verbose := false; a_ngrams := [] |}.

Definition text_file (suffix : string) (content : string) : entry :=
  {| e_is_file := true; e_suffix := u suffix;
     e_read := Ok (list_byte_of_string content);
     e_reread := Ok (list_byte_of_string content) |}.

Definition unreadable_file (suffix : string) : entry :=
  {| e_is_file := true; e_suffix := u suffix;
     e_read := Raise OSError; e_reread := Raise OSError |}.

Definition no_file : entry :=
  {| e_is_file := false; e_suffix := []; e_read := Raise OSError; e_reread := Raise OSError |}.

(** A corpus of two files, and command lines that ask for bigrams and for
    the order 0. *)
Definition two_files : list entry :=
  [text_file ".txt" "Alice: data science is great"; text_file ".srt" "12
00:00:01,000 --> 00:00:02,000
great data"].

Definition bigram_args : args :=
  {| a_minlen := 2; a_stopwords := None; a_lower := true;
     a_keep_numbers := false; a_verbose := false; a_ngrams := [2%Z] |}.

Definition order_zero_args : args :=
  {| a_minlen := 2; a_stopwords := None; a_lower := true;
     a_keep_numbers := false; a_verbose := false; a_ngrams := [0%Z] |}.

(** ** The unigram program and the writer

    [word_clouds.py] has the functions of [phrases_counts.py] up to
    [iter_files] word for word; its [parse_dir] counts single words only. *)

Section Rest.
Context {U : UnicodeData}.

(** [word_clouds.py]: the tokens of one file's text before the filter. *)
Definition all_tokens (a : args) (f : fmt) (text : list N) : list (list N) :=
  let lines := map (λ ln, clean_line ln f) (splitlines text) in
  let cleaned := join (u " ") (filter (λ l, l ≠ []) lines) in
  let cleaned := if a_lower a then lower cleaned else cleaned in
  tokenize cleaned (a_keep_numbers a).

(** [word_clouds.py]: the loop [for t in tokens] of [parse_dir]. *)
Definition count_words (a : args) (stop : gset (list N)) (counts : gmap (list N) nat)
    (tokens : list (list N)) : gmap (list N) nat :=
  foldl (λ counts t,
           if bool_decide ((Z.of_nat (length t) < a_minlen a)%Z ∨ t ∈ stop) then counts
           else incr counts t) counts tokens.

(** [word_clouds.py]: the loop [for fp in iter_files(root)] of [parse_dir],
    without the progress line. *)
Fixpoint wc_parse_files (a : args) (stop : gset (list N)) (files : list entry)
    (counts : gmap (list N) nat) : result (gmap (list N) nat) :=
  match files with
  | [] => Ok counts
  | fp :: rest =>
      text ← read_file fp;
      let tokens := all_tokens a (guess_fmt (e_suffix fp)) text in
      wc_parse_files a stop rest (count_words a stop counts tokens)
  end.

(** [word_clouds.py]: [parse_dir(root, args)]. *)
Definition wc_parse_dir (root : list entry) (stopnode : entry) (a : args)
    : result (gmap (list N) nat) :=
  let counts : gmap (list N) nat := ∅ in
  stop ← load_stopwords (a_stopwords a) stopnode;
  wc_parse_files a stop (iter_files root) counts.

End Rest.

(** A row of a table: the phrase and its count. *)
Definition row : Type := list N * nat.

(** [sorted(items, key=itemgetter(1), reverse=True)], the sort of
    [Counter.most_common]: descending by count, rows of equal count in the
    order they have in the counter. *)
Fixpoint insert_by_count (x : row) (l : list row) : list row :=
  match l with
  | [] => [x]
  | y :: l' => if (x.2 <? y.2)%nat then y :: insert_by_count x l' else x :: l
  end.

Definition sorted_by_count (items : list row) : list row :=
  foldr insert_by_count [] items.

(** [counts.most_common(n)], on the items of the counter in its order. *)
Definition most_common (n : option Z) (items : list row) : list row :=
  match n with
  | None => sorted_by_count items
  | Some k => take (Z.to_nat k) (sorted_by_count items)
  end.

(** [write_csv(counts, out_path, top)]: the header and the rows handed to
    the CSV writer.  The counter is given by its items in its own order,
    that of first insertion; creating the directory and the quoting of the
    cells are left out. *)
Definition write_csv (items : list row) (top : option Z)
    : list (list N) * list row :=
  let truthy := match top with Some k => negb (k =? 0)%Z | None => false end in
  let rows := if truthy then most_common top items else most_common None items in
  ([u "phrase"; u "count"], rows).

(** [args.top or None] of [main]. *)
Definition top_arg (top : Z) : option Z := if (top =? 0)%Z then None else Some top.

(** ** More vocabulary *)

Section MoreVocabulary.
Context {U : UnicodeData}.

(** The order of the rows of a table. *)
Definition by_count : relation row := λ x y, (y.2 ≤ x.2)%nat.

(** The command line [a] with another [--minlen]. *)
Definition with_minlen (m : Z) (a : args) : args :=
  {| a_minlen := m; a_stopwords := a_stopwords a; a_lower := a_lower a;
     a_keep_numbers := a_keep_numbers a; a_verbose := a_verbose a;
     a_ngrams := a_ngrams a |}.

(** Every match of the pattern holds a character that satisfies [Q]. *)
Fixpoint needs (Q : N → Prop) (r : regex) : Prop :=
  match r with
  | Chr p => ∀ c, p c = true → Q c
  | Rep p lo _ => lo ≠ 0%nat ∧ ∀ c, p c = true → Q c
  | Seq r1 r2 => needs Q r1 ∨ needs Q r2
  | Alt r1 r2 => needs Q r1 ∧ needs Q r2
  | _ => False
  end.

(** The characters one of which every URL, tag, time stamp and speaker
    prefix holds. *)
Definition special (c : N) : Prop := c ∈ [58; 60; 46].

(** The test of the header or index line that [clean_line] makes for the
    format. *)
Definition format_line (f : fmt) (s : list N) : bool :=
  match f with
  | vtt => re_match WEBVTT_HEADER s
  | srt => re_match LINE_NUMBER_SRT s
  | txt => false
  end.

(** [out] is [s] with parts removed or replaced by a single space: it is no
    longer, and its characters other than the space are characters of
    [s]. *)
Definition reduces (s out : list N) : Prop :=
  (length out ≤ length s)%nat ∧ ∀ c, c ∈ out → c = 32 ∨ c ∈ s.

(** The characters of a raw token: ASCII letters and digits, the apostrophe
    and the hyphen. *)
Definition token_char (c : N) : bool :=
  ascii_letter c || ascii_digit c || (c =? 39) || (c =? 45).

(** The maximal runs of characters that [sep] does not separate; [cur] is
    the run being read, reversed. *)
Fixpoint fields_from (sep : N → bool) (cur s : list N) : list (list N) :=
  match s with
  | [] => match cur with [] => [] | _ => [rev cur] end
  | c :: s' =>
      if sep c then
        match cur with [] => fields_from sep [] s' | _ => rev cur :: fields_from sep [] s' end
      else fields_from sep (c :: cur) s'
  end.

(** The raw tokens of a text: its maximal runs of token characters. *)
Definition raw_tokens (text : list N) : list (list N) :=
  fields_from (λ c, negb (token_char c)) [] text.

(** What [tokenize] does with a raw token, said without patterns: all
    apostrophes go, then a number is left out unless numbers are kept, and
    so is what has become empty. *)
Definition finish_token (keep_numbers : bool) (raw : list N) : option (list N) :=
  let tok := filter (λ c, c ≠ 39) raw in
  if negb keep_numbers && isdigit tok then None
  else match tok with [] => None | _ => Some tok end.

(** How often the order [n] stands in the list of requested orders. *)
Definition times_requested (n : Z) (ns : list Z) : nat := length (filter (λ x, x = n) ns).

(** The n-grams of order [n] that one file with filtered tokens [t]
    counts: those of [make_ngrams], once for every time the order is
    requested. *)
Definition file_ngrams (ns : list Z) (n : Z) (t : list (list N)) : list (list N) :=
  mjoin (replicate (times_requested n ns) (make_ngrams t n)).

(** How often [p] stands in [l]. *)
Definition occurrences (p : list N) (l : list (list N)) : nat :=
  length (filter (λ x, x = p) l).

(** [fp'] is to the program the file [fp] read at the first attempt, with
    the text [text]. *)
Definition read_at_once (text : list N) (fp fp' : entry) : Prop :=
  e_is_file fp' = e_is_file fp ∧ e_suffix fp' = e_suffix fp ∧
  read_text (e_read fp') Utf8 Ignore = Ok text.

End MoreVocabulary.

Section Shapes.
Context {U : UnicodeData}.

(** *** The five shapes of a time stamp, in the words of the specification *)

(** A field of [n] digits, and a run of white space. *)
Definition digits (n : nat) (s : list N) : Prop :=
  length s = n ∧ Forall (λ c, is_decimal c = true) s.

Definition blank (s : list N) : Prop := Forall (λ c, is_space c = true) s.

(** [HH:MM:SS] *)
Definition clock (s : list N) : Prop :=
  ∃ hh mm ss, s = hh ++ u ":" ++ mm ++ u ":" ++ ss ∧
              digits 2 hh ∧ digits 2 mm ∧ digits 2 ss.

(** [HH:MM:SS.mmm] or [HH:MM:SS,mmm] *)
Definition clock_ms (s : list N) : Prop :=
  ∃ t p ms, s = t ++ p :: ms ∧ clock t ∧ (p = ch "." ∨ p = ch ",") ∧ digits 3 ms.

(** [M:SS] or [MM:SS] *)
Definition short_clock (s : list N) : Prop :=
  ∃ mm ss, s = mm ++ u ":" ++ ss ∧ (digits 1 mm ∨ digits 2 mm) ∧ digits 2 ss.

(** A word boundary lies between [a] and [b]: one of them is a word
    character and the other is not, or is missing. *)
Definition edge (a b : option N) : Prop := word_at is_word a ≠ word_at is_word b.

(** The text [M] stands alone between the character [prev] before it and
    the text [rest] behind it. *)
Definition standalone (prev : option N) (M rest : list N) : Prop :=
  edge prev (head M) ∧ edge (last M) (head rest).

(** A shape says of a text [M], the character before it and the text behind
    it, whether [M] is a time stamp of that shape there. *)
Definition shape : Type := option N → list N → list N → Prop.

(** 1. The range [HH:MM:SS.mmm --> HH:MM:SS.mmm], standing alone. *)
Definition range_shape : shape := λ prev M rest,
  standalone prev M rest ∧
  ∃ t1 w1 w2 t2, M = t1 ++ w1 ++ u "-->" ++ w2 ++ t2 ∧
                 clock_ms t1 ∧ blank w1 ∧ blank w2 ∧ clock_ms t2.

(** 2. The bracketed [[MM:SS]] or [[HH:MM:SS]], the first field of one or
    two digits, with white space inside the brackets at will. *)
Definition bracketed_shape : shape := λ prev M rest,
  ∃ w1 t w2, M = u "[" ++ w1 ++ t ++ w2 ++ u "]" ∧ blank w1 ∧ blank w2 ∧
             (short_clock t ∨
              ∃ t' ss, t = t' ++ u ":" ++ ss ∧ short_clock t' ∧ digits 2 ss).

(** 3. [HH:MM:SS.mmm] or [HH:MM:SS,mmm], standing alone. *)
Definition hms_ms_shape : shape := λ prev M rest,
  standalone prev M rest ∧ clock_ms M.

(** 4. [HH:MM:SS], standing alone. *)
Definition hms_shape : shape := λ prev M rest,
  standalone prev M rest ∧ clock M.

(** 5. [MM:SS] or [M:SS], standing alone, with no digit before it and no
    colon and digit behind it. *)
Definition ms_shape : shape := λ prev M rest,
  standalone prev M rest ∧ short_clock M ∧
  word_at is_decimal prev = false ∧
  ¬ ∃ d rest', rest = ch ":" :: d :: rest' ∧ is_decimal d = true.

Definition timestamp_shapes : list shape :=
  [range_shape; bracketed_shape; hms_ms_shape; hms_shape; ms_shape].

(** One pass over a string that removes a shape: from left to right, a
    time stamp of the shape that starts at the current position is replaced
    by a single space and the pass goes on behind it; a character at which
    none starts is kept. *)
Inductive shape_pass (sh : shape) : option N → list N → list N → Prop :=
| sp_end prev : shape_pass sh prev [] []
| sp_keep prev c s out :
    (∀ M rest, c :: s = M ++ rest → ¬ sh prev M rest) →
    shape_pass sh (Some c) s out →
    shape_pass sh prev (c :: s) (c :: out)
| sp_replace prev M c rest out :
    sh prev (M ++ [c]) rest →
    shape_pass sh (Some c) rest out →
    shape_pass sh prev (M ++ c :: rest) (u " " ++ out).

(** The shapes of a list removed one after the other, each by one pass over
    the whole string the pass before it has left. *)
Inductive shapes_removed : list shape → list N → list N → Prop :=
| removed_done s : shapes_removed [] s s
| removed_next sh shs s s1 out :
    shape_pass sh None s s1 →
    shapes_removed shs s1 out →
    shapes_removed (sh :: shs) s out.

End Shapes.

(** More sample data: command lines that ask for the order 1 and that name
    a stopword file, a stopword file that is not UTF-8, a file whose bytes
    are the UTF-8 of U+00E9, and the items of a small counter. *)
Definition order_one_args : args :=
  {| a_minlen := 2; a_stopwords := None; a_lower := true;
     a_keep_numbers := false; a_verbose := false; a_ngrams := [1%Z] |}.

Definition stopwords_args : args :=
  {| a_minlen := 2; a_stopwords := Some (u "stop.txt"); a_lower := true;
     a_keep_numbers := false; a_verbose := false; a_ngrams := [] |}.

Definition invalid_utf8_file : entry :=
  {| e_is_file := true; e_suffix := u ".txt";
     e_read := Ok [Byte.x61; Byte.xff]; e_reread := Ok [Byte.x61; Byte.xff] |}.

Definition e_acute_file : entry :=
  {| e_is_file := true; e_suffix := u ".txt";
     e_read := Ok [Byte.xc3; Byte.xa9]; e_reread := Ok [Byte.xc3; Byte.xa9] |}.

Definition sample_items : list row :=
  [(u "data", 2%nat); (u "science", 1%nat); (u "great", 2%nat); (u "is", 1%nat)].

(** A file that can only be read at the second attempt. *)
Definition second_try_file (suffix : string) (content : string) : entry :=
  {| e_is_file := true; e_suffix := u suffix;
     e_read := Raise OSError; e_reread := Ok (list_byte_of_string content) |}.

Section Counters.
Implicit Types (c : gmap (list N) nat) (k j : list N) (l : list (list N)).

Lemma lookup_incr c k j :
  incr c k !! j = if decide (k = j) then Some (S (count c j)) else c !! j.
Proof.
  unfold incr, count. rewrite lookup_insert. by destruct (decide (k = j)) as [->|].
Qed.

Lemma incr_comm c k j : incr (incr c k) j = incr (incr c j) k.
Proof.
  apply map_eq; intros i. rewrite !lookup_incr. unfold count.
  rewrite !lookup_incr.
  repeat case_decide; simplify_eq; done.
Qed.

Lemma update_cons c k l : update c (k :: l) = update (incr c k) l.
Proof. done. Qed.

Lemma update_app c l1 l2 : update c (l1 ++ l2) = update (update c l1) l2.
Proof. apply foldl_app. Qed.

Lemma update_incr c k l : update (incr c k) l = incr (update c l) k.
Proof.
  revert c. induction l as [|x l IH]; intros c; [done|].
  cbn [update foldl]. fold (update (incr (incr c k) x) l).
  rewrite incr_comm. apply IH.
Qed.

Lemma update_Permutation c l1 l2 : l1 ≡ₚ l2 → update c l1 = update c l2.
Proof.
  intros HP. revert c. induction HP; intros c.
  - done.
  - rewrite !update_cons. auto.
  - rewrite !update_cons. by rewrite incr_comm.
  - congruence.
Qed.

Lemma merge_empty_r c : merge c ∅ = c.
Proof. apply map_eq; intros i. unfold merge. rewrite lookup_union_with, lookup_empty. by destruct (c !! i). Qed.

Lemma merge_incr c1 c2 k : merge c1 (incr c2 k) = incr (merge c1 c2) k.
Proof.
  apply map_eq; intros i. unfold merge. rewrite lookup_union_with, !lookup_incr.
  unfold count. rewrite lookup_union_with.
  case_decide; [|done].
  destruct (c1 !! i), (c2 !! i); simpl; f_equal; lia.
Qed.

Lemma update_merge c l : update c l = merge c (update ∅ l).
Proof.
  revert c. induction l as [|x l IH] using rev_ind; intros c.
  - simpl. by rewrite merge_empty_r.
  - rewrite !update_app. simpl. fold (incr (update c l) x). fold (incr (update ∅ l) x).
    rewrite merge_incr. by rewrite IH.
Qed.

Lemma count_incr c k j :
  count (incr c k) j = if decide (k = j) then S (count c j) else count c j.
Proof. unfold count at 1. rewrite lookup_incr. by case_decide. Qed.

Lemma total_incr c k : total (incr c k) = S (total c).
Proof.
  unfold total, incr.
  destruct (c !! k) as [v|] eqn:E; simpl.
  - rewrite <- (insert_delete_eq c).
    rewrite map_fold_insert_L; [| intros; lia | apply lookup_delete_eq].
    rewrite (map_fold_delete_L _ _ k v c); [lia | intros; lia | done].
  - rewrite map_fold_insert_L; [lia | intros; lia | done].
Qed.

Lemma total_update c l : total (update c l) = (total c + length l)%nat.
Proof.
  revert c. induction l as [|x l IH]; intros c; simpl; [lia|].
  fold (update (incr c x) l). rewrite IH, total_incr. lia.
Qed.

Lemma total_empty : total ∅ = 0%nat.
Proof. apply map_fold_empty. Qed.

Lemma update_no_key c l k : c !! k = None → k ∉ l → update c l !! k = None.
Proof.
  revert c. induction l as [|x l IH]; intros c Hc Hk; [done|].
  rewrite update_cons. apply IH.
  - rewrite lookup_incr. case_decide; [|done]. subst. set_solver.
  - set_solver.
Qed.

Lemma count_update c l k :
  count (update c l) k = (count c k + length (filter (λ x, x = k) l))%nat.
Proof.
  revert c. induction l as [|x l IH]; intros c; [simpl; lia|].
  rewrite update_cons, IH, count_incr, filter_cons.
  case_decide; simpl; lia.
Qed.

Lemma count_update_pos c l k : k ∈ l → (0 < count (update c l) k)%nat.
Proof.
  intros Hk. rewrite count_update.
  assert (k ∈ filter (λ x, x = k) l) as Hin by (by apply list_elem_of_filter).
  destruct (filter (λ x, x = k) l); [by apply elem_of_nil in Hin | simpl; lia].
Qed.

Lemma count_pos_lookup c k : (0 < count c k)%nat → ∃ v, c !! k = Some v ∧ (0 < v)%nat.
Proof. unfold count. destruct (c !! k) as [v|]; simpl; [eauto | lia]. Qed.
End Counters.

Section DriverFacts.
Context {U : UnicodeData}.

Lemma has_orders_bump ns tokens g n : has_orders ns g → has_orders ns (bump tokens g n).
Proof.
  intros H k Hk. unfold bump. rewrite lookup_alter. specialize (H k Hk).
  case_decide; [subst; by apply fmap_is_Some | done].
Qed.

Lemma has_orders_bumps ns tokens g l : has_orders ns g → has_orders ns (foldl (bump tokens) g l).
Proof. revert g. induction l; simpl; auto using has_orders_bump. Qed.

Lemma count_ngrams_ok tokens ns g :
  has_orders ns g → count_ngrams tokens ns g = Ok (foldl (bump tokens) g ns).
Proof.
  revert g. induction ns as [|n ns IH]; intros g H; simpl; [done|].
  destruct (H n) as [c Hc]; [set_solver|]. rewrite Hc.
  assert (<[n:=update c (make_ngrams tokens n)]> g = bump tokens g n) as ->.
  { unfold bump. apply map_eq; intros i. rewrite lookup_alter, lookup_insert.
    case_decide; [subst; by rewrite Hc | done]. }
  apply IH. intros k Hk. apply (has_orders_bump ns); [|done]. intros ? ?. apply H. set_solver.
Qed.

Lemma has_orders_init ns : has_orders ns (foldl (λ mp n, <[n := ∅]> mp) ∅ ns).
Proof.
  assert (∀ g0 : gmap Z (gmap (list N) nat), ∀ n, (n ∈ ns ∨ is_Some (g0 !! n)) →
            is_Some (foldl (λ mp n, <[n := ∅]> mp) g0 ns !! n)) as H.
  { induction ns as [|x ns IH]; intros g0 n Hn; simpl.
    - destruct Hn as [Hn|Hn]; [by apply elem_of_nil in Hn | done].
    - apply IH. destruct Hn as [Hn|Hn].
      + apply elem_of_cons in Hn as [->|Hn]; [right; rewrite lookup_insert_eq; eauto | by left].
      + right. rewrite lookup_insert. case_decide; eauto. }
  intros n Hn. apply H. by left.
Qed.

Lemma parse_files_ok a stop files w0 g0 toks :
  has_orders (a_ngrams a) g0 →
  Forall2 (λ fp t, tokens_of a stop fp = Ok t) files toks →
  parse_files a stop files (w0, g0) =
    Ok (update w0 (concat toks), ngrams_after (a_ngrams a) g0 toks).
Proof.
  intros Hg HF. revert w0 g0 Hg. induction HF as [|fp t files toks Hfp HF IH]; intros w0 g0 Hg.
  - done.
  - simpl. unfold tokens_of in Hfp. destruct (read_file fp) as [text|e]; simpl in *; [|done].
    injection Hfp as <-. rewrite count_ngrams_ok by done. simpl.
    rewrite IH by (by apply has_orders_bumps). by rewrite update_app.
Qed.

Lemma parse_files_inv a stop files w0 g0 w g :
  has_orders (a_ngrams a) g0 →
  parse_files a stop files (w0, g0) = Ok (w, g) →
  ∃ toks, Forall2 (λ fp t, tokens_of a stop fp = Ok t) files toks.
Proof.
  revert w0 g0. induction files as [|fp files IH]; intros w0 g0 Hg H.
  - exists []. constructor.
  - simpl in H. destruct (read_file fp) as [text|e] eqn:E; simpl in H; [|done].
    rewrite count_ngrams_ok in H by done. simpl in H.
    apply IH in H as [toks HF]; [|by apply has_orders_bumps].
    eexists (_ :: toks). constructor; [|done]. unfold tokens_of. by rewrite E.
Qed.

Lemma parse_files_raise a stop files st fp e :
  fp ∈ files → read_file fp = Raise e → ∃ e', parse_files a stop files st = Raise e'.
Proof.
  intros Hin Hfp. revert st. induction files as [|x files IH]; intros st.
  - by apply elem_of_nil in Hin.
  - simpl. destruct (read_file x) as [text|e1] eqn:E; simpl; [|eauto].
    destruct (count_ngrams _ _ _) as [g|e2]; simpl; [|eauto].
    apply elem_of_cons in Hin as [->|Hin]; [congruence | by apply IH].
Qed.

Lemma Forall2_Ok_Permutation {A B} (F : A → result B) l l' ys :
  Forall2 (λ x y, F x = Ok y) l ys → l' ≡ₚ l →
  ∃ ys', ys' ≡ₚ ys ∧ Forall2 (λ x y, F x = Ok y) l' ys'.
Proof.
  intros HF HP. revert ys HF. induction HP as [|x l1 l2 HP IH|x y l1|l1 l2 l3 HP1 IH1 HP2 IH2]; intros ys HF.
  - apply Forall2_nil_inv_l in HF as ->. exists []. split; [done | constructor].
  - apply Forall2_cons_inv_l in HF as (y & ys1 & Hy & HF & ->).
    destruct (IH _ HF) as (ys' & HP' & HF'). exists (y :: ys'). split; [by constructor | by constructor].
  - apply Forall2_cons_inv_l in HF as (y1 & ys1 & Hy1 & HF & ->).
    apply Forall2_cons_inv_l in HF as (y2 & ys2 & Hy2 & HF & ->).
    exists (y2 :: y1 :: ys2). split; [apply Permutation_swap | by repeat constructor].
  - destruct (IH2 _ HF) as (ys2 & HPa & HFa). destruct (IH1 _ HFa) as (ys1 & HPb & HFb).
    exists ys1. split; [by etrans | done].
Qed.

Lemma concat_Permutation {A} (ls ls' : list (list A)) : ls ≡ₚ ls' → concat ls ≡ₚ concat ls'.
Proof.
  induction 1; simpl.
  - done.
  - by apply Permutation_app_head.
  - rewrite !app_assoc. apply Permutation_app_tail, Permutation_app_comm.
  - by etrans.
Qed.

End DriverFacts.

Section Ngram.
Context {U : UnicodeData}.

Lemma slice_window {A} (l : list A) (i n : Z) :
  (0 ≤ i)%Z → (0 ≤ n)%Z → (i + n ≤ Z.of_nat (length l))%Z →
  slice l i (i + n) = take (Z.to_nat n) (drop (Z.to_nat i) l).
Proof.
  intros Hi Hn Hl. unfold slice, slice_bound.
  destruct (Z.ltb_spec i 0); [lia|]. destruct (Z.ltb_spec (i + n) 0); [lia|].
  rewrite !Z.min_l by lia. f_equal. lia.
Qed.

Lemma lookup_range (k : Z) (i : nat) :
  (Z.of_nat i < k)%Z → range k !! i = Some (Z.of_nat i).
Proof.
  intros H. unfold range. rewrite list_lookup_fmap.
  rewrite (proj2 (lookup_seq 0 (Z.to_nat k) i i)); [done | lia].
Qed.

Lemma length_range k : length (range k) = Z.to_nat k.
Proof. unfold range. by rewrite length_map, length_seq. Qed.

Lemma elem_of_range k i : i ∈ range k → (0 ≤ i < k)%Z.
Proof.
  unfold range. intros (j & -> & Hj)%list_elem_of_fmap.
  apply elem_of_seq in Hj. lia.
Qed.

Lemma make_ngrams_short tokens n :
  (Z.of_nat (length tokens) < n)%Z → make_ngrams tokens n = [].
Proof. intros H. unfold make_ngrams. by rewrite (proj2 (Z.ltb_lt _ _) H). Qed.

Lemma make_ngrams_windows tokens n :
  (0 ≤ n ≤ Z.of_nat (length tokens))%Z →
  make_ngrams tokens n =
    map (λ i, join (u " ") (take (Z.to_nat n) (drop i tokens)))
        (seq 0 (length tokens - Z.to_nat n + 1)).
Proof.
  intros H. unfold make_ngrams. destruct (Z.ltb_spec (Z.of_nat (length tokens)) n); [lia|].
  unfold range. rewrite map_map.
  replace (Z.to_nat (Z.of_nat (length tokens) - n + 1)) with (length tokens - Z.to_nat n + 1)%nat by lia.
  apply map_ext_in. intros i Hi%in_seq.
  rewrite slice_window by lia. by rewrite Nat2Z.id.
Qed.

Lemma join_nil_inv sep parts : join sep parts = [] → parts = [] ∨ ∃ ps, parts = [] :: ps.
Proof.
  destruct parts as [|p ps]; [by left|]. right.
  destruct p; [eauto|]. destruct ps; simpl; discriminate.
Qed.

Lemma make_ngrams_nonempty tokens n :
  Forall (λ t, t ≠ []) tokens → (1 ≤ n)%Z → [] ∉ make_ngrams tokens n.
Proof.
  intros HF Hn Hin.
  destruct (Z.ltb_spec (Z.of_nat (length tokens)) n) as [Hlt|Hge].
  { rewrite make_ngrams_short in Hin by done. by apply elem_of_nil in Hin. }
  rewrite make_ngrams_windows in Hin by lia.
  apply list_elem_of_fmap in Hin as (i & Hj & Hi). apply elem_of_seq in Hi.
  symmetry in Hj. apply join_nil_inv in Hj as [Hj|[ps Hj]].
  - apply (f_equal length) in Hj. rewrite length_take, length_drop in Hj. simpl in Hj. lia.
  - assert ([] ∈ tokens) as Hbad.
    { apply (subseteq_drop i), (subseteq_take (Z.to_nat n)). rewrite Hj. by left. }
    rewrite Forall_forall in HF. by apply (HF _ Hbad).
Qed.

Lemma make_ngrams_zero tokens :
  make_ngrams tokens 0 = replicate (S (length tokens)) [].
Proof.
  rewrite make_ngrams_windows by lia.
  replace (length tokens - Z.to_nat 0 + 1)%nat with (S (length tokens)) by lia.
  generalize (S (length tokens)) as k. intros k. generalize 0%nat as s0.
  induction k as [|k IH]; intros s0; [done|]. cbn [seq map replicate]. f_equal. apply IH.
Qed.

End Ngram.

Section Aggregator.
Context {U : UnicodeData}.

Lemma clean_token_nonempty keep raw t : clean_token keep raw = Some t → t ≠ [].
Proof.
  unfold clean_token. destruct (negb keep && isdigit _); [done|].
  destruct (replace _ _ _) eqn:E; [done|]. by intros [= <-].
Qed.

Lemma tokenize_nonempty text keep : Forall (λ t, t ≠ []) (tokenize text keep).
Proof.
  apply Forall_forall. intros t Ht. unfold tokenize in Ht.
  apply list_elem_of_omap in Ht as (raw & _ & Hraw). by eapply clean_token_nonempty.
Qed.

Lemma file_tokens_nonempty a stop f text : Forall (λ t, t ≠ []) (file_tokens a stop f text).
Proof.
  unfold file_tokens. apply Forall_forall. intros t Ht.
  apply list_elem_of_filter in Ht as [_ Ht].
  eapply (proj1 (Forall_forall _ _) (tokenize_nonempty _ _)), Ht.
Qed.

Lemma tokens_of_nonempty a stop fp t :
  tokens_of a stop fp = Ok t → Forall (λ t, t ≠ []) t.
Proof.
  unfold tokens_of. destruct (read_file fp); simpl; [|done].
  intros [= <-]. apply file_tokens_nonempty.
Qed.

Lemma merge_all_update toks : merge_all (map (update ∅) toks) = update ∅ (concat toks).
Proof.
  induction toks as [|t toks IH]; [done|].
  simpl. rewrite IH, update_app. symmetry. apply update_merge.
Qed.

Lemma parse_dir_inv root sn a wc ng :
  parse_dir root sn a = Ok (wc, ng) →
  ∃ stop toks,
    load_stopwords (a_stopwords a) sn = Ok stop ∧
    Forall2 (λ fp t, tokens_of a stop fp = Ok t) (iter_files root) toks ∧
    wc = update ∅ (concat toks) ∧
    ng = ngrams_after (a_ngrams a) (foldl (λ mp n, <[n := ∅]> mp) ∅ (a_ngrams a)) toks.
Proof.
  unfold parse_dir. intros H.
  destruct (load_stopwords _ _) as [stop|e]; simpl in H; [|done].
  pose proof (has_orders_init (a_ngrams a)) as Hg.
  destruct (parse_files_inv _ _ _ _ _ _ _ Hg H) as [toks HF].
  rewrite (parse_files_ok _ _ _ _ _ _ Hg HF) in H. injection H as <- <-.
  by exists stop, toks.
Qed.

(** C4: when [parse_dir] returns, the unigram table is the key-wise sum of
    the tables of the single files, its total is the number of filtered
    tokens (minimum length and stopwords) summed over the files, and it is
    the same in whatever order the files are processed. *)
Theorem unigram_table_additive root sn a wc ng :
  parse_dir root sn a = Ok (wc, ng) →
  ∃ stop toks,
    load_stopwords (a_stopwords a) sn = Ok stop ∧
    Forall2 (λ fp t, tokens_of a stop fp = Ok t) (iter_files root) toks ∧
    wc = merge_all (map (update ∅) toks) ∧
    total wc = sum_list (map length toks) ∧
    ∀ root', root' ≡ₚ root → ∃ ng', parse_dir root' sn a = Ok (wc, ng').
Proof.
  intros H. destruct (parse_dir_inv _ _ _ _ _ H) as (stop & toks & Hs & HF & -> & ->).
  exists stop, toks. split_and!; [done | done | by rewrite merge_all_update | |].
  - rewrite total_update, total_empty. simpl.
    clear. induction toks as [|t toks IH]; simpl; [done|]. rewrite length_app. lia.
  - intros root' HP.
    assert (iter_files root' ≡ₚ iter_files root) as HP' by (unfold iter_files; by rewrite HP).
    destruct (Forall2_Ok_Permutation _ _ _ _ HF HP') as (toks' & HPt & HF').
    eexists. unfold parse_dir. rewrite Hs. simpl.
    rewrite (parse_files_ok _ _ _ _ _ _ (has_orders_init _) HF').
    do 2 f_equal. apply update_Permutation. by apply concat_Permutation.
Qed.

(** C7: for an order [n ≥ 2], [make_ngrams] gives nothing when fewer than
    [n] tokens are left, and otherwise one phrase for each of the
    [len(tokens) - n + 1] windows: the [i]-th phrase is the [n] tokens from
    position [i] joined by single spaces. *)
Theorem make_ngrams_spec tokens n :
  (2 ≤ n)%Z →
  ((Z.of_nat (length tokens) < n)%Z → make_ngrams tokens n = []) ∧
  ((n ≤ Z.of_nat (length tokens))%Z →
     Z.of_nat (length (make_ngrams tokens n)) = (Z.of_nat (length tokens) - n + 1)%Z ∧
     ∀ i, (Z.of_nat i < Z.of_nat (length tokens) - n + 1)%Z →
       ∃ w, w = take (Z.to_nat n) (drop i tokens) ∧
            Z.of_nat (length w) = n ∧
            make_ngrams tokens n !! i = Some (join (u " ") w)).
Proof.
  intros Hn. split; [apply make_ngrams_short|]. intros Hl.
  rewrite make_ngrams_windows by lia. split.
  - rewrite length_map, length_seq. lia.
  - intros i Hi. eexists. split; [done|]. split.
    + rewrite length_take, length_drop. lia.
    + rewrite list_lookup_fmap.
      rewrite (proj2 (lookup_seq 0 _ i i)); [done | lia].
Qed.

Lemma init_tables ns0 n c :
  foldl (λ mp n, <[n := ∅]> mp) (∅ : gmap Z (gmap (list N) nat)) ns0 !! n = Some c → c = ∅.
Proof.
  assert (∀ g0 : gmap Z (gmap (list N) nat), (∀ n c, g0 !! n = Some c → c = ∅) →
            ∀ n c, foldl (λ mp n, <[n := ∅]> mp) g0 ns0 !! n = Some c → c = ∅) as H.
  { induction ns0 as [|x ns0 IH]; intros g0 Hg0; simpl; [done|].
    apply IH. intros k d. rewrite lookup_insert. case_decide; [congruence | apply Hg0]. }
  apply H. intros k d. by rewrite lookup_empty.
Qed.

Lemma bump_empty_key_free t g n :
  Forall (λ t, t ≠ []) t → empty_key_free (λ n, 1 ≤ n)%Z g →
  empty_key_free (λ n, 1 ≤ n)%Z (bump t g n).
Proof.
  intros Ht Hg k c Hk. unfold bump. rewrite lookup_alter. case_decide as E.
  - subst k. destruct (g !! n) as [c0|] eqn:E0; simpl; [|done]. intros [= <-].
    apply update_no_key; [by eapply Hg | by apply make_ngrams_nonempty].
  - by apply Hg.
Qed.

Lemma ngrams_after_empty_key_free ns g toks :
  Forall (Forall (λ t, t ≠ [])) toks → empty_key_free (λ n, 1 ≤ n)%Z g →
  empty_key_free (λ n, 1 ≤ n)%Z (ngrams_after ns g toks).
Proof.
  intros HF. revert g. induction HF as [|t toks Ht HF IH]; intros g Hg; [done|].
  simpl. apply IH. clear IH. revert g Hg. induction ns as [|n ns IHn]; intros g Hg; [done|].
  simpl. apply IHn. by apply bump_empty_key_free.
Qed.

(** C8 (amended): in the tables [parse_dir] returns, the empty string is
    not a key of the unigram table nor of the table of any requested order
    [n ≥ 1]. *)
Theorem no_empty_key root sn a wc ng :
  parse_dir root sn a = Ok (wc, ng) →
  wc !! [] = None ∧ ∀ n c, (1 ≤ n)%Z → ng !! n = Some c → c !! [] = None.
Proof.
  intros H. destruct (parse_dir_inv _ _ _ _ _ H) as (stop & toks & Hs & HF & -> & ->).
  assert (Forall (Forall (λ t, t ≠ [])) toks) as Hne.
  { clear -HF. induction HF; constructor; eauto using tokens_of_nonempty. }
  split.
  - apply update_no_key; [done|]. intros Hin.
    apply list_elem_of_In, in_concat in Hin as (t & Ht & Hin).
    rewrite Forall_forall in Hne. specialize (Hne t (proj2 (list_elem_of_In _ _) Ht)).
    rewrite Forall_forall in Hne. by apply (Hne [] (proj2 (list_elem_of_In _ _) Hin)).
  - apply ngrams_after_empty_key_free; [done|].
    intros n c _ Hc. apply init_tables in Hc as ->. done.
Qed.

Lemma empties_bump t g n :
  (empties g ≤ empties (bump t g n))%nat ∧
  (n = 0%Z → is_Some (g !! 0%Z) → 0 < empties (bump t g n))%nat.
Proof.
  unfold empties, bump. rewrite lookup_alter. case_decide as E.
  - subst n. destruct (g !! 0%Z) as [c|]; simpl.
    + rewrite count_update. split; [lia|]. intros _ _.
      rewrite make_ngrams_zero. cbn [replicate]. rewrite filter_cons_True by done. simpl. lia.
    + split; [done|]. by intros _ [? ?].
  - split; [done|]. congruence.
Qed.

Lemma empties_file t ns g :
  is_Some (g !! 0%Z) →
  (empties g ≤ empties (foldl (bump t) g ns))%nat ∧
  (0%Z ∈ ns → 0 < empties (foldl (bump t) g ns))%nat.
Proof.
  revert g. induction ns as [|n ns IH]; intros g Hg; simpl.
  - split; [done|]. by intros ?%elem_of_nil.
  - destruct (empties_bump t g n) as [H1 H2].
    assert (is_Some (bump t g n !! 0%Z)) as Hg'.
    { unfold bump. rewrite lookup_alter. case_decide; [subst; by apply fmap_is_Some | done]. }
    destruct (IH _ Hg') as [H3 H4]. split; [lia|].
    intros [E|Hin]%elem_of_cons; [symmetry in E; specialize (H2 E Hg); lia | auto].
Qed.

(** C10: [make_ngrams(tokens, 0)] is [len(tokens) + 1] empty strings, and a
    run over at least one file with the order 0 requested returns an
    order-0 table in which the empty string has a positive count. *)
Theorem order_zero_inserts_empty_key :
  (∀ tokens, make_ngrams tokens 0 = replicate (S (length tokens)) []) ∧
  (∀ root sn a wc ng,
     0%Z ∈ a_ngrams a → iter_files root ≠ [] →
     parse_dir root sn a = Ok (wc, ng) →
     ∃ c v, ng !! 0%Z = Some c ∧ c !! [] = Some v ∧ (0 < v)%nat).
Proof.
  split; [apply make_ngrams_zero|].
  intros root sn a wc ng H0 Hne H.
  destruct (parse_dir_inv _ _ _ _ _ H) as (stop & toks & Hs & HF & -> & ->).
  destruct HF as [|fp t files toks Hfp HF]; [done|]. clear Hne.
  set (g0 := foldl _ _ _).
  assert (is_Some (g0 !! 0%Z)) as Hg0 by (by apply has_orders_init).
  simpl. destruct (empties_file t (a_ngrams a) g0 Hg0) as [_ Hpos]. specialize (Hpos H0).
  assert (is_Some (foldl (bump t) g0 (a_ngrams a) !! 0%Z)) as Hg1.
  { apply (has_orders_bumps (a_ngrams a)); [apply has_orders_init | done]. }
  revert Hpos Hg1. generalize (foldl (bump t) g0 (a_ngrams a)) as g. clear -H0.
  induction toks as [|t' toks IH]; intros g Hpos Hg; simpl.
  - destruct Hg as [c Hc]. unfold empties in Hpos. rewrite Hc in Hpos. simpl in Hpos.
    apply count_pos_lookup in Hpos as (v & Hv & Hv'). eauto.
  - destruct (empties_file t' (a_ngrams a) g Hg) as [Hle _]. apply IH; [lia|].
    revert Hg. clear. revert g. induction (a_ngrams a) as [|n ns IHn]; intros g Hg; [done|].
    simpl. apply IHn. unfold bump. rewrite lookup_alter. case_decide; [subst; by apply fmap_is_Some | done].
Qed.

End Aggregator.

(** ** The matcher and what a match is *)

Lemma after_app prev M1 M2 : after (after prev M1) M2 = after prev (M1 ++ M2).
Proof.
  unfold after. rewrite last_app. by destruct (last M2).
Qed.

Lemma after_cons prev c M : after (Some c) M = after prev (c :: M).
Proof. apply (after_app prev [c] M). Qed.

Lemma rep_m_sound p lo hi prev s k x :
  rep_m p lo hi prev s k = Some x →
  ∃ M rest, s = M ++ rest ∧ matches (Rep p lo hi) prev M rest ∧
            k (after prev M) rest = Some x.
Proof.
  revert lo hi prev. induction s as [|c s IH]; intros lo hi prev H; simpl in H.
  - destruct lo; [|done]. exists [], []. split_and!; [done | | done].
    constructor; [constructor | simpl; lia | intros; simpl; lia].
  - assert (match lo with O => k prev (c :: s) | S _ => None end = Some x →
            ∃ M rest, c :: s = M ++ rest ∧ matches (Rep p lo hi) prev M rest ∧
                      k (after prev M) rest = Some x) as Hstop.
    { destruct lo; [|done]. intros Hk. exists [], (c :: s). split_and!; [done | | done].
      constructor; [constructor | simpl; lia | intros; simpl; lia]. }
    destruct (p c) eqn:Hp; simpl in H; [|by apply Hstop].
    case_bool_decide as Hhi; simpl in H; [by apply Hstop|].
    destruct (rep_m p (pred lo) (pred <$> hi) (Some c) s k) as [y|] eqn:E; [|by apply Hstop].
    injection H as ->. apply IH in E as (M & rest & -> & HM & Hk).
    exists (c :: M), rest. split_and!; [done | | by rewrite <- (after_cons prev)].
    inversion HM as [| | | | | | |? ? ? ? ? ? HF Hlo Hh| | | | |]; subst.
    constructor; [by constructor | simpl; lia |].
    intros h ->. simpl. specialize (Hh (pred h) eq_refl).
    destruct h; [done | simpl in *; lia].
Qed.

Lemma m_sound r prev s k x :
  m r prev s k = Some x →
  ∃ M rest, s = M ++ rest ∧ matches r prev M rest ∧ k (after prev M) rest = Some x.
Proof.
  revert prev s k x. induction r as [|p|r1 IH1 r2 IH2|r1 IH1 r2 IH2|r1 IH1|p lo hi| | |w|p|r1 IH1];
    intros prev s k x H; simpl in H.
  - exists [], s. split_and!; [done | constructor | done].
  - destruct s as [|c s]; [done|]. destruct (p c) eqn:Hp; [|done].
    exists [c], s. split_and!; [done | by constructor | done].
  - apply IH1 in H as (M1 & s1 & -> & H1 & H). apply IH2 in H as (M2 & s2 & -> & H2 & H).
    exists (M1 ++ M2), s2. split_and!; [by rewrite app_assoc | by constructor |].
    by rewrite <- after_app.
  - destruct (m r1 prev s k) as [y|] eqn:E.
    + injection H as ->. apply IH1 in E as (M & s' & -> & H1 & H).
      exists M, s'. split_and!; [done | by apply mt_alt_l | done].
    + apply IH2 in H as (M & s' & -> & H1 & H).
      exists M, s'. split_and!; [done | by apply mt_alt_r | done].
  - destruct (m r1 prev s k) as [y|] eqn:E.
    + injection H as ->. apply IH1 in E as (M & s' & -> & H1 & H).
      exists M, s'. split_and!; [done | by apply mt_opt_some | done].
    + exists [], s. split_and!; [done | apply mt_opt_none | done].
  - by apply rep_m_sound.
  - destruct prev; [done|]. exists [], s. split_and!; [done | constructor | done].
  - case_bool_decide; [|done]. exists [], s. split_and!; [done | by constructor | done].
  - destruct (xorb _ _) eqn:E; [|done]. exists [], s. split_and!; [done | by constructor | done].
  - destruct (word_at p prev) eqn:E; [done|]. exists [], s. split_and!; [done | by constructor | done].
  - destruct (m r1 prev s _) eqn:E; [done|]. exists [], s. split_and!; [done | by constructor | done].
Qed.

Lemma rep_m_complete p lo hi prev M rest k x :
  Forall (λ c, p c = true) M → (lo ≤ length M)%nat →
  (∀ h, hi = Some h → (length M ≤ h)%nat) →
  k (after prev M) rest = Some x →
  is_Some (rep_m p lo hi prev (M ++ rest) k).
Proof.
  intros HF. revert lo hi prev. induction HF as [|c M Hc HF IH]; intros lo hi prev Hlo Hhi Hk.
  - simpl in *. assert (lo = 0%nat) as -> by lia. unfold after in Hk. simpl in Hk.
    destruct rest as [|c s]; simpl; [eauto|].
    destruct (p c && _); [|eauto]. destruct (rep_m _ _ _ _ _ _); eauto.
  - simpl. rewrite Hc. simpl.
    rewrite bool_decide_eq_false_2.
    2:{ intros ->. specialize (Hhi 0%nat eq_refl). simpl in Hhi. lia. }
    simpl. destruct (IH (pred lo) (pred <$> hi) (Some c)) as [y ->]; [simpl in Hlo; lia | | | eauto].
    + intros h Hh. destruct hi as [h'|]; [|done]. injection Hh as <-.
      specialize (Hhi h' eq_refl). simpl in Hhi. lia.
    + by rewrite (after_cons prev).
Qed.

Lemma m_complete r prev M rest :
  matches r prev M rest →
  ∀ k x, k (after prev M) rest = Some x → is_Some (m r prev (M ++ rest) k).
Proof.
  induction 1 as [prev rest|p c prev rest Hp|r1 r2 prev M1 M2 rest H1 IH1 H2 IH2
                 |r1 r2 prev M rest H1 IH1|r1 r2 prev M rest H1 IH1
                 |r prev M rest H1 IH1|r prev rest|p lo hi prev M rest HF Hlo Hhi
                 |rest|prev rest He|w prev rest Hw|p prev rest Hp|r prev rest Hn];
    intros k x Hk; simpl.
  - eauto.
  - rewrite Hp. eauto.
  - rewrite <- app_assoc.
    destruct (IH2 k x) as [y Hy]; [by rewrite after_app|].
    by apply (IH1 _ y).
  - destruct (IH1 k x Hk) as [y ->]. eauto.
  - destruct (m r1 prev (M ++ rest) k); [eauto|]. by apply (IH1 k x).
  - destruct (IH1 k x Hk) as [y ->]. eauto.
  - destruct (m r prev rest k); eauto.
  - by eapply rep_m_complete.
  - eauto.
  - rewrite bool_decide_eq_true_2 by done. eauto.
  - rewrite Hw. eauto.
  - rewrite Hp. eauto.
  - rewrite Hn. eauto.
Qed.

Lemma matches_context_free r prev M rest :
  context_free r = true → matches r prev M rest →
  ∀ prev' rest', matches r prev' M rest'.
Proof.
  intros Hc H. induction H; simpl in Hc; try done; intros prev' rest';
    try (apply andb_true_iff in Hc as [? ?]); try (by constructor; auto).
Qed.

Lemma matches_reads_only Q r prev M rest :
  reads_only Q r → matches r prev M rest → Forall Q M.
Proof.
  intros HQ H. induction H; simpl in HQ; try (by constructor); try (destruct HQ); auto.
  - apply Forall_app; auto.
  - eapply Forall_impl; [done|]. auto.
Qed.

Lemma matches_nonempty r prev M rest :
  consumes r = true → matches r prev M rest → M ≠ [].
Proof.
  intros Hc H. induction H; simpl in Hc; try done.
  - intros [? ?]%app_eq_nil. apply orb_true_iff in Hc as [?|?]; naive_solver.
  - apply andb_true_iff in Hc as [? ?]; auto.
  - apply andb_true_iff in Hc as [? ?]; auto.
  - apply bool_decide_eq_true in Hc. destruct M; [simpl in *; lia | done].
Qed.

Lemma match_here_sound r prev s rest :
  match_here r prev s = Some rest → ∃ M, s = M ++ rest ∧ matches r prev M rest.
Proof.
  intros H. apply m_sound in H as (M & rest' & -> & HM & [= ->]). eauto.
Qed.

Lemma match_here_complete r prev M rest :
  matches r prev M rest → is_Some (match_here r prev (M ++ rest)).
Proof. intros H. by apply (m_complete _ _ _ _ H _ rest). Qed.

Lemma search_from_true r prev s :
  search_from r prev s = true →
  ∃ a M b, s = a ++ M ++ b ∧ matches r (after prev a) M b.
Proof.
  revert prev. induction s as [|c s IH]; intros prev H; simpl in H.
  - apply orb_true_iff in H as [H|H]; [|done]. apply bool_decide_eq_true in H as [rest H].
    apply match_here_sound in H as (M & HM & H). exists [], M, rest. by split.
  - apply orb_true_iff in H as [H|H].
    + apply bool_decide_eq_true in H as [rest H].
      apply match_here_sound in H as (M & HM & H). exists [], M, rest. by split.
    + apply IH in H as (a & M & b & -> & H). exists (c :: a), M, b. split; [done|].
      by rewrite <- (after_cons prev).
Qed.

Section Sub.
Variables (r : regex) (repl : list N).

Lemma match_here_inv prev s rest :
  match_here r prev s = Some rest →
  ∃ M, s = M ++ rest ∧ (consumes r = true → M ≠ []).
Proof.
  intros (M & -> & HM)%match_here_sound. exists M. split; [done|].
  intros Hc. by apply (matches_nonempty r prev M rest).
Qed.

Lemma sub_from_skip prev M rest :
  sub_from r repl prev (M ++ rest) (length M) = sub_from r repl (after prev M) rest 0.
Proof.
  revert prev. induction M as [|c M IH]; intros prev; [done|].
  simpl. rewrite IH. by rewrite <- (after_cons prev).
Qed.

Lemma sub_from_no_match prev s :
  search_from r prev s = false → sub_from r repl prev s 0 = s.
Proof.
  revert prev. induction s as [|c s IH]; intros prev H; simpl in *.
  - apply orb_false_iff in H as [H _]. apply bool_decide_eq_false in H.
    destruct (match_here r prev []); [destruct H; eauto | done].
  - apply orb_false_iff in H as [H Hs]. apply bool_decide_eq_false in H.
    destruct (match_here r prev (c :: s)); [destruct H; eauto|]. by rewrite IH.
Qed.

Lemma re_sub_no_match s : re_search r s = false → re_sub r repl s = s.
Proof. apply sub_from_no_match. Qed.

Lemma sub_from_pass :
  consumes r = true →
  ∀ n s prev, (length s ≤ n)%nat → one_pass r repl prev s (sub_from r repl prev s 0).
Proof.
  intros Hc. induction n as [|n IH]; intros s prev Hn.
  - destruct s; [|simpl in Hn; lia]. simpl.
    destruct (match_here r prev []) as [rest|] eqn:E; [|by constructor].
    apply match_here_inv in E as (M & HM & Hne). symmetry in HM.
    apply app_eq_nil in HM as [-> _]. by destruct Hne.
  - destruct s as [|c s].
    { simpl. destruct (match_here r prev []) as [rest|] eqn:E; [|by constructor].
      apply match_here_inv in E as (M & HM & Hne). symmetry in HM.
      apply app_eq_nil in HM as [-> _]. by destruct Hne. }
    simpl in Hn. cbn [sub_from].
    destruct (match_here r prev (c :: s)) as [rest|] eqn:E.
    + destruct (match_here_inv _ _ _ E) as (M & HM & Hne). specialize (Hne Hc).
      destruct M as [|c' M]; [done|]. injection HM as <- ->.
      replace (length (c :: M ++ rest) - length rest)%nat with (S (length M))
        by (simpl; rewrite length_app; lia).
      rewrite sub_from_skip.
      destruct (exists_last (l := c :: M)) as (M0 & cl & HM0); [done|].
      assert (after (Some c) M = Some cl) as ->.
      { rewrite (after_cons prev), HM0. unfold after. by rewrite last_snoc. }
      apply (pass_replace _ _ _ _ M0 cl rest).
      * change (c :: M ++ rest) with ((c :: M) ++ rest). rewrite HM0.
        by rewrite <- app_assoc.
      * done.
      * apply IH. rewrite length_app in Hn. lia.
    + apply pass_keep; [done|]. apply IH. lia.
Qed.

Lemma re_sub_pass s : consumes r = true → one_pass r repl None s (re_sub r repl s).
Proof. intros Hc. by apply (sub_from_pass Hc (length s)). Qed.

Lemma one_pass_fun prev s o1 o2 :
  one_pass r repl prev s o1 → one_pass r repl prev s o2 → o1 = o2.
Proof.
  intros H1. revert o2. induction H1 as [prev E|prev c s out E H1 IH|prev s M c rest out Hs E H1 IH];
    intros o2 H2.
  - inversion H2; subst; [done|]. by destruct M.
  - inversion H2; subst; [f_equal; auto | congruence].
  - inversion H2 as [|? ? ? ? E' |? ? M' c' rest' out' Hs' E' H2']; subst.
    + by destruct M.
    + congruence.
    + rewrite E in E'. injection E' as <-.
      assert (M ++ [c] = M' ++ [c']) as Heq.
      { apply (app_inv_tail rest). by rewrite <- !app_assoc. }
      apply app_inj_tail in Heq as [-> ->]. f_equal. auto.
Qed.

End Sub.

Section Strip.
Context {U : UnicodeData}.

Lemma lstrip_head s c : head (lstrip s) = Some c → is_space c = false.
Proof.
  induction s as [|x s IH]; simpl; [done|].
  destruct (is_space x) eqn:E; [done|]. simpl. congruence.
Qed.

Lemma lstrip_id s : (∀ c, head s = Some c → is_space c = false) → lstrip s = s.
Proof. destruct s as [|x s]; simpl; [done|]. intros H. by rewrite (H x). Qed.

Lemma lstrip_suffix s : ∃ p, s = p ++ lstrip s.
Proof.
  induction s as [|x s [p IH]]; simpl; [by exists []|].
  destruct (is_space x); [exists (x :: p); simpl; congruence | by exists []].
Qed.

Lemma lstrip_last s c : last (lstrip s) = Some c → last s = Some c.
Proof.
  destruct (lstrip_suffix s) as [p Hp]. intros H. rewrite Hp, last_app. by rewrite H.
Qed.

Lemma head_rev (s : list N) : head (rev s) = last s.
Proof.
  induction s as [|x s IH] using rev_ind; [done|].
  by rewrite rev_app_distr, last_snoc.
Qed.

Lemma last_rev (s : list N) : last (rev s) = head s.
Proof. by rewrite <- head_rev, rev_involutive. Qed.

Lemma strip_trimmed s : trimmed (strip s).
Proof.
  unfold strip, rstrip. split; intros c.
  - rewrite <- last_rev, rev_involutive. intros H%lstrip_last.
    rewrite last_rev in H. by apply lstrip_head in H.
  - rewrite last_rev. apply lstrip_head.
Qed.

Lemma strip_id s : trimmed s → strip s = s.
Proof.
  intros [Hh Hl]. unfold strip, rstrip. rewrite (lstrip_id s Hh).
  rewrite lstrip_id; [apply rev_involutive|]. intros c. rewrite head_rev. apply Hl.
Qed.

Lemma rstrip_newlines_id s : trimmed s → rstrip_chars [13; 10] s = s.
Proof.
  intros [_ Hl]. unfold rstrip_chars.
  destruct (rev s) as [|c t] eqn:E; simpl.
  - by rewrite <- (rev_involutive s), E.
  - assert (is_space c = false) as Hc.
    { apply Hl. by rewrite <- head_rev, E. }
    case_bool_decide as Hin.
    + exfalso. apply elem_of_cons in Hin as [->|Hin]; [done|].
      apply elem_of_cons in Hin as [->|Hin]; [done|]. by apply elem_of_nil in Hin.
    + by rewrite <- E, rev_involutive.
Qed.

Lemma clean_line_trimmed s f : trimmed (clean_line s f).
Proof.
  assert (trimmed []) as Hnil by (split; intros c; discriminate).
  unfold clean_line. destruct (rstrip_chars _ _); [done|].
  repeat (match goal with |- trimmed (if ?b then _ else _) => destruct b end);
    auto using strip_trimmed.
Qed.

End Strip.

Section Passes.
Variable r : regex.

Lemma pass_prefix prev s out :
  one_pass r [32] prev s out →
  ∀ W b, out = W ++ b → Forall (λ c, c ≠ 32) W → ∃ b', s = W ++ b'.
Proof.
  induction 1 as [prev E|prev c s out E H IH|prev s M c rest out Hs E H IH]; intros W b HW HF.
  - symmetry in HW. apply app_eq_nil in HW as [-> ->]. by exists [].
  - destruct W as [|w W]; [by eexists|]. injection HW as <- HW.
    apply Forall_cons in HF as [_ HF]. destruct (IH W b HW HF) as [b' ->]. by exists b'.
  - destruct W as [|w W]; [by eexists|]. injection HW as <- HW.
    by apply Forall_cons in HF as [? _].
Qed.

Lemma pass_infix prev s out :
  one_pass r [32] prev s out →
  ∀ a W b, out = a ++ W ++ b → Forall (λ c, c ≠ 32) W → W ≠ [] →
  ∃ a' b', s = a' ++ W ++ b'.
Proof.
  induction 1 as [prev E|prev c s out E H IH|prev s M c rest out Hs E H IH];
    intros a W b HW HF Hne.
  - symmetry in HW. apply app_eq_nil in HW as [_ [? _]%app_eq_nil]. done.
  - destruct a as [|x a].
    + destruct (pass_prefix prev (c :: s) (c :: out) (pass_keep _ _ _ _ _ _ E H) W b HW HF)
        as [b' Hb]. by exists [], b'.
    + injection HW as <- HW. destruct (IH a W b HW HF Hne) as (a' & b' & ->).
      by exists (c :: a'), b'.
  - destruct a as [|x a].
    + destruct W as [|w W]; [done|]. injection HW as <- HW.
      by apply Forall_cons in HF as [? _].
    + injection HW as <- HW. destruct (IH a W b HW HF Hne) as (a' & b' & ->).
      exists (M ++ c :: a'), b'. rewrite Hs. by rewrite <- app_assoc.
Qed.

Lemma pass_chars prev s out :
  one_pass r [32] prev s out → ∀ x, x ∈ out → x ≠ 32 → x ∈ s.
Proof.
  induction 1 as [prev E|prev c s out E H IH|prev s M c rest out Hs E H IH]; intros x Hx Hne.
  - done.
  - apply elem_of_cons in Hx as [->|Hx]; [by left | right; auto].
  - apply elem_of_cons in Hx as [->|Hx]; [done|]. rewrite Hs.
    apply elem_of_app. right. right. auto.
Qed.

Lemma pass_head prev s c b :
  not_at_gt r → one_pass r [32] prev s (c :: b) → c ≠ 62 → 62 ∈ b →
  ∃ x t, s = x :: t ∧ x ≠ 62 ∧ 62 ∈ t.
Proof.
  intros Hr H Hc Hb. inversion H as [|? c' s' out' E H'|? ? M cl rest out' Hs E H']; subst.
  - exists c, s'. split_and!; [done | done |]. by apply (pass_chars _ _ _ H').
  - assert (62 ∈ rest) as Hin by (by apply (pass_chars _ _ _ H')).
    destruct M as [|x M]; simpl in *.
    + exists cl, rest. split_and!; [done | | done]. intros ->. by rewrite Hr in E.
    + exists x, (M ++ cl :: rest). split_and!; [done | |].
      * intros ->. by rewrite Hr in E.
      * apply elem_of_app. right. by right.
Qed.

Lemma has_tag_cons c s : has_tag s → has_tag (c :: s).
Proof. intros (a & x & b & -> & ? & ?). by exists (c :: a), x, b. Qed.

Lemma has_tag_app a s : has_tag s → has_tag (a ++ s).
Proof. induction a; simpl; auto using has_tag_cons. Qed.

Lemma has_tag_app_r s b : has_tag s → has_tag (s ++ b).
Proof.
  intros (a & x & t & -> & ? & ?). exists a, x, (t ++ b). split_and!; [|done|].
  - by rewrite <- app_assoc.
  - apply elem_of_app. by left.
Qed.

Lemma pass_keeps_no_tag prev s out :
  not_at_gt r → one_pass r [32] prev s out → has_tag out → has_tag s.
Proof.
  intros Hr. induction 1 as [prev E|prev c s out E H IH|prev s M c rest out Hs E H IH];
    intros (a & x & b & Hout & Hx & Hb).
  - by destruct a.
  - destruct a as [|y a].
    + injection Hout as -> ->.
      destruct (pass_head _ _ _ _ Hr H Hx Hb) as (y & t & -> & Hy & Ht).
      by exists [], y, t.
    + injection Hout as <- ->. apply has_tag_cons, IH. by exists a, x, b.
  - destruct a as [|y a]; [done|]. injection Hout as <- ->.
    rewrite Hs. apply has_tag_app, has_tag_cons, IH. by exists a, x, b.
Qed.

End Passes.

Section Patterns.
Context {U : UnicodeData}.

Lemma tag_match prev c b :
  c ≠ 62 → 62 ∈ b → is_Some (match_here HTML_TAG prev (60 :: c :: b)).
Proof.
  intros Hc Hb. apply list_elem_of_split_l in Hb as (b1 & b2 & -> & Hb1).
  assert (matches HTML_TAG prev ([60] ++ (c :: b1) ++ [62] ++ []) b2) as H.
  { unfold HTML_TAG, seqs. simpl foldr.
    apply mt_seq; [by constructor|].
    apply mt_seq; [|apply mt_seq; [by constructor | constructor]].
    constructor; [|simpl; lia | done].
    apply Forall_forall. intros x Hx. unfold none_of, one_of.
    apply negb_true_iff, bool_decide_eq_false. intros Hin.
    apply list_elem_of_singleton in Hin. change (ch ">") with 62 in Hin. subst x.
    apply elem_of_cons in Hx as [?|?]; done. }
  apply match_here_complete in H. simpl in H. by rewrite <- app_assoc in H.
Qed.

Lemma tag_shape prev M rest :
  matches HTML_TAG prev M rest → ∃ c b, M = 60 :: c :: b ∧ c ≠ 62 ∧ 62 ∈ b.
Proof.
  unfold HTML_TAG, seqs. simpl foldr. intros H.
  inversion H as [| |? ? ? M1 M2' ? H1 H2| | | | | | | | | |]; subst; clear H.
  inversion H1 as [|? c0 ? ? Hc0| | | | | | | | | | |]; subst; clear H1.
  inversion H2 as [| |? ? ? M2 M3' ? H3 H4| | | | | | | | | |]; subst; clear H2.
  inversion H3 as [| | | | | | |? ? ? ? ? ? HF Hlo Hhi| | | | |]; subst; clear H3.
  inversion H4 as [| |? ? ? M3 M4 ? H5 H6| | | | | | | | | |]; subst; clear H4.
  inversion H5 as [|? c1 ? ? Hc1| | | | | | | | | | |]; subst; clear H5.
  apply N.eqb_eq in Hc0, Hc1. change (ch "<") with 60 in Hc0. change (ch ">") with 62 in Hc1.
  subst. destruct M2 as [|c b]; [simpl in Hlo; lia|].
  exists c, (b ++ [62] ++ M4). split_and!; [done | |].
  - apply Forall_cons in HF as [Hc _]. unfold none_of, one_of in Hc.
    apply negb_true_iff, bool_decide_eq_false in Hc. intros ->. apply Hc.
    by apply list_elem_of_singleton.
  - apply elem_of_app. right. by left.
Qed.

Lemma cue_shape prev M rest :
  matches VTT_CUE_TAG prev M rest → ∃ c b, M = 60 :: c :: b ∧ c ≠ 62 ∧ 62 ∈ b.
Proof.
  unfold VTT_CUE_TAG, seqs. simpl foldr. intros H.
  inversion H as [| |? ? ? M1 N1 ? H1 H2| | | | | | | | | |]; subst; clear H.
  inversion H1 as [|? c0 ? ? Hc0| | | | | | | | | | |]; subst; clear H1.
  inversion H2 as [| |? ? ? M2 N2 ? H3 H4| | | | | | | | | |]; subst; clear H2.
  inversion H4 as [| |? ? ? M3 N3 ? H5 H6| | | | | | | | | |]; subst; clear H4.
  inversion H5 as [|? c1 ? ? Hc1| | | | | | | | | | |]; subst; clear H5.
  inversion H6 as [| |? ? ? M4 N4 ? H7 H8| | | | | | | | | |]; subst; clear H6.
  inversion H8 as [| |? ? ? M5 N5 ? H9 H10| | | | | | | | | |]; subst; clear H8.
  inversion H9 as [|? c2 ? ? Hc2| | | | | | | | | | |]; subst; clear H9.
  apply N.eqb_eq in Hc0, Hc2. change (ch "<") with 60 in Hc0. change (ch ">") with 62 in Hc2.
  subst.
  assert (c1 ≠ 62) as Hc1'.
  { intros ->. vm_compute in Hc1. done. }
  assert (62 ∈ M4 ++ [62] ++ N5) as Hin by (apply elem_of_app; right; by left).
  inversion H3 as [| | | | |? ? Mo ? Ho|? ? ?| | | | | |]; subst; clear H3.
  - inversion Ho as [|? c3 ? ? Hc3| | | | | | | | | | |]; subst; clear Ho.
    exists c3, ([c1] ++ M4 ++ [62] ++ N5). split_and!; [done | |].
    + intros ->. vm_compute in Hc3. done.
    + apply elem_of_app. by right.
  - exists c1, (M4 ++ [62] ++ N5). by split_and!.
Qed.

Lemma search_tag s : re_search HTML_TAG s = true → has_tag s.
Proof.
  intros (a & M & b & -> & H)%search_from_true.
  apply tag_shape in H as (c & t & -> & Hc & Ht).
  exists a, c, (t ++ b). split_and!; [done | done | apply elem_of_app; by left].
Qed.

Lemma search_cue s : re_search VTT_CUE_TAG s = true → has_tag s.
Proof.
  intros (a & M & b & -> & H)%search_from_true.
  apply cue_shape in H as (c & t & -> & Hc & Ht).
  exists a, c, (t ++ b). split_and!; [done | done | apply elem_of_app; by left].
Qed.

Lemma search_url s : re_search URL s = true → has_url s.
Proof.
  intros (a & M & b & -> & H)%search_from_true. exists a, M, b. split; [done|].
  by apply (matches_context_free URL _ _ _ eq_refl H).
Qed.

End Patterns.

Section Outputs.
Context {U : UnicodeData}.

Lemma not_at_gt_rules r : r ∈ HTML_TAG :: timestamp_rules → not_at_gt r.
Proof.
  intros Hr prev s. unfold timestamp_rules in Hr.
  repeat (apply elem_of_cons in Hr as [->|Hr]); [..|by apply elem_of_nil in Hr];
    unfold match_here; cbn; repeat (case_match; try done).
Qed.

Lemma url_reads_no_space : reads_only (λ c, c ≠ 32) URL.
Proof.
  unfold URL, seqs, lits_i, lits, lit_i, lit. simpl.
  repeat split; intros c Hc ->; vm_compute in Hc; done.
Qed.

Lemma has_url_nonempty a M b s :
  s = a ++ M ++ b → matches URL None M [] → M ≠ [] ∧ Forall (λ c, c ≠ 32) M.
Proof.
  intros _ H. split.
  - by apply (matches_nonempty URL _ _ _ eq_refl H).
  - by apply (matches_reads_only _ URL _ _ _ url_reads_no_space H).
Qed.

Lemma url_pass_clean prev s out : one_pass URL [32] prev s out → ¬ has_url out.
Proof.
  induction 1 as [prev E|prev c s out E H IH|prev s M c rest out Hs E H IH];
    intros (a & W & b & Hout & HW);
    destruct (has_url_nonempty _ _ _ _ Hout HW) as [Hne HF].
  - symmetry in Hout. by apply app_eq_nil in Hout as [_ [? _]%app_eq_nil].
  - destruct a as [|x a].
    + destruct (pass_prefix URL prev (c :: s) (c :: out) (pass_keep _ _ _ _ _ _ E H) W b Hout HF)
        as [b' Hb].
      pose proof (matches_context_free URL _ _ _ eq_refl HW prev b') as HW'.
      apply match_here_complete in HW' as [y Hy]. rewrite <- Hb in Hy. congruence.
    + injection Hout as <- ->. apply IH. by exists a, W, b.
  - destruct a as [|x a].
    + destruct W as [|w W]; [done|]. injection Hout as <- _.
      by apply Forall_cons in HF as [? _].
    + injection Hout as <- ->. apply IH. by exists a, W, b.
Qed.

Lemma pass_keeps_no_url r prev s out :
  one_pass r [32] prev s out → has_url out → has_url s.
Proof.
  intros H (a & W & b & Hout & HW).
  destruct (has_url_nonempty _ _ _ _ Hout HW) as [Hne HF].
  destruct (pass_infix r _ _ _ H a W b Hout HF Hne) as (a' & b' & ->).
  by exists a', W, b'.
Qed.

Lemma tag_pass_clean prev s out : one_pass HTML_TAG [32] prev s out → ¬ has_tag out.
Proof.
  assert (not_at_gt HTML_TAG) as Hr by (apply not_at_gt_rules; by left).
  induction 1 as [prev E|prev c s out E H IH|prev s M c rest out Hs E H IH];
    intros (a & x & b & Hout & Hx & Hb).
  - by destruct a.
  - destruct a as [|y a].
    + injection Hout as -> ->.
      destruct (pass_head _ _ _ _ _ Hr H Hx Hb) as (y & t & -> & Hy & Ht).
      destruct (tag_match prev y t Hy Ht) as [z Hz]. congruence.
    + injection Hout as <- ->. apply IH. by exists a, x, b.
  - destruct a as [|y a]; [done|]. injection Hout as <- ->. apply IH. by exists a, x, b.
Qed.

(** An anchored pattern matches at the start of the string only. *)
Lemma anchored_pass r repl c s out :
  one_pass (Seq Bol r) repl (Some c) s out → out = s.
Proof.
  remember (Some c) as prev eqn:Hp. intros H. revert c Hp.
  induction H as [prev E|prev c' s out E H IH|prev s M c' rest out Hs E H IH]; intros c0 ->.
  - done.
  - f_equal. by eapply IH.
  - done.
Qed.

Lemma anchored_sub_suffix r s :
  consumes r = true → ∃ M, s = M ++ re_sub (Seq Bol r) [] s.
Proof.
  intros Hc. pose proof (re_sub_pass (Seq Bol r) [] s Hc) as H.
  inversion H as [? E Hs Ho|? c s' out E H' Hs Ho|? ? M c rest out Hs E H' Hp Ho].
  - by exists [].
  - apply anchored_pass in H' as ->. by exists [].
  - apply anchored_pass in H' as ->. exists (M ++ [c]).
    match goal with H2 : [] ++ rest = _ |- _ => rewrite <- H2 end.
    subst. by rewrite <- app_assoc.
Qed.

Lemma strip_infix s : ∃ a b, s = a ++ strip s ++ b.
Proof.
  unfold strip, rstrip. destruct (lstrip_suffix s) as [a Ha].
  destruct (lstrip_suffix (rev (lstrip s))) as [b Hb].
  exists a, (rev b). rewrite <- rev_app_distr, <- Hb, rev_involutive. done.
Qed.

Lemma has_url_infix a s b : has_url s → has_url (a ++ s ++ b).
Proof.
  intros (a' & M & b' & -> & H). exists (a ++ a'), M, (b' ++ b). split; [|done].
  by rewrite <- !app_assoc.
Qed.

Lemma has_tag_infix a s b : has_tag s → has_tag (a ++ s ++ b).
Proof. intros H. by apply has_tag_app, has_tag_app_r. Qed.

Lemma timestamps_keep_no P s :
  (∀ r prev x out, r ∈ timestamp_rules → one_pass r [32] prev x out → P out → P x) →
  P (strip_timestamps_everywhere s) → P s.
Proof.
  intros HP H. unfold strip_timestamps_everywhere in H. unfold timestamp_rules in HP.
  repeat match type of H with
  | P (re_sub ?r _ ?x) =>
      apply (HP r None x _) in H;
        [| set_solver | by apply (re_sub_pass r (u " ") x)]
  end. done.
Qed.

Lemma generic_cleanup_no_url s : ¬ has_url (generic_cleanup s).
Proof.
  unfold generic_cleanup. intros H.
  destruct (anchored_sub_suffix
              (seqs [ws; times (none_of ":") 1 80; lit ":"; plus is_space])
              (strip_timestamps_everywhere (re_sub HTML_TAG (u " ") (re_sub URL (u " ") s)))
              eq_refl) as [M HM].
  change (Seq Bol _) with SPEAKER_PREFIX in HM.
  pose proof (has_url_infix M _ [] H) as H'. rewrite app_nil_r, <- HM in H'.
  clear H. rename H' into H.
  apply (timestamps_keep_no has_url) in H; [|intros r prev x out _; apply pass_keeps_no_url].
  apply (pass_keeps_no_url HTML_TAG None (re_sub URL (u " ") s)) in H;
    [|by apply (re_sub_pass HTML_TAG (u " "))].
  by apply (url_pass_clean None s _ (re_sub_pass URL (u " ") s eq_refl)).
Qed.

Lemma generic_cleanup_no_tag s : ¬ has_tag (generic_cleanup s).
Proof.
  unfold generic_cleanup. intros H.
  destruct (anchored_sub_suffix
              (seqs [ws; times (none_of ":") 1 80; lit ":"; plus is_space])
              (strip_timestamps_everywhere (re_sub HTML_TAG (u " ") (re_sub URL (u " ") s)))
              eq_refl) as [M HM].
  change (Seq Bol _) with SPEAKER_PREFIX in HM.
  pose proof (has_tag_app M _ H) as H'. rewrite <- HM in H'.
  clear H. rename H' into H.
  apply (timestamps_keep_no has_tag) in H.
  2:{ intros r prev x out Hr. apply pass_keeps_no_tag, not_at_gt_rules. by right. }
  by apply (tag_pass_clean None _ _
              (re_sub_pass HTML_TAG (u " ") (re_sub URL (u " ") s) eq_refl)).
Qed.

Lemma clean_line_shape s f : clean_line s f = [] ∨ ∃ x, clean_line s f = strip (generic_cleanup x).
Proof.
  unfold clean_line. destruct (rstrip_chars _ _); [by left|].
  repeat (match goal with |- context [if ?b then _ else _] => destruct b end); eauto.
Qed.

Lemma clean_line_no_url s f : re_search URL (clean_line s f) = false.
Proof.
  apply not_true_is_false. intros H%search_url.
  destruct (clean_line_shape s f) as [E|[x E]]; rewrite E in H.
  - destruct H as (a & M & b & Hs & HM). destruct (has_url_nonempty _ _ _ _ Hs HM) as [Hne _].
    symmetry in Hs. by apply app_eq_nil in Hs as [_ [? _]%app_eq_nil].
  - destruct (strip_infix (generic_cleanup x)) as (a & b & Hs).
    apply (generic_cleanup_no_url x). rewrite Hs. by apply has_url_infix.
Qed.

Lemma clean_line_no_tag s f : ¬ has_tag (clean_line s f).
Proof.
  intros H. destruct (clean_line_shape s f) as [E|[x E]]; rewrite E in H.
  - destruct H as (a & c & b & Hs & _). by destruct a.
  - destruct (strip_infix (generic_cleanup x)) as (a & b & Hs).
    apply (generic_cleanup_no_tag x). rewrite Hs. by apply has_tag_infix.
Qed.

End Outputs.

Section Rules.
Context {U : UnicodeData}.

Lemma rules_applied_fun rs s o1 o2 :
  rules_applied rs s o1 → rules_applied rs s o2 → o1 = o2.
Proof.
  intros H1. revert o2. induction H1 as [|r rs s s1 out Hp H1 IH]; intros o2 H2.
  - by inversion H2.
  - inversion H2 as [|? ? ? s1' ? Hp' H2']; subst.
    rewrite (one_pass_fun _ _ _ _ _ _ Hp Hp') in *. auto.
Qed.

Lemma strip_timestamps_no_match t :
  existsb (λ r, re_search r t) timestamp_rules = false →
  strip_timestamps_everywhere t = t.
Proof.
  unfold timestamp_rules. cbn [existsb]. rewrite !orb_false_iff.
  intros (H1 & H2 & H3 & H4 & H5 & _). unfold strip_timestamps_everywhere.
  rewrite (re_sub_no_match RANGE_VTT) by done.
  rewrite (re_sub_no_match STAMP_BRACKETED) by done.
  rewrite (re_sub_no_match STAMP_HMS_MS) by done.
  rewrite (re_sub_no_match STAMP_HMS) by done.
  by rewrite (re_sub_no_match STAMP_MS).
Qed.

Lemma clean_line_fixed f t :
  trimmed t → re_search URL t = false → ¬ has_tag t → fires f t = false →
  clean_line t f = t.
Proof.
  intros Ht Hurl Hnt. unfold fires. rewrite !orb_false_iff.
  intros (((Hf & Hts) & Hsp) & Hcue).
  assert (re_search HTML_TAG t = false) as Htag.
  { apply not_true_is_false. by intros ?%search_tag. }
  assert (re_search VTT_CUE_TAG t = false) as Hc.
  { apply not_true_is_false. by intros ?%search_cue. }
  unfold clean_line. rewrite (rstrip_newlines_id t Ht).
  destruct t as [|c t]; [done|]. set (s := c :: t) in *.
  assert (generic_cleanup s = s) as Hg.
  { unfold generic_cleanup. rewrite (re_sub_no_match URL) by done.
    rewrite (re_sub_no_match HTML_TAG) by done.
    rewrite strip_timestamps_no_match by done.
    by rewrite (re_sub_no_match SPEAKER_PREFIX). }
  destruct f.
  - rewrite Hf. rewrite (re_sub_no_match VTT_CUE_TAG) by done.
    rewrite Hg, Hcue. by apply strip_id.
  - rewrite Hf, Hg, Hcue. by apply strip_id.
  - rewrite Hg, Hcue. by apply strip_id.
Qed.

(** C1 (amended): cleaning a cleaned line again changes nothing, provided
    the cleaned line does not itself set off a rule: it is not the header
    or index line of its format, holds no time stamp, has no speaker prefix
    and is not within cue brackets. *)
Theorem clean_line_idempotent_when_settled s f :
  fires f (clean_line s f) = false →
  clean_line (clean_line s f) f = clean_line s f.
Proof.
  apply clean_line_fixed;
    [apply clean_line_trimmed | apply clean_line_no_url | apply clean_line_no_tag].
Qed.

End Rules.

Lemma utf8_ignore_total bs skip : ∃ t, utf8_decode_from Ignore bs skip = Ok t.
Proof.
  revert skip. induction bs as [|x bs IH]; intros skip; cbn [utf8_decode_from]; [eauto|].
  destruct skip as [|n]; [|apply IH].
  destruct (utf8_char (x :: bs)) as [[c width]|]; [|apply IH].
  destruct (IH (pred width)) as [t ->]. simpl. eauto.
Qed.

Lemma read_text_ignore_ok bs : ∃ t, read_text (Ok bs) Utf8 Ignore = Ok t.
Proof.
  unfold read_text, decode. simpl.
  destruct (utf8_ignore_total (map Byte.to_N bs) 0) as [t ->]. simpl. eauto.
Qed.

Section Reading.
Context {U : UnicodeData}.

(** C9: decoding as UTF-8 with [errors="ignore"] returns a string for every
    byte sequence; the first read of a file raises exactly when opening or
    reading it raised, with that exception, and only then does [parse_dir]
    take the latin-1 branch. *)
Theorem fallback_only_on_io_error :
  (∀ bs, ∃ t, decode Utf8 Ignore bs = Ok t) ∧
  (∀ fp,
     match e_read fp with
     | Ok bs => ∃ t, read_text (e_read fp) Utf8 Ignore = Ok t ∧ read_file fp = Ok t
     | Raise e =>
         read_text (e_read fp) Utf8 Ignore = Raise e ∧
         read_file fp = read_text (e_reread fp) Latin1 Ignore
     end).
Proof.
  split.
  - intros bs. apply utf8_ignore_total.
  - intros fp. unfold read_file. destruct (e_read fp) as [bs|e]; [|done].
    destruct (read_text_ignore_ok bs) as [t Ht]. rewrite Ht. eauto.
Qed.

End Reading.

(** ** Lines on which no pattern can match *)

Lemma matches_needs Q r prev M rest :
  needs Q r → matches r prev M rest → Exists Q M.
Proof.
  intros HQ H. induction H; simpl in HQ; try done.
  - apply Exists_cons_hd. auto.
  - apply Exists_app. destruct HQ; [left | right]; auto.
  - destruct HQ. auto.
  - destruct HQ. auto.
  - destruct HQ as [Hlo HQ]. destruct M as [|c M]; [simpl in *; lia|].
    apply Exists_cons_hd, HQ. by apply Forall_cons in H as [? _].
Qed.

Lemma search_needs Q r prev s :
  needs Q r → Forall (λ c, ¬ Q c) s → search_from r prev s = false.
Proof.
  intros HQ HF. apply not_true_is_false. intros (a & M & b & -> & HM)%search_from_true.
  apply (matches_needs Q) in HM; [|done].
  apply Forall_app in HF as [_ [HF _]%Forall_app].
  apply Exists_exists in HM as (c & Hc & HQc). rewrite Forall_forall in HF. by apply (HF c).
Qed.

Lemma re_match_needs Q r s :
  needs Q r → Forall (λ c, ¬ Q c) s → re_match r s = false.
Proof.
  intros HQ HF. pose proof (search_needs Q r None s HQ HF) as H.
  destruct s; simpl in H; apply orb_false_iff in H as [H _]; exact H.
Qed.

(** Finds in a pattern the part that makes a needed character certain. *)
Ltac find_needed tac :=
  lazymatch goal with
  | |- _ ∧ _ => split; find_needed tac
  | |- _ ∨ _ => first [left; find_needed tac | right; find_needed tac]
  | |- needs _ _ => progress (cbn -[N.eqb]); find_needed tac
  | |- _ => solve [done | tac]
  end.

Section NeededCharacters.
Context {U : UnicodeData}.

Lemma needs_special r :
  r ∈ [URL; HTML_TAG; VTT_CUE_TAG; SPEAKER_PREFIX] ++ timestamp_rules → needs special r.
Proof.
  intros Hr. unfold timestamp_rules in Hr. simpl in Hr.
  repeat (apply elem_of_cons in Hr as [->|Hr]); [..|by apply elem_of_nil in Hr];
    find_needed ltac:(intros c Hc%N.eqb_eq; subst c; unfold special; set_solver).
Qed.

Lemma generic_cleanup_plain s :
  Forall (λ c, ¬ special c) s → generic_cleanup s = s.
Proof.
  intros HF.
  assert (∀ r, r ∈ [URL; HTML_TAG; VTT_CUE_TAG; SPEAKER_PREFIX] ++ timestamp_rules →
            re_search r s = false) as Hno.
  { intros r Hr. apply (search_needs special); [by apply needs_special | done]. }
  unfold generic_cleanup.
  rewrite (re_sub_no_match URL) by (apply Hno; set_solver).
  rewrite (re_sub_no_match HTML_TAG) by (apply Hno; set_solver).
  rewrite strip_timestamps_no_match.
  - apply re_sub_no_match, Hno. set_solver.
  - unfold timestamp_rules in *. cbn [existsb]. rewrite !orb_false_iff.
    split_and!; try done; apply Hno; set_solver.
Qed.

End NeededCharacters.

Section PlainLines.
Context {U : UnicodeData}.

Lemma lstrip_all_space s : Forall (λ c, is_space c = true) s → lstrip s = [].
Proof. induction 1 as [|c s Hc _ IH]; simpl; [done|]. by rewrite Hc. Qed.

Lemma lstrip_app_space s t :
  Forall (λ c, is_space c = true) t →
  lstrip (s ++ t) = match lstrip s with [] => [] | x => x ++ t end.
Proof.
  intros Ht. induction s as [|c s IH]; simpl.
  - by apply lstrip_all_space.
  - destruct (is_space c); [apply IH | done].
Qed.

Lemma lstrip_space_app t s :
  Forall (λ c, is_space c = true) t → lstrip (t ++ s) = lstrip s.
Proof. induction 1 as [|c t Hc _ IH]; simpl; [done|]. by rewrite Hc. Qed.

Lemma strip_app_space s t :
  Forall (λ c, is_space c = true) t → strip (s ++ t) = strip s.
Proof.
  intros Ht. unfold strip, rstrip. rewrite lstrip_app_space by done.
  destruct (lstrip s) as [|x l] eqn:E; [done|].
  rewrite rev_app_distr. rewrite lstrip_space_app; [done|].
  by apply Forall_rev.
Qed.

Lemma strip_all_space s : Forall (λ c, is_space c = true) s → strip s = [].
Proof. intros H. unfold strip. by rewrite lstrip_all_space. Qed.

Lemma lstrip_chars_split chars s :
  ∃ t, s = t ++ lstrip_chars chars s ∧ Forall (λ c, c ∈ chars) t.
Proof.
  induction s as [|c s (t & IH & Ht)]; simpl; [by exists []|].
  case_bool_decide.
  - exists (c :: t). split; [simpl; congruence | by constructor].
  - by exists [].
Qed.

Lemma rstrip_chars_split chars s :
  ∃ t, s = rstrip_chars chars s ++ t ∧ Forall (λ c, c ∈ chars) t.
Proof.
  unfold rstrip_chars. destruct (lstrip_chars_split chars (rev s)) as (t & Ht & HF).
  exists (rev t). split; [|by apply Forall_rev].
  rewrite <- rev_app_distr, <- Ht. by rewrite rev_involutive.
Qed.

Lemma newlines_are_space t : Forall (λ c, c ∈ [13; 10]) t → Forall (λ c, is_space c = true) t.
Proof.
  intros H. eapply Forall_impl; [exact H|]. intros c Hc.
  repeat (apply elem_of_cons in Hc as [->|Hc]); [done | done | by apply elem_of_nil in Hc].
Qed.

Lemma strip_rstrip_newlines s : strip (rstrip_chars [13; 10] s) = strip s.
Proof.
  destruct (rstrip_chars_split [13; 10] s) as (t & Hs & Ht).
  rewrite Hs at 2. symmetry. by apply strip_app_space, newlines_are_space.
Qed.

Lemma clean_line_unfold s f :
  clean_line s f =
    let s0 := rstrip_chars [13; 10] s in
    if bool_decide (s0 = []) then []
    else if match f with vtt => re_match WEBVTT_HEADER s0 | _ => false end then []
    else
      let s1 := match f with vtt => re_sub VTT_CUE_TAG (u " ") s0 | _ => s0 end in
      if match f with srt => re_match LINE_NUMBER_SRT s1 | _ => false end then []
      else if is_cue (generic_cleanup s1) then [] else strip (generic_cleanup s1).
Proof.
  unfold clean_line. cbv zeta. destruct (rstrip_chars [13; 10] s) eqn:E; [done|].
  rewrite bool_decide_eq_false_2 by done. done.
Qed.

(** X1: a line that holds no colon, no [<] and no full stop sets off none
    of the removals: after its line ends are taken off it is dropped if it
    is the header line or index line of its format or is wrapped in
    brackets, and otherwise it is returned trimmed and unchanged inside. *)
Theorem clean_line_plain s f :
  Forall (λ c, c ∉ [58; 60; 46]) s →
  clean_line s f =
    let s0 := rstrip_chars [13; 10] s in
    if format_line f s0 || is_cue s0 then [] else strip s.
Proof.
  intros HF. rewrite clean_line_unfold. cbv zeta.
  destruct (rstrip_chars_split [13; 10] s) as (t & Hs & Ht).
  set (s0 := rstrip_chars [13; 10] s) in *.
  assert (Forall (λ c, ¬ special c) s0) as HF0.
  { rewrite Hs in HF. by apply Forall_app in HF as [? _]. }
  case_bool_decide as E.
  - rewrite E. simpl.
    assert (format_line f [] = false) as ->.
    { destruct f; [| |done]; apply (re_match_needs (λ _, True)); try done;
        find_needed ltac:(done). }
    simpl. rewrite Hs, E. simpl. symmetry. by apply strip_all_space, newlines_are_space.
  - assert (re_sub VTT_CUE_TAG (u " ") s0 = s0) as Hcue.
    { apply re_sub_no_match, (search_needs special); [|done]. apply needs_special. set_solver. }
    rewrite generic_cleanup_plain by (destruct f; by rewrite ?Hcue).
    rewrite <- (strip_rstrip_newlines s). fold s0.
    destruct f; simpl; rewrite ?Hcue; repeat case_match; simpl in *; congruence.
Qed.

(** X2: a line of white space only (the empty line too) is cleaned to the
    empty string, in every format. *)
Theorem clean_line_blank s f :
  Forall (λ c, is_space c = true) s → clean_line s f = [].
Proof.
  intros HF. rewrite clean_line_unfold. cbv zeta.
  destruct (rstrip_chars_split [13; 10] s) as (t & Hs & Ht).
  set (s0 := rstrip_chars [13; 10] s) in *.
  assert (Forall (λ c, is_space c = true) s0) as HF0.
  { rewrite Hs in HF. by apply Forall_app in HF as [? _]. }
  assert (Forall (λ c, ¬ special c) s0) as Hsp.
  { eapply Forall_impl; [done|]. intros c Hc Hs'. unfold special in Hs'.
    repeat (apply elem_of_cons in Hs' as [->|Hs']); try done. by apply elem_of_nil in Hs'. }
  assert (re_sub VTT_CUE_TAG (u " ") s0 = s0) as Hcue.
  { apply re_sub_no_match, (search_needs special); [|done]. apply needs_special. set_solver. }
  assert (strip (generic_cleanup s0) = []) as Hg.
  { rewrite generic_cleanup_plain by done. by apply strip_all_space. }
  destruct f; rewrite ?Hcue, ?Hg; repeat case_match; done.
Qed.

End PlainLines.

Section IndexLines.
Context {U : UnicodeData}.

Lemma rstrip_chars_keep chars s c :
  c ∉ chars → rstrip_chars chars (s ++ [c]) = s ++ [c].
Proof.
  intros Hc. unfold rstrip_chars. rewrite rev_app_distr. simpl.
  rewrite bool_decide_eq_false_2 by done. by rewrite <- (rev_involutive s) at 2.
Qed.

Lemma rstrip_chars_app chars s t c :
  c ∉ chars → ∃ t', rstrip_chars chars (s ++ c :: t) = s ++ c :: t' ∧ t' `prefix_of` t.
Proof.
  intros Hc. destruct (rstrip_chars_split chars t) as (x & Ht & Hx).
  exists (rstrip_chars chars t). split; [|by exists x].
  unfold rstrip_chars. rewrite rev_app_distr. simpl. rewrite <- app_assoc. simpl.
  destruct (lstrip_chars_split chars (rev t)) as (y & Hy & HFy).
  assert (lstrip_chars chars (rev t ++ c :: rev s) =
          lstrip_chars chars (rev t) ++ c :: rev s) as ->.
  { generalize (rev t). intros l. induction l as [|a l IH]; simpl.
    - by rewrite bool_decide_eq_false_2.
    - case_bool_decide; [apply IH | done]. }
  rewrite rev_app_distr. simpl. rewrite rev_involutive. by rewrite <- app_assoc.
Qed.

Lemma decimal_not_newline c : is_decimal c = true → c ∉ [13; 10].
Proof.
  intros Hc Hin. repeat (apply elem_of_cons in Hin as [->|Hin]); [done | done |].
  by apply elem_of_nil in Hin.
Qed.

(** X3: in a subtitle file a line of decimal digits, with any white space
    before and after them, is an index line and is cleaned to the empty
    string. *)
Theorem clean_line_srt_index a d b :
  Forall (λ c, is_space c = true) a →
  Forall (λ c, is_decimal c = true) d → d ≠ [] →
  Forall (λ c, is_space c = true) b →
  clean_line (a ++ d ++ b) srt = [].
Proof.
  intros Ha Hd Hne Hb. rewrite clean_line_unfold. cbv zeta.
  destruct (exists_last (l := d) Hne) as (d0 & c & ->).
  assert (c ∉ [13; 10]) as Hc.
  { apply decimal_not_newline. by apply Forall_app in Hd as [_ [? _]%Forall_cons]. }
  replace (a ++ (d0 ++ [c]) ++ b) with ((a ++ d0) ++ c :: b)
    by (by rewrite <- !app_assoc).
  destruct (rstrip_chars_app [13; 10] (a ++ d0) b c Hc) as (b' & -> & [x Hx]).
  rewrite bool_decide_eq_false_2 by (by destruct (a ++ d0)).
  assert (re_match LINE_NUMBER_SRT ((a ++ d0) ++ c :: b') = true) as ->; [|done].
  apply bool_decide_eq_true.
  assert (Forall (λ c, is_space c = true) b') as Hb'.
  { rewrite Hx in Hb. by apply Forall_app in Hb as [? _]. }
  assert (matches LINE_NUMBER_SRT None ([] ++ a ++ (d0 ++ [c]) ++ b' ++ [] ++ []) []) as H.
  { unfold LINE_NUMBER_SRT, seqs. simpl foldr.
    apply (mt_seq Bol _ None [] _ []); [constructor|].
    apply (mt_seq _ _ _ a _ []); [constructor; [done | simpl; lia | done]|].
    apply (mt_seq _ _ _ (d0 ++ [c]) _ []);
      [constructor; [done | rewrite length_app; simpl; lia | done]|].
    apply (mt_seq _ _ _ b' _ []); [constructor; [done | simpl; lia | done]|].
    apply (mt_seq _ _ _ [] [] []); [constructor; by left | constructor]. }
  apply match_here_complete in H. rewrite !app_nil_r in H. simpl in H.
  by rewrite <- !app_assoc in *.
Qed.

End IndexLines.

(** ** What cleaning keeps *)

Lemma reduces_refl s : reduces s s.
Proof. split; [done | auto]. Qed.

Lemma reduces_trans s1 s2 s3 : reduces s1 s2 → reduces s2 s3 → reduces s1 s3.
Proof.
  intros [L1 C1] [L2 C2]. split; [lia|]. intros c Hc.
  destruct (C2 c Hc) as [?|Hc2]; [by left | by apply C1].
Qed.

Lemma reduces_infix a s b : reduces (a ++ s ++ b) s.
Proof.
  split; [rewrite !length_app; lia|]. intros c Hc. right.
  apply elem_of_app. right. apply elem_of_app. by left.
Qed.

Lemma pass_reduces r repl prev s out :
  repl = [] ∨ repl = [32] → one_pass r repl prev s out → reduces s out.
Proof.
  intros Hr. induction 1 as [prev E|prev c s out E H [L C]|prev s M c rest out Hs E H [L C]].
  - apply reduces_refl.
  - split; [simpl; lia|]. intros x [->|Hx]%elem_of_cons; [right; by left|].
    destruct (C x Hx); [by left | right; by right].
  - subst s. split.
    + rewrite !length_app. simpl. destruct Hr as [-> | ->]; simpl; lia.
    + intros x [Hx|Hx]%elem_of_app.
      * destruct Hr as [-> | ->]; [by apply elem_of_nil in Hx|].
        apply list_elem_of_singleton in Hx. by left.
      * destruct (C x Hx); [by left|]. right. apply elem_of_app. right. by right.
Qed.

Section Reducing.
Context {U : UnicodeData}.

Lemma re_sub_reduces r repl s :
  consumes r = true → repl = [] ∨ repl = [32] → reduces s (re_sub r repl s).
Proof. intros Hc Hr. eapply pass_reduces; [done|]. by apply re_sub_pass. Qed.

Lemma strip_reduces s : reduces s (strip s).
Proof.
  destruct (strip_infix s) as (a & b & Hs). rewrite Hs at 1. apply reduces_infix.
Qed.

(** X4: cleaning never adds text: the cleaned line is no longer than the
    line, and each of its characters is a character of the line or a
    space. *)
Theorem clean_line_reduces s f : reduces s (clean_line s f).
Proof.
  assert (reduces s []) as Hnil.
  { split; [simpl; lia|]. by intros c ?%elem_of_nil. }
  assert (∀ x, reduces x (generic_cleanup x)) as Hg.
  { intros x. unfold generic_cleanup, strip_timestamps_everywhere.
    repeat (eapply reduces_trans; [|apply re_sub_reduces; [done | auto]]).
    apply reduces_refl. }
  rewrite clean_line_unfold. cbv zeta.
  destruct (rstrip_chars_split [13; 10] s) as (t & Hs & _).
  set (s0 := rstrip_chars [13; 10] s) in *.
  assert (reduces s s0) as Hs0.
  { rewrite Hs at 1. apply (reduces_infix [] s0 t). }
  destruct f;
    repeat (match goal with |- reduces _ (if ?b then _ else _) => destruct b; [exact Hnil|] end);
    (eapply reduces_trans; [exact Hs0|]);
    (eapply reduces_trans; [|apply strip_reduces]);
    [|apply Hg..].
  eapply reduces_trans; [|apply Hg]. apply re_sub_reduces; [done | auto].
Qed.

(** X5: whatever the line, the cleaned line neither starts nor ends with
    white space, and no tag, cue tag or URL pattern matches in it. *)
Theorem clean_line_clean s f :
  let t := clean_line s f in
  (∀ c, head t = Some c ∨ last t = Some c → is_space c = false) ∧
  re_search HTML_TAG t = false ∧ re_search VTT_CUE_TAG t = false ∧
  re_search URL t = false.
Proof.
  cbv zeta. split_and!.
  - destruct (clean_line_trimmed s f) as [Hh Hl]. intros c [?|?]; auto.
  - apply not_true_is_false. intros H%search_tag. by apply (clean_line_no_tag s f).
  - apply not_true_is_false. intros H%search_cue. by apply (clean_line_no_tag s f).
  - apply clean_line_no_url.
Qed.

End Reducing.

(** ** Tokens as fields *)

Ltac nbool H :=
  repeat (unfold token_char, ascii_letter, ascii_upper_letter, ascii_lower_letter,
            ascii_digit, ascii_space, in_range, is_ascii in H;
          rewrite ?orb_true_iff, ?andb_true_iff, ?orb_false_iff, ?andb_false_iff,
            ?N.leb_le, ?N.eqb_eq, ?N.ltb_lt, ?N.leb_gt, ?N.eqb_neq, ?N.ltb_ge in H).

Section Fields.
Context {U : UnicodeData}.

Lemma token_char_ascii c : token_char c = true → is_ascii c = true.
Proof. intros H. nbool H. unfold is_ascii. apply N.ltb_lt. lia. Qed.

Lemma token_char_not_space c : token_char c = true → is_space c = false.
Proof.
  intros H. unfold is_space. rewrite (token_char_ascii c H).
  apply not_true_is_false. intros Hs. nbool H. nbool Hs. lia.
Qed.

Lemma fields_from_sep_run sep cur M s :
  Forall (λ c, sep c = true) M → M ≠ [] →
  fields_from sep cur (M ++ s) =
    match cur with [] => [] | _ => [rev cur] end ++ fields_from sep [] s.
Proof.
  intros HF Hne. destruct HF as [|c M Hc HF]; [done|]. clear Hne. simpl. rewrite Hc.
  assert (fields_from sep [] (M ++ s) = fields_from sep [] s) as ->.
  { induction HF as [|x M Hx _ IH]; simpl; [done|]. by rewrite Hx. }
  by destruct cur.
Qed.

Lemma split_squashed prev s out cur :
  one_pass NON_ALNUM_APOST [32] prev s out →
  split_from cur out = fields_from (λ c, negb (token_char c)) cur s.
Proof.
  intros H. revert cur.
  induction H as [prev E|prev c s out E H IH|prev s M c rest out Hs E H IH]; intros cur.
  - done.
  - assert (token_char c = true) as Hc.
    { destruct (token_char c) eqn:Hc; [done|]. exfalso.
      assert (matches NON_ALNUM_APOST prev [c] s) as Hm.
      { constructor; [|simpl; lia | done]. constructor; [|done]. simpl.
        fold (token_char c). by rewrite Hc. }
      apply match_here_complete in Hm as [y Hy]. simpl in Hy. congruence. }
    simpl. rewrite (token_char_not_space c Hc), Hc. simpl. apply IH.
  - apply match_here_sound in E as (M' & HM' & Hm).
    assert (M' = M ++ [c]) as ->.
    { apply (app_inv_tail rest). rewrite <- HM', Hs. by rewrite <- app_assoc. }
    inversion Hm as [| | | | | | |? ? ? ? ? ? HF Hlo Hhi| | | | |]; subst.
    replace (M ++ c :: rest) with ((M ++ [c]) ++ rest) by (by rewrite <- app_assoc).
    rewrite fields_from_sep_run; [|done | by destruct M].
    simpl. rewrite IH. by destruct cur.
Qed.

Lemma split_sub_raw_tokens text :
  split (re_sub NON_ALNUM_APOST (u " ") text) = raw_tokens text.
Proof.
  apply (split_squashed None). by apply (re_sub_pass NON_ALNUM_APOST (u " ")).
Qed.

End Fields.

Section Tokens.
Context {U : UnicodeData}.

Lemma replace_drop c s : replace c [] s = filter (λ x, x ≠ c) s.
Proof.
  unfold replace. induction s as [|x s IH]; [done|]. simpl. rewrite filter_cons.
  destruct (N.eqb_spec x c); case_decide; simpl; try done; by f_equal.
Qed.

Lemma replace_absent c new s : c ∉ s → replace c new s = s.
Proof.
  unfold replace. induction s as [|x s IH]; [done|]. intros Hc. simpl.
  destruct (N.eqb_spec x c); [subst; set_solver|]. simpl. f_equal. apply IH. set_solver.
Qed.

Lemma apost_edges_reads : reads_only (λ c, c = 39) APOST_EDGES.
Proof.
  unfold APOST_EDGES, seqs, plus. simpl.
  repeat split; intros c Hc; unfold one_of in Hc; apply bool_decide_eq_true in Hc;
    by apply list_elem_of_singleton in Hc.
Qed.

Lemma apost_pass_filter prev s out :
  one_pass APOST_EDGES [] prev s out →
  filter (λ x, x ≠ 39) out = filter (λ x, x ≠ 39) s.
Proof.
  induction 1 as [prev E|prev c s out E H IH|prev s M c rest out Hs E H IH].
  - done.
  - rewrite !filter_cons. case_decide; by rewrite IH.
  - apply match_here_sound in E as (M' & HM' & Hm).
    assert (M' = M ++ [c]) as ->.
    { apply (app_inv_tail rest). rewrite <- HM', Hs. by rewrite <- app_assoc. }
    apply (matches_reads_only _ _ _ _ _ apost_edges_reads) in Hm.
    subst s. replace (M ++ c :: rest) with ((M ++ [c]) ++ rest) by (by rewrite <- app_assoc).
    assert (∀ l : list N, Forall (λ x, x = 39) l → filter (λ x, x ≠ 39) l = []) as Hall.
    { induction 1 as [|x l Hx _ IHl]; [done|]. rewrite filter_cons.
      rewrite decide_False by (intros Hn; by apply Hn). exact IHl. }
    pose proof (Hall _ Hm) as Hnil.
    simpl. rewrite (filter_app _ (M ++ [c]) rest), Hnil. simpl. apply IH.
Qed.

Lemma clean_token_finish keep raw :
  8217 ∉ raw → clean_token keep raw = finish_token keep raw.
Proof.
  intros Hraw. unfold clean_token, finish_token. cbv zeta.
  pose proof (re_sub_pass APOST_EDGES [] raw eq_refl) as Hp.
  assert (8217 ∉ re_sub APOST_EDGES [] raw) as Hout.
  { intros Hin. destruct (pass_reduces _ _ _ _ _ (or_introl eq_refl) Hp) as [_ Hc].
    destruct (Hc _ Hin); done. }
  rewrite (replace_absent 8217) by done.
  change (ch "'") with 39. rewrite replace_drop, (apost_pass_filter _ _ _ Hp). done.
Qed.

Lemma fields_from_chars sep cur s w :
  w ∈ fields_from sep cur s → Forall (λ c, sep c = false) cur →
  w ≠ [] ∧ Forall (λ c, sep c = false) w.
Proof.
  revert cur. induction s as [|c s IH]; intros cur Hw Hcur; simpl in Hw.
  - destruct cur as [|x cur]; [by apply elem_of_nil in Hw|].
    apply list_elem_of_singleton in Hw as ->. split.
    + intros E. apply (f_equal length) in E. rewrite length_rev in E. done.
    + by apply Forall_rev.
  - destruct (sep c) eqn:Hc.
    + destruct cur as [|x cur]; [by apply (IH [])|].
      apply elem_of_cons in Hw as [->|Hw]; [|by apply (IH [])]. split.
      * intros E. apply (f_equal length) in E. rewrite length_rev in E. done.
      * by apply Forall_rev.
    + apply (IH (c :: cur)); [done | by constructor].
Qed.

Lemma raw_token_chars text w :
  w ∈ raw_tokens text → w ≠ [] ∧ Forall (λ c, token_char c = true) w.
Proof.
  intros Hw. destruct (fields_from_chars _ _ _ _ Hw) as [Hne HF]; [done|].
  split; [done|]. eapply Forall_impl; [exact HF|]. intros c Hc. by apply negb_false_iff.
Qed.

Lemma omap_ext_in {A B} (f g : A → option B) (l : list A) :
  (∀ x, x ∈ l → f x = g x) → omap f l = omap g l.
Proof.
  induction l as [|x l IH]; intros H; [done|]. csimpl.
  rewrite (H x) by (by left). rewrite IH; [done|]. intros y Hy. apply H. by right.
Qed.

(** [tokenize] without patterns. *)
Lemma tokenize_fields text keep :
  tokenize text keep = omap (finish_token keep) (raw_tokens text).
Proof.
  unfold tokenize. cbv zeta. rewrite split_sub_raw_tokens.
  apply omap_ext_in. intros w Hw. apply clean_token_finish.
  destruct (raw_token_chars text w Hw) as [_ HF]. intros Hin.
  rewrite Forall_forall in HF. by specialize (HF _ Hin).
Qed.

(** X6: [tokenize] cuts the text at every character that is not an ASCII
    letter, digit, apostrophe or hyphen, takes the apostrophes out of each
    piece, and leaves out the pieces that are then empty and, unless
    numbers are kept, the numbers. *)
Theorem tokenize_field_split text keep :
  tokenize text keep = omap (finish_token keep) (raw_tokens text).
Proof. apply tokenize_fields. Qed.

Lemma fields_from_app sep cur a c b :
  sep c = true →
  fields_from sep cur (a ++ c :: b) = fields_from sep cur a ++ fields_from sep [] b.
Proof.
  intros Hc. revert cur. induction a as [|x a IH]; intros cur; simpl.
  - rewrite Hc. by destruct cur.
  - destruct (sep x); [|apply IH]. destruct cur; by rewrite IH.
Qed.

(** The tokens of two texts joined by a space are the tokens of the one
    followed by the tokens of the other. *)
Lemma tokenize_app text1 text2 keep :
  tokenize (text1 ++ u " " ++ text2) keep = tokenize text1 keep ++ tokenize text2 keep.
Proof.
  rewrite !tokenize_fields. unfold raw_tokens.
  change (u " " ++ text2) with (32 :: text2).
  rewrite fields_from_app by done. apply omap_app.
Qed.

(** X7: the tokens of lines joined by single spaces are the tokens of the
    first line, then those of the second, and so on: no token reaches over
    the end of a line. *)
Theorem tokenize_join lines keep :
  tokenize (join (u " ") lines) keep = concat (map (λ l, tokenize l keep) lines).
Proof.
  induction lines as [|l lines IH]; [done|].
  destruct lines as [|l' lines].
  - simpl. by rewrite app_nil_r.
  - change (join (u " ") (l :: l' :: lines)) with (l ++ u " " ++ join (u " ") (l' :: lines)).
    rewrite tokenize_app, IH. done.
Qed.

Lemma forallb_false_Exists {A} (f : A → bool) (l : list A) :
  forallb f l = false → Exists (λ x, f x = false) l.
Proof.
  induction l as [|x l IH]; simpl; [done|]. intros [H|H]%andb_false_iff.
  - by apply Exists_cons_hd.
  - by apply Exists_cons_tl, IH.
Qed.

(** The shape of a token. *)
Lemma token_shape text keep t :
  t ∈ tokenize text keep →
  t ≠ [] ∧
  Forall (λ c, ascii_letter c || ascii_digit c || (c =? 45) = true) t ∧
  (keep = false → isdigit t = false ∧ Exists (λ c, ascii_digit c = false) t).
Proof.
  rewrite tokenize_fields. intros (w & Hw & Hf)%list_elem_of_omap.
  destruct (raw_token_chars text w Hw) as [_ HF].
  unfold finish_token in Hf. cbv zeta in Hf.
  set (tok := filter (λ c, c ≠ 39) w) in *.
  assert (Forall (λ c, ascii_letter c || ascii_digit c || (c =? 45) = true) tok) as Htok.
  { apply Forall_forall. intros c [Hc Hin]%list_elem_of_filter.
    rewrite Forall_forall in HF. specialize (HF c Hin). unfold token_char in HF.
    destruct (N.eqb_spec c 39); [done|]. by rewrite orb_false_r in HF. }
  destruct (negb keep && isdigit tok) eqn:Hd; [done|].
  destruct tok as [|c tok'] eqn:Etok; [done|]. injection Hf as <-.
  split_and!; [done | done |]. intros ->. simpl in Hd. split; [done|].
  clear -Hd Htok. unfold isdigit in Hd.
  change (forallb is_digit (c :: tok') = false) in Hd. apply forallb_false_Exists in Hd.
  eapply Exists_impl; [exact Hd|]. intros x Hx. simpl in Hx.
  destruct (ascii_digit x) eqn:E; [|done]. exfalso.
  revert Hx. unfold is_digit. assert (is_ascii x = true) as ->; [|by rewrite E].
  unfold ascii_digit, in_range in E. unfold is_ascii.
  apply andb_true_iff in E as [_ E%N.leb_le]. apply N.ltb_lt. lia.
Qed.

(** X8: a token is not empty and holds ASCII letters, digits and hyphens
    only; unless numbers are kept no token is made of digits alone. *)
Theorem tokenize_alphabet text keep t :
  t ∈ tokenize text keep →
  t ≠ [] ∧
  Forall (λ c, ascii_letter c || ascii_digit c || (c =? 45) = true) t ∧
  (keep = false → isdigit t = false ∧ Exists (λ c, ascii_digit c = false) t).
Proof. apply token_shape. Qed.

End Tokens.

(** ** The tables in closed form *)

Section Tables.
Context {U : UnicodeData}.

Lemma lookup_bump t g x n :
  bump t g x !! n =
    if decide (x = n) then (λ c, update c (make_ngrams t n)) <$> g !! n else g !! n.
Proof. unfold bump. rewrite lookup_alter. by case_decide; subst. Qed.

Lemma lookup_bumps t ns g n :
  foldl (bump t) g ns !! n = (λ c, update c (file_ngrams ns n t)) <$> g !! n.
Proof.
  unfold file_ngrams, times_requested. revert g. induction ns as [|x ns IH]; intros g; simpl.
  - by destruct (g !! n).
  - rewrite IH, lookup_bump, filter_cons. case_decide as E.
    + subst x. destruct (g !! n) as [c|]; simpl; [|done]. by rewrite update_app.
    + done.
Qed.

Lemma lookup_ngrams_after ns g toks n :
  ngrams_after ns g toks !! n =
    (λ c, update c (concat (map (file_ngrams ns n) toks))) <$> g !! n.
Proof.
  revert g. induction toks as [|t toks IH]; intros g; simpl.
  - by destruct (g !! n).
  - rewrite IH, lookup_bumps. destruct (g !! n) as [c|]; simpl; [|done].
    by rewrite update_app.
Qed.

Lemma lookup_init (ns : list Z) (n : Z) :
  foldl (λ mp x, <[x := ∅]> mp) (∅ : gmap Z (gmap (list N) nat)) ns !! n =
    if decide (n ∈ ns) then Some ∅ else None.
Proof.
  assert (∀ g0 : gmap Z (gmap (list N) nat),
            foldl (λ mp x, <[x := ∅]> mp) g0 ns !! n =
              if decide (n ∈ ns) then Some ∅ else g0 !! n) as H.
  { induction ns as [|x ns IH]; intros g0; cbn [foldl].
    - case_decide as E; [by apply elem_of_nil in E | done].
    - rewrite IH. destruct (decide (n ∈ ns)) as [Hin|Hin].
      + case_decide as E; [done|]. destruct E. by right.
      + rewrite lookup_insert. destruct (decide (x = n)) as [->|Hx].
        * case_decide as E; [done|]. destruct E. by left.
        * case_decide as E; [|done]. apply elem_of_cons in E as [?|?]; congruence. }
  rewrite H. by rewrite lookup_empty.
Qed.

(** The tables of a run in closed form. *)
Lemma parse_dir_tables root sn a wc ng :
  parse_dir root sn a = Ok (wc, ng) →
  ∃ stop toks,
    load_stopwords (a_stopwords a) sn = Ok stop ∧
    Forall2 (λ fp t, tokens_of a stop fp = Ok t) (iter_files root) toks ∧
    wc = update ∅ (concat toks) ∧
    ∀ n, ng !! n =
      if decide (n ∈ a_ngrams a)
      then Some (update ∅ (concat (map (file_ngrams (a_ngrams a) n) toks)))
      else None.
Proof.
  intros H. destruct (parse_dir_inv _ _ _ _ _ H) as (stop & toks & Hs & HF & -> & ->).
  exists stop, toks. split_and!; [done..|]. intros n.
  rewrite lookup_ngrams_after, lookup_init. by case_decide.
Qed.

Lemma parse_dir_returns root sn a stop toks :
  load_stopwords (a_stopwords a) sn = Ok stop →
  Forall2 (λ fp t, tokens_of a stop fp = Ok t) (iter_files root) toks →
  ∃ ng, parse_dir root sn a = Ok (update ∅ (concat toks), ng).
Proof.
  intros Hs HF. unfold parse_dir. rewrite Hs. simpl.
  rewrite (parse_files_ok _ _ _ _ _ _ (has_orders_init _) HF). eauto.
Qed.

End Tables.

Section Orders.
Context {U : UnicodeData}.

Lemma make_ngrams_one tokens : make_ngrams tokens 1 = tokens.
Proof.
  destruct tokens as [|t0 tokens0] eqn:E; [done|]. rewrite <- E.
  assert (1 ≤ length tokens)%nat as Hlen by (subst; simpl; lia).
  rewrite make_ngrams_windows by lia. clear E.
  apply list_eq. intros i. rewrite list_lookup_fmap.
  destruct (decide (i < length tokens)%nat) as [Hi|Hi].
  - rewrite (proj2 (lookup_seq 0 _ i i)) by lia. simpl.
    destruct (lookup_lt_is_Some_2 tokens i Hi) as [x Hx]. rewrite Hx.
    rewrite (drop_S _ x _ Hx). change (Z.to_nat 1) with 1%nat. simpl. by rewrite ?take_0.
  - rewrite (lookup_ge_None_2 tokens) by lia.
    destruct (seq 0 _ !! i) as [j|] eqn:Ej; [|done].
    apply lookup_seq in Ej. lia.
Qed.

Lemma count_update_empty l p : count (update ∅ l) p = occurrences p l.
Proof. rewrite count_update. unfold count. by rewrite lookup_empty. Qed.

Lemma occurrences_app p l1 l2 : occurrences p (l1 ++ l2) = (occurrences p l1 + occurrences p l2)%nat.
Proof. unfold occurrences. by rewrite filter_app, length_app. Qed.

Lemma occurrences_concat p ls :
  occurrences p (concat ls) = sum_list (map (occurrences p) ls).
Proof. induction ls as [|l ls IH]; [done|]. simpl. by rewrite occurrences_app, IH. Qed.

Lemma occurrences_replicate p k l :
  occurrences p (mjoin (replicate k l)) = (k * occurrences p l)%nat.
Proof. induction k as [|k IH]; [done|]. simpl. rewrite occurrences_app, IH. lia. Qed.

(** X9: in a run that returns, an order that was not requested has no
    table, and in the table of a requested order the count of a phrase is
    the number of its windows in the filtered tokens of each file, summed
    over the files and multiplied by the number of times the order stands
    in the list of requested orders. *)
Theorem ngram_table_counts root sn a wc ng :
  parse_dir root sn a = Ok (wc, ng) →
  ∃ stop toks,
    load_stopwords (a_stopwords a) sn = Ok stop ∧
    Forall2 (λ fp t, tokens_of a stop fp = Ok t) (iter_files root) toks ∧
    ∀ n,
      (n ∉ a_ngrams a → ng !! n = None) ∧
      (n ∈ a_ngrams a → ∃ c, ng !! n = Some c ∧
         ∀ p, count c p =
           (times_requested n (a_ngrams a) *
            sum_list (map (λ t, occurrences p (make_ngrams t n)) toks))%nat).
Proof.
  intros H. destruct (parse_dir_tables _ _ _ _ _ H) as (stop & toks & Hs & HF & _ & Hng).
  exists stop, toks. split_and!; [done..|]. intros n. rewrite Hng. split; intros Hn.
  - by rewrite decide_False.
  - rewrite decide_True by done. eexists. split; [done|]. intros p.
    rewrite count_update_empty, occurrences_concat, map_map.
    induction toks as [|t toks IH] in |- *; simpl; [lia|].
    unfold file_ngrams at 1. rewrite occurrences_replicate, IH. lia.
Qed.

(** X10: if the order 1 is requested once, its table is equal to the
    unigram table. *)
Theorem order_one_is_unigrams root sn a wc ng :
  times_requested 1 (a_ngrams a) = 1%nat →
  parse_dir root sn a = Ok (wc, ng) → ng !! 1%Z = Some wc.
Proof.
  intros H1 H. destruct (parse_dir_tables _ _ _ _ _ H) as (stop & toks & Hs & HF & -> & Hng).
  rewrite Hng. rewrite decide_True.
  - do 2 f_equal. f_equal. clear -H1. induction toks as [|t toks IH]; [done|]. simpl. rewrite IH.
    f_equal. unfold file_ngrams. rewrite H1. simpl. by rewrite app_nil_r, make_ngrams_one.
  - unfold times_requested in H1.
    destruct (filter (λ x, x = 1%Z) (a_ngrams a)) as [|x l] eqn:E; [done|].
    assert (x ∈ filter (λ x, x = 1%Z) (a_ngrams a)) as Hx by (rewrite E; by left).
    by apply list_elem_of_filter in Hx as [-> ?].
Qed.

(** X11: a run over the same files in another order returns the same
    unigram table and the same n-gram tables. *)
Theorem parse_dir_order_independent root root' sn a wc ng :
  root' ≡ₚ root →
  parse_dir root sn a = Ok (wc, ng) → parse_dir root' sn a = Ok (wc, ng).
Proof.
  intros HP H.
  destruct (parse_dir_tables _ _ _ _ _ H) as (stop & toks & Hs & HF & Hwc & Hng).
  assert (iter_files root' ≡ₚ iter_files root) as HP' by (unfold iter_files; by rewrite HP).
  destruct (Forall2_Ok_Permutation _ _ _ _ HF HP') as (toks' & HPt & HF').
  destruct (parse_dir_returns root' sn a stop toks' Hs HF') as [ng' H'].
  rewrite H'. f_equal. f_equal.
  - subst wc. apply update_Permutation. by apply concat_Permutation.
  - apply map_eq. intros n.
    destruct (parse_dir_tables _ _ _ _ _ H') as (stop2 & toks2 & Hs2 & HF2 & _ & Hng2).
    assert (toks2 = toks') as ->.
    { rewrite Hs in Hs2. injection Hs2 as <-. clear -HF' HF2.
      revert toks2 HF2. induction HF' as [|fp t l ts Ht _ IH]; intros toks2 HF2.
      - by apply Forall2_nil_inv_l in HF2.
      - apply Forall2_cons_inv_l in HF2 as (t2 & ts2 & Ht2 & HF2 & ->).
        f_equal; [congruence | by apply IH]. }
    rewrite Hng, Hng2. case_decide; [|done]. f_equal.
    apply update_Permutation, concat_Permutation. by apply fmap_Permutation.
Qed.

End Orders.

(** ** The unigram program, the stopwords and the reading *)

Section WordClouds.
Context {U : UnicodeData}.

Lemma count_words_update a stop counts tokens :
  count_words a stop counts tokens =
    update counts (filter (λ t, (a_minlen a ≤ Z.of_nat (length t))%Z ∧ t ∉ stop) tokens).
Proof.
  unfold count_words. revert counts. induction tokens as [|t tokens IH]; intros counts; [done|].
  simpl. rewrite IH, filter_cons. case_bool_decide as E.
  - rewrite decide_False; [done|]. intros [? ?]. destruct E; [lia | done].
  - rewrite decide_True; [done|]. split; [lia | tauto].
Qed.

Lemma wc_parse_files_agree a stop files w0 g0 :
  has_orders (a_ngrams a) g0 →
  wc_parse_files a stop files w0 =
    match parse_files a stop files (w0, g0) with
    | Ok (w, _) => Ok w
    | Raise e => Raise e
    end.
Proof.
  revert w0 g0. induction files as [|fp files IH]; intros w0 g0 Hg; [done|].
  simpl. destruct (read_file fp) as [text|e]; simpl; [|done].
  rewrite count_ngrams_ok by done. simpl.
  rewrite count_words_update. apply IH. by apply has_orders_bumps.
Qed.

(** X12: on the same files, stopword file and options the unigram program
    returns the unigram table of the n-gram program, and it raises the
    same exception when that one raises. *)
Theorem word_clouds_agrees root sn a :
  wc_parse_dir root sn a =
    match parse_dir root sn a with
    | Ok (word_counts, _) => Ok word_counts
    | Raise e => Raise e
    end.
Proof.
  unfold wc_parse_dir, parse_dir. destruct (load_stopwords _ _) as [stop|e]; simpl; [|done].
  apply wc_parse_files_agree, has_orders_init.
Qed.

(** X13: when files are added to a corpus no count goes down, in the
    unigram table and in the table of every order. *)
Theorem counts_grow root more sn a wc ng wc' ng' :
  parse_dir root sn a = Ok (wc, ng) →
  parse_dir (root ++ more) sn a = Ok (wc', ng') →
  ∀ p, (count wc p ≤ count wc' p)%nat ∧
       ∀ n c, ng !! n = Some c → ∃ c', ng' !! n = Some c' ∧ (count c p ≤ count c' p)%nat.
Proof.
  intros H H' p.
  destruct (parse_dir_tables _ _ _ _ _ H) as (stop & toks & Hs & HF & -> & Hng).
  destruct (parse_dir_tables _ _ _ _ _ H') as (stop' & toks' & Hs' & HF' & -> & Hng').
  rewrite Hs in Hs'. injection Hs' as <-.
  unfold iter_files in HF, HF'. rewrite filter_app in HF'.
  apply Forall2_app_inv_l in HF' as (t1 & t2 & HF1 & HF2 & ->).
  assert (t1 = toks) as ->.
  { clear -HF HF1. revert t1 HF1. induction HF as [|fp t l ts Ht _ IH]; intros t1 HF1.
    - by apply Forall2_nil_inv_l in HF1.
    - apply Forall2_cons_inv_l in HF1 as (x & xs & Hx & HF1 & ->).
      f_equal; [congruence | by apply IH]. }
  split.
  - rewrite !count_update_empty, concat_app, occurrences_app. lia.
  - intros n c. rewrite Hng, Hng'. case_decide; [|done]. intros [= <-].
    eexists. split; [done|].
    rewrite !count_update_empty, map_app, concat_app, occurrences_app. lia.
Qed.

End WordClouds.

Section Stopwords.
Context {U : UnicodeData}.

(** X14: the stopwords returned hold every default stopword; they are the
    defaults alone when no path is given, when the path is empty or when
    it does not name a file; any other stopword is a non-blank line of the
    file, trimmed and in lower case. *)
Theorem load_stopwords_spec path node sw :
  load_stopwords path node = Ok sw →
  (∀ w, w ∈ DEFAULT_STOPWORDS → w ∈ sw) ∧
  ((path = None ∨ path = Some [] ∨ e_is_file node = false) →
     sw = list_to_set DEFAULT_STOPWORDS) ∧
  ∀ w, w ∈ sw → w ∉ DEFAULT_STOPWORDS →
    ∃ text ln, read_text (e_read node) Utf8 Strict = Ok text ∧
               ln ∈ splitlines text ∧ strip ln ≠ [] ∧ w = lower (strip ln).
Proof.
  unfold load_stopwords. cbv zeta. generalize DEFAULT_STOPWORDS. intros D H.
  assert (∀ sw0 : gset (list N), sw0 = list_to_set D →
            (∀ w, w ∈ D → w ∈ sw0) ∧ (∀ w, w ∈ sw0 → w ∉ D → False)) as Hdef.
  { intros sw0 ->. split; intros w; rewrite elem_of_list_to_set; tauto. }
  destruct path as [[|c path]|].
  { injection H as <-. destruct (Hdef _ eq_refl) as [? Hx]. split_and!; [done..|].
    intros w Hw Hn. destruct (Hx w Hw Hn). }
  2:{ injection H as <-. destruct (Hdef _ eq_refl) as [? Hx]. split_and!; [done..|].
    intros w Hw Hn. destruct (Hx w Hw Hn). }
  destruct (e_is_file node) eqn:Ef.
  2:{ injection H as <-. destruct (Hdef _ eq_refl) as [? Hx]. split_and!; [done..|].
    intros w Hw Hn. destruct (Hx w Hw Hn). }
  destruct (read_text (e_read node) Utf8 Strict) as [text|e] eqn:Et; simpl in H; [|done].
  injection H as <-. split_and!.
  - intros w Hw. apply elem_of_union_l. by apply elem_of_list_to_set.
  - intros [?|[?|?]]; done.
  - intros w [Hw|Hw]%elem_of_union Hnd; [by apply elem_of_list_to_set in Hw|].
    apply elem_of_list_to_set, list_elem_of_fmap in Hw as (ln & -> & Hln).
    apply list_elem_of_filter in Hln as [Hne Hln]. by exists text, ln.
Qed.

(** X15: a stopword file whose bytes are not valid UTF-8 ends the run with
    the decoding error, whatever the corpus: the stopword file is decoded
    strictly and nothing handles the exception. *)
Theorem invalid_stopword_file_aborts root node a c path bs e :
  a_stopwords a = Some (c :: path) → e_is_file node = true →
  e_read node = Ok bs → decode Utf8 Strict bs = Raise e →
  parse_dir root node a = Raise e.
Proof.
  intros Hp Hf Hr Hd. unfold parse_dir, load_stopwords, read_text.
  rewrite Hp, Hf, Hr. simpl in Hd |- *. by rewrite Hd.
Qed.

End Stopwords.

Lemma utf8_strict_ignore bs skip t :
  utf8_decode_from Strict bs skip = Ok t → utf8_decode_from Ignore bs skip = Ok t.
Proof.
  revert skip t. induction bs as [|x bs IH]; intros skip t; cbn [utf8_decode_from]; [done|].
  destruct skip as [|n]; [|apply IH].
  destruct (utf8_char (x :: bs)) as [[c width]|]; [|done].
  destruct (utf8_decode_from Strict bs (pred width)) as [t'|] eqn:E; simpl; [|done].
  intros [= <-]. by rewrite (IH _ _ E).
Qed.

Lemma utf8_ascii h bs :
  Forall (λ x, x < 128) bs → utf8_decode_from h bs 0 = Ok bs.
Proof.
  induction 1 as [|x bs Hx _ IH]; [done|]. cbn [utf8_decode_from utf8_char].
  rewrite (proj2 (N.ltb_lt _ _) Hx). simpl. by rewrite IH.
Qed.

Section ReadFile.
Context {U : UnicodeData}.

(** X16: a file whose bytes are valid UTF-8 is read as exactly the text
    they encode (with the line ends translated), the handler [ignore]
    dropping nothing; if the bytes are ASCII the reading as latin-1 gives
    the same text. *)
Theorem read_file_valid_utf8 fp bs t :
  e_read fp = Ok bs → decode Utf8 Strict bs = Ok t →
  read_file fp = Ok (universal_newlines t) ∧
  (Forall (λ x, Byte.to_N x < 128) bs →
     read_text (Ok bs) Latin1 Ignore = Ok (universal_newlines t)).
Proof.
  intros Hr Hd. unfold read_file, read_text. rewrite Hr.
  cbn [mbind result_bind decode] in *.
  rewrite (utf8_strict_ignore _ _ _ Hd). split; [done|].
  intros HF. rewrite utf8_ascii in Hd by (by apply Forall_fmap).
  by injection Hd as <-.
Qed.

End ReadFile.

(** ** The writer *)

Lemma insert_by_count_perm x l : insert_by_count x l ≡ₚ x :: l.
Proof.
  induction l as [|y l IH]; simpl; [done|].
  case_match; [|done]. rewrite IH. apply Permutation_swap.
Qed.

Lemma sorted_by_count_perm items : sorted_by_count items ≡ₚ items.
Proof.
  induction items as [|x items IH]; simpl; [done|].
  by rewrite insert_by_count_perm, IH.
Qed.

Lemma insert_by_count_sorted x l :
  StronglySorted by_count l → StronglySorted by_count (insert_by_count x l).
Proof.
  induction 1 as [|y l Hl IH Hy]; simpl; [repeat constructor|].
  destruct (x.2 <? y.2)%nat eqn:E.
  - apply Nat.ltb_lt in E. constructor; [done|].
    rewrite insert_by_count_perm. constructor; [unfold by_count; lia | done].
  - apply Nat.ltb_ge in E. constructor; [by constructor|].
    constructor; [done|]. eapply Forall_impl; [exact Hy|].
    unfold by_count. intros z ?. lia.
Qed.

Lemma sorted_by_count_sorted items : StronglySorted by_count (sorted_by_count items).
Proof.
  induction items as [|x items IH]; simpl; [constructor|].
  by apply insert_by_count_sorted.
Qed.

Lemma insert_by_count_stable k x l :
  filter (λ r : row, r.2 = k) (insert_by_count x l) = filter (λ r : row, r.2 = k) (x :: l).
Proof.
  induction l as [|y l IH]; simpl; [done|].
  destruct (x.2 <? y.2)%nat eqn:E; [|done].
  apply Nat.ltb_lt in E. rewrite !filter_cons in *. rewrite IH.
  repeat case_decide; try done; lia.
Qed.

Lemma sorted_by_count_stable k items :
  filter (λ r : row, r.2 = k) (sorted_by_count items) = filter (λ r : row, r.2 = k) items.
Proof.
  induction items as [|x items IH]; simpl; [done|].
  by rewrite insert_by_count_stable, !filter_cons, IH.
Qed.

(** X17: with [--top 0], or a [--top] of at least the size of the table,
    the rows written are all the items of the counter, by descending
    count, items of the same count in the order they have in the counter. *)
Theorem write_csv_all items top :
  top = 0%Z ∨ (Z.of_nat (length items) ≤ top)%Z →
  ∃ rows, write_csv items (top_arg top) = ([u "phrase"; u "count"], rows) ∧
    rows ≡ₚ items ∧ StronglySorted by_count rows ∧
    ∀ k, filter (λ r : row, r.2 = k) rows = filter (λ r : row, r.2 = k) items.
Proof.
  intros H. unfold write_csv, top_arg, most_common.
  assert (length (sorted_by_count items) = length items) as Hlen
    by (by rewrite sorted_by_count_perm).
  destruct (top =? 0)%Z eqn:E; simpl.
  - eexists. split; [done|].
    split_and!; [apply sorted_by_count_perm | apply sorted_by_count_sorted
                | intros; apply sorted_by_count_stable].
  - rewrite E. simpl. apply Z.eqb_neq in E. destruct H as [?|H]; [done|].
    rewrite take_ge by lia. eexists. split; [done|].
    split_and!; [apply sorted_by_count_perm | apply sorted_by_count_sorted
                | intros; apply sorted_by_count_stable].
Qed.

(** X18: with another [--top] the rows written are the first [top] rows of
    that order (all if there are fewer), and none at all when [top] is
    negative: the file then holds the header only. *)
Theorem write_csv_top items top :
  top ≠ 0%Z →
  ∃ rows rest, write_csv items (top_arg top) = ([u "phrase"; u "count"], rows) ∧
    length rows = (Z.to_nat top `min` length items)%nat ∧
    rows ++ rest ≡ₚ items ∧ StronglySorted by_count (rows ++ rest) ∧
    (∀ k, filter (λ r : row, r.2 = k) (rows ++ rest) = filter (λ r : row, r.2 = k) items) ∧
    ((top < 0)%Z → rows = []).
Proof.
  intros H. unfold write_csv, top_arg, most_common.
  apply Z.eqb_neq in H. rewrite H. simpl. rewrite H. simpl.
  exists (take (Z.to_nat top) (sorted_by_count items)),
         (drop (Z.to_nat top) (sorted_by_count items)).
  rewrite take_drop. split_and!.
  - done.
  - rewrite length_take. by rewrite sorted_by_count_perm.
  - apply sorted_by_count_perm.
  - apply sorted_by_count_sorted.
  - intros; apply sorted_by_count_stable.
  - intros Hn. replace (Z.to_nat top) with 0%nat by lia. done.
Qed.

(** ** The minimum length and the keys of the tables *)

Section Minlen.
Context {U : UnicodeData}.

Lemma file_tokens_minlen a stop f text m :
  (m ≤ 1)%Z →
  file_tokens (with_minlen m a) stop f text = file_tokens (with_minlen 1 a) stop f text.
Proof.
  intros Hm. unfold file_tokens. cbv zeta. simpl.
  match goal with |- context [tokenize ?x ?k] => pose proof (tokenize_nonempty x k) as Hne;
    generalize dependent (tokenize x k) end.
  intros l Hne. induction Hne as [|t l Ht _ IH]; [done|].
  rewrite !filter_cons, IH.
  assert ((1 ≤ Z.of_nat (length t))%Z) by (destruct t; [done | simpl; lia]).
  destruct (decide (t ∉ stop)).
  - rewrite !decide_True; [done | split; [lia | done] | split; [lia | done]].
  - rewrite !decide_False; [done | by intros [_ ?] | by intros [_ ?]].
Qed.

(** X19: every minimum length of 1 or less, 0 and the negative ones too,
    gives the result of the minimum length 1. *)
Theorem minlen_below_two root sn a m :
  (m ≤ 1)%Z →
  parse_dir root sn (with_minlen m a) = parse_dir root sn (with_minlen 1 a).
Proof.
  intros Hm. unfold parse_dir. simpl.
  destruct (load_stopwords (a_stopwords a) sn) as [stop|e]; simpl; [|done].
  generalize (∅ : gmap (list N) nat,
              foldl (λ (mp : gmap Z (gmap (list N) nat)) n, <[n := ∅]> mp) ∅ (a_ngrams a)).
  induction (iter_files root) as [|fp files IH]; intros st; [done|].
  simpl. destruct (read_file fp) as [text|e]; simpl; [|done].
  rewrite file_tokens_minlen by done.
  destruct (count_ngrams _ _ _); simpl; [apply IH | done].
Qed.

End Minlen.

Section Keys.
Context {U : UnicodeData}.

Lemma update_lookup_Some l k v :
  update ∅ l !! k = Some v → k ∈ l ∧ (0 < v)%nat.
Proof.
  intros H. assert (k ∈ l) as Hin.
  { destruct (decide (k ∈ l)) as [|Hn]; [done|].
    rewrite (update_no_key ∅ l k) in H; [done | apply lookup_empty | done]. }
  split; [done|].
  pose proof (count_update_empty l k) as Hc. unfold count in Hc. rewrite H in Hc. simpl in Hc.
  rewrite Hc. unfold occurrences.
  apply list_elem_of_split in Hin as (l1 & l2 & ->).
  rewrite filter_app, filter_cons, decide_True by done. rewrite length_app. simpl. lia.
Qed.

Lemma update_lookup_elem l k : k ∈ l → is_Some (update ∅ l !! k).
Proof.
  intros Hin. pose proof (count_update_empty l k) as Hc.
  assert (0 < occurrences k l)%nat as Hpos.
  { unfold occurrences. apply list_elem_of_split in Hin as (l1 & l2 & ->).
    rewrite filter_app, filter_cons, decide_True by done. rewrite length_app. simpl. lia. }
  rewrite <- Hc in Hpos. destruct (count_pos_lookup _ _ Hpos) as (v & -> & _). eauto.
Qed.

Lemma elem_of_concat {A} (x : A) (ls : list (list A)) :
  x ∈ concat ls ↔ ∃ l, x ∈ l ∧ l ∈ ls.
Proof.
  induction ls as [|l ls IH]; simpl.
  - split; [by intros ?%elem_of_nil | by intros (l & _ & ?%elem_of_nil)].
  - rewrite elem_of_app, IH. split.
    + intros [?|(l' & ? & ?)]; [exists l; split; [done | by left]|].
      exists l'. split; [done | by right].
    + intros (l' & Hx & [->|?]%elem_of_cons); [by left | right; eauto].
Qed.

Lemma tokens_of_elem a stop fp t k :
  tokens_of a stop fp = Ok t → k ∈ t →
  ∃ text, read_file fp = Ok text ∧ k ∈ file_tokens a stop (guess_fmt (e_suffix fp)) text.
Proof.
  unfold tokens_of. destruct (read_file fp) as [text|e]; simpl; [|done].
  intros [= <-] Hk. eauto.
Qed.

Lemma Forall2_elem_r {A B} (P : A → B → Prop) l k y :
  Forall2 P l k → y ∈ k → ∃ x, x ∈ l ∧ P x y.
Proof.
  induction 1 as [|x y' l k Hxy _ IH]; intros Hin; [by apply elem_of_nil in Hin|].
  apply elem_of_cons in Hin as [->|Hin].
  - exists x. split; [by left | done].
  - destruct (IH Hin) as (x' & ? & ?). exists x'. split; [by right | done].
Qed.

(** X20: in a run that returns, every key of the unigram table has a
    positive count, is not a stopword, has at least the minimum length, is
    not empty, holds ASCII letters, digits and hyphens only, and unless
    numbers are kept is not made of digits alone. *)
Theorem unigram_keys root sn a wc ng :
  parse_dir root sn a = Ok (wc, ng) →
  ∃ stop, load_stopwords (a_stopwords a) sn = Ok stop ∧
    ∀ k v, wc !! k = Some v →
      (0 < v)%nat ∧ (k ∉ stop) ∧ (a_minlen a ≤ Z.of_nat (length k))%Z ∧ k ≠ [] ∧
      Forall (λ c, ascii_letter c || ascii_digit c || (c =? 45) = true) k ∧
      (a_keep_numbers a = false → isdigit k = false).
Proof.
  intros H. destruct (parse_dir_tables _ _ _ _ _ H) as (stop & toks & Hs & HF & -> & _).
  exists stop. split; [done|]. intros k v [Hin Hv]%update_lookup_Some.
  split; [done|].
  apply elem_of_concat in Hin as (t & Hk & Ht).
  destruct (Forall2_elem_r _ _ _ _ HF Ht) as (fp & _ & Hfp).
  destruct (tokens_of_elem _ _ _ _ _ Hfp Hk) as (text & _ & Hft).
  unfold file_tokens in Hft. cbv zeta in Hft.
  apply list_elem_of_filter in Hft as [[Hlen Hstop] Htok].
  destruct (token_shape _ _ _ Htok) as (Hne & Hal & Hnum).
  split_and!; try done. intros Hk0. by destruct (Hnum Hk0).
Qed.

(** X21: in a run that returns, every key of the table of an order n of
    at least 1 is n words joined by single spaces, each of them a key of
    the unigram table. *)
Theorem ngram_keys root sn a wc ng n c p v :
  parse_dir root sn a = Ok (wc, ng) → (1 ≤ n)%Z →
  ng !! n = Some c → c !! p = Some v →
  ∃ ws, Z.of_nat (length ws) = n ∧ p = join (u " ") ws ∧
        ∀ w, w ∈ ws → is_Some (wc !! w).
Proof.
  intros H Hn Hc Hp.
  destruct (parse_dir_tables _ _ _ _ _ H) as (stop & toks & Hs & HF & -> & Hng).
  rewrite Hng in Hc. case_decide; [|done]. injection Hc as <-.
  apply update_lookup_Some in Hp as [Hin _].
  apply elem_of_concat in Hin as (x & Hpx & Hx).
  apply list_elem_of_fmap in Hx as (t & -> & Ht).
  unfold file_ngrams in Hpx. apply list_elem_of_join in Hpx as (y & Hpy & Hy).
  apply elem_of_replicate in Hy as [-> _].
  destruct (decide (Z.of_nat (length t) < n)%Z) as [Hshort|Hlong].
  { rewrite make_ngrams_short in Hpy by done. by apply elem_of_nil in Hpy. }
  rewrite make_ngrams_windows in Hpy by lia.
  apply list_elem_of_fmap in Hpy as (i & -> & Hi).
  apply elem_of_seq in Hi.
  exists (take (Z.to_nat n) (drop i t)). split_and!.
  - rewrite length_take, length_drop. lia.
  - done.
  - intros w Hw. apply update_lookup_elem, elem_of_concat. exists t. split; [|done].
    apply elem_of_take in Hw as (j & Hw & _). rewrite lookup_drop in Hw.
    by apply list_elem_of_lookup_2 in Hw.
Qed.

(** X22: a run that returns has loaded the stopwords and has read every
    eligible file, at the first or at the second attempt: it has skipped
    none. *)
Theorem returning_run_read_all root sn a wc ng :
  parse_dir root sn a = Ok (wc, ng) →
  (∃ stop, load_stopwords (a_stopwords a) sn = Ok stop) ∧
  Forall (λ fp, ∃ text, read_file fp = Ok text) (iter_files root).
Proof.
  intros H.
  destruct (parse_dir_tables _ _ _ _ _ H) as (stop & toks & Hs & HF & _).
  split; [eauto|]. clear -HF.
  induction HF as [|fp t l ts Ht _ IH]; constructor; [|done].
  unfold tokens_of in Ht. destruct (read_file fp); [eauto | done].
Qed.

End Keys.

(** ** A file read at the second attempt *)

Section Fallback.
Context {U : UnicodeData}.

(** Two entries between which the program cannot tell. *)
Lemma parse_files_same a stop files files' st :
  Forall2 (λ x y, e_suffix x = e_suffix y ∧ read_file x = read_file y) files files' →
  parse_files a stop files' st = parse_files a stop files st.
Proof.
  intros H. revert st. induction H as [|x y l l' [Hs Hr] _ IH]; intros st; [done|].
  simpl. rewrite Hs, Hr. destruct (read_file y) as [text|e]; simpl; [|done].
  destruct (count_ngrams _ _ _); simpl; [apply IH | done].
Qed.

Lemma iter_files_same root root' :
  Forall2 (λ x y, e_is_file x = e_is_file y ∧ e_suffix x = e_suffix y ∧
                  read_file x = read_file y) root root' →
  Forall2 (λ x y, e_suffix x = e_suffix y ∧ read_file x = read_file y)
          (iter_files root) (iter_files root').
Proof.
  unfold iter_files. induction 1 as [|x y l l' (Hf & Hs & Hr) _ IH]; [constructor|].
  rewrite !filter_cons. rewrite Hf, Hs.
  case_decide; [constructor; [done | exact IH] | exact IH].
Qed.

Lemma count_concat_elem (toks : list (list (list N))) t p :
  t ∈ toks → (occurrences p t ≤ occurrences p (concat toks))%nat.
Proof.
  intros (l1 & l2 & ->)%list_elem_of_split.
  rewrite concat_app. simpl. rewrite !occurrences_app. lia.
Qed.

Lemma Forall2_elem_l {A B} (P : A → B → Prop) l k x :
  Forall2 P l k → x ∈ l → ∃ y, y ∈ k ∧ P x y.
Proof.
  induction 1 as [|x' y l k Hxy _ IH]; intros Hin; [by apply elem_of_nil in Hin|].
  apply elem_of_cons in Hin as [->|Hin].
  - exists y. split; [by left | done].
  - destruct (IH Hin) as (y' & ? & ?). exists y'. split; [by right | done].
Qed.

(** C3 (amended): when the first read of a file of the corpus raises, the
    file is read again as latin-1.  If that read returns, the file is
    processed from its text and the run goes on: [parse_dir] gives what it
    gives for the corpus in which this file is one read at the first
    attempt with that text, and in a run that returns the filtered tokens
    of that text, and their n-grams of every requested order, are counted
    in the tables.  If the second read raises too, [parse_dir] raises: the
    file is not skipped. *)
Theorem unreadable_file_aborts root sn a fp e :
  fp ∈ iter_files root → e_read fp = Raise e →
  (∀ bs, e_reread fp = Ok bs →
     let text := universal_newlines (map Byte.to_N bs) in
     read_file fp = Ok text ∧
     (∀ fp' root',
        read_at_once text fp fp' →
        Forall2 (λ x y, y = x ∨ (x = fp ∧ y = fp')) root root' →
        parse_dir root' sn a = parse_dir root sn a) ∧
     (∀ stop wc ng,
        load_stopwords (a_stopwords a) sn = Ok stop →
        parse_dir root sn a = Ok (wc, ng) →
        let toks := file_tokens a stop (guess_fmt (e_suffix fp)) text in
        ∀ p, (occurrences p toks ≤ count wc p)%nat ∧
             ∀ n c, ng !! n = Some c →
                    (occurrences p (make_ngrams toks n) ≤ count c p)%nat)) ∧
  (∀ e', e_reread fp = Raise e' → ∃ e'', parse_dir root sn a = Raise e'').
Proof.
  intros Hin He. split.
  - intros bs Hbs text.
    assert (read_file fp = Ok text) as Hfp by (unfold read_file; by rewrite He, Hbs).
    split_and!; [done | |].
    + intros fp' root' (Hf & Hs & Hr) HF. unfold parse_dir.
      destruct (load_stopwords _ _) as [stop|e0]; simpl; [|done].
      apply parse_files_same, iter_files_same.
      eapply Forall2_impl; [exact HF|]. intros x y [->|[-> ->]]; [done|].
      split_and!; [done | done |]. rewrite Hfp. unfold read_file. by rewrite Hr.
    + intros stop wc ng Hs H toks p.
      destruct (parse_dir_tables _ _ _ _ _ H) as (stop' & tks & Hs' & HF & -> & Hng).
      rewrite Hs in Hs'. injection Hs' as <-.
      destruct (Forall2_elem_l _ _ _ _ HF Hin) as (t & Ht & Hfpt).
      unfold tokens_of in Hfpt. rewrite Hfp in Hfpt. simpl in Hfpt. injection Hfpt as <-.
      fold toks in Ht. split.
      * rewrite count_update_empty. by apply count_concat_elem.
      * intros n c. rewrite Hng. case_decide as Hn; [|done]. intros [= <-].
        rewrite count_update_empty.
        etrans; [|apply (count_concat_elem _ (file_ngrams (a_ngrams a) n toks))].
        -- unfold file_ngrams. rewrite occurrences_replicate.
           assert (0 < times_requested n (a_ngrams a))%nat; [|nia].
           unfold times_requested. apply list_elem_of_split in Hn as (l1 & l2 & ->).
           rewrite filter_app, filter_cons, decide_True by done.
           rewrite length_app. simpl. lia.
        -- apply list_elem_of_fmap. by exists toks.
  - intros e' He'. unfold parse_dir.
    destruct (load_stopwords _ _) as [stop|e0]; simpl; [|eauto].
    apply (parse_files_raise _ _ _ _ fp e'); [done|].
    unfold read_file. by rewrite He, He'.
Qed.

End Fallback.

(** ** The shapes of the time stamps *)

Section ShapeLemmas.
Context {U : UnicodeData}.

Lemma matches_seq r1 r2 prev M rest :
  matches (Seq r1 r2) prev M rest ↔
  ∃ M1 M2, M = M1 ++ M2 ∧ matches r1 prev M1 (M2 ++ rest) ∧
           matches r2 (after prev M1) M2 rest.
Proof.
  split.
  - intros H. inversion H; subst. eauto.
  - intros (M1 & M2 & -> & H1 & H2). by constructor.
Qed.

Lemma matches_eps prev M rest : matches Eps prev M rest ↔ M = [].
Proof. split; [intros H; by inversion H | intros ->; constructor]. Qed.

Lemma matches_chr p prev M rest :
  matches (Chr p) prev M rest ↔ ∃ c, M = [c] ∧ p c = true.
Proof.
  split; [intros H; inversion H; subst; eauto | intros (c & -> & ?); by constructor].
Qed.

Lemma matches_lit a prev M rest : matches (lit a) prev M rest ↔ M = [ch a].
Proof.
  unfold lit. rewrite matches_chr. split.
  - intros (c & -> & ->%N.eqb_eq). done.
  - intros ->. exists (ch a). split; [done | apply N.eqb_refl].
Qed.

Lemma matches_dig n prev M rest : matches (dig n n) prev M rest ↔ digits n M.
Proof.
  unfold dig, times, digits. split.
  - intros H. inversion H as [| | | | | | |? ? ? ? ? ? HF Hlo Hhi| | | | |]; subst.
    specialize (Hhi n eq_refl). split; [lia | done].
  - intros [Hl HF]. constructor; [done | lia | intros h [= <-]; lia].
Qed.

Lemma matches_dig12 prev M rest :
  matches (dig 1 2) prev M rest ↔ digits 1 M ∨ digits 2 M.
Proof.
  unfold dig, times, digits. split.
  - intros H. inversion H as [| | | | | | |? ? ? ? ? ? HF Hlo Hhi| | | | |]; subst.
    specialize (Hhi 2%nat eq_refl).
    destruct (decide (length M = 1%nat)); [left | right]; split; (done || lia).
  - intros [[Hl HF]|[Hl HF]]; (constructor; [done | lia | intros h [= <-]; lia]).
Qed.

Lemma matches_ws prev M rest : matches ws prev M rest ↔ blank M.
Proof.
  unfold ws, star, blank. split.
  - intros H. by inversion H.
  - intros HF. constructor; [done | lia | done].
Qed.

Lemma matches_wb prev M rest :
  matches wb prev M rest ↔ M = [] ∧ edge prev (head rest).
Proof.
  unfold wb, edge. split.
  - intros H. inversion H as [| | | | | | | | | |? ? ? Hx| |]; subst. split; [done|].
    by destruct (word_at is_word prev), (word_at is_word (head rest)).
  - intros [-> Hx]. constructor.
    by destruct (word_at is_word prev), (word_at is_word (head rest)).
Qed.

Lemma matches_opt r prev M rest :
  matches (Opt r) prev M rest ↔ matches r prev M rest ∨ M = [].
Proof.
  split.
  - intros H. inversion H; subst; [by left | by right].
  - intros [H| ->]; [by apply mt_opt_some | apply mt_opt_none].
Qed.

Lemma matches_hms prev M rest : matches hms prev M rest ↔ clock M.
Proof.
  unfold hms, seqs, clock. simpl foldr. split.
  - intros H.
    apply matches_seq in H as (hh & M1 & -> & Hh%matches_dig & H).
    apply matches_seq in H as (c1 & M2 & -> & ->%matches_lit & H).
    apply matches_seq in H as (mm & M3 & -> & Hm%matches_dig & H).
    apply matches_seq in H as (c2 & M4 & -> & ->%matches_lit & H).
    apply matches_seq in H as (ss & M5 & -> & Hs%matches_dig & ->%matches_eps).
    exists hh, mm, ss. rewrite app_nil_r. done.
  - intros (hh & mm & ss & -> & Hh & Hm & Hs).
    apply mt_seq; [by apply matches_dig|].
    apply (mt_seq _ _ _ (u ":")); [by apply matches_lit|].
    apply mt_seq; [by apply matches_dig|].
    apply (mt_seq _ _ _ (u ":")); [by apply matches_lit|].
    rewrite <- (app_nil_r ss). apply mt_seq; [by apply matches_dig | constructor].
Qed.

Lemma matches_hms_ms prev M rest : matches hms_ms prev M rest ↔ clock_ms M.
Proof.
  unfold hms_ms, seqs, clock_ms. simpl foldr. split.
  - intros H.
    apply matches_seq in H as (t & M1 & -> & Ht%matches_hms & H).
    apply matches_seq in H as (p & M2 & -> & (c & -> & Hc)%matches_chr & H).
    apply matches_seq in H as (ms & M3 & -> & Hms%matches_dig & ->%matches_eps).
    exists t, c, ms. rewrite app_nil_r. split_and!; [done | done | | done].
    unfold one_of in Hc. apply bool_decide_eq_true in Hc.
    apply elem_of_cons in Hc as [->|Hc]; [by left|].
    apply list_elem_of_singleton in Hc as ->. by right.
  - intros (t & p & ms & -> & Ht & Hp & Hms).
    apply mt_seq; [by apply matches_hms|].
    apply (mt_seq _ _ _ [p]).
    { constructor. unfold one_of. apply bool_decide_eq_true.
      destruct Hp as [-> | ->]; [by left | right; by left]. }
    rewrite <- (app_nil_r ms). apply mt_seq; [by apply matches_dig | constructor].
Qed.

Lemma matches_short prev M rest :
  matches (seqs [dig 1 2; lit ":"; dig 2 2]) prev M rest ↔ short_clock M.
Proof.
  unfold seqs, short_clock. simpl foldr. split.
  - intros H.
    apply matches_seq in H as (mm & M1 & -> & Hm%matches_dig12 & H).
    apply matches_seq in H as (c1 & M2 & -> & ->%matches_lit & H).
    apply matches_seq in H as (ss & M3 & -> & Hs%matches_dig & ->%matches_eps).
    exists mm, ss. rewrite app_nil_r. done.
  - intros (mm & ss & -> & Hm & Hs).
    apply mt_seq; [by apply matches_dig12|].
    apply (mt_seq _ _ _ (u ":")); [by apply matches_lit|].
    rewrite <- (app_nil_r ss). apply mt_seq; [by apply matches_dig | constructor].
Qed.

Lemma clock_nonempty M : clock M → M ≠ [].
Proof.
  intros (hh & mm & ss & -> & [Hh _] & _). destruct hh; [simpl in Hh; lia | done].
Qed.

Lemma clock_ms_nonempty M : clock_ms M → M ≠ [].
Proof.
  intros (t & p & ms & -> & Ht%clock_nonempty & _). by destruct t.
Qed.

Lemma short_clock_nonempty M : short_clock M → M ≠ [].
Proof.
  intros (mm & ss & -> & Hm & _). destruct mm; [|done].
  destruct Hm as [[Hm _]|[Hm _]]; simpl in Hm; lia.
Qed.

Lemma head_app_nonempty {A} (l k : list A) : l ≠ [] → head (l ++ k) = head l.
Proof. by destruct l. Qed.

Lemma after_nonempty prev M : M ≠ [] → after prev M = last M.
Proof.
  intros HM. unfold after. destruct (last M) eqn:E; [done|].
  apply last_None in E. done.
Qed.

End ShapeLemmas.

Section RuleShapes.
Context {U : UnicodeData}.

Lemma matches_arrow prev M rest : matches (lits "-->") prev M rest ↔ M = u "-->".
Proof.
  unfold lits, seqs. simpl. split.
  - intros H.
    apply matches_seq in H as (c1 & M1 & -> & ->%matches_lit & H).
    apply matches_seq in H as (c2 & M2 & -> & ->%matches_lit & H).
    apply matches_seq in H as (c3 & M3 & -> & ->%matches_lit & ->%matches_eps).
    done.
  - intros ->.
    apply (mt_seq _ _ _ (u "-")); [by apply matches_lit|].
    apply (mt_seq _ _ _ (u "-")); [by apply matches_lit|].
    apply (mt_seq _ _ _ (u ">") []); [by apply matches_lit | constructor].
Qed.

(** A pattern between two word boundaries. *)
Lemma matches_between r prev M rest :
  (∀ p M' q, matches r p M' q → M' ≠ []) →
  (∀ p M' q p' q', matches r p M' q → matches r p' M' q') →
  matches (seqs [wb; r; wb]) prev M rest ↔ standalone prev M rest ∧ matches r None M [].
Proof.
  intros Hne Hcf. unfold seqs, standalone. simpl foldr. split.
  - intros H.
    apply matches_seq in H as (M0 & M1 & -> & [-> He1]%matches_wb & H).
    apply matches_seq in H as (t & M2 & -> & Ht & H).
    apply matches_seq in H as (M3 & M4 & -> & [-> He2]%matches_wb & ->%matches_eps).
    simpl in *. rewrite !app_nil_r in *. pose proof (Hne _ _ _ Ht) as Hn.
    rewrite head_app_nonempty in He1 by done. rewrite after_nonempty in He2 by done.
    split_and!; [done | done | by eapply Hcf].
  - intros [[He1 He2] Ht]. pose proof (Hne _ _ _ Ht) as Hn.
    apply (mt_seq _ _ _ [] M).
    { apply matches_wb. split; [done|]. by rewrite head_app_nonempty. }
    rewrite <- (app_nil_r M). apply (mt_seq _ _ _ M []); [by eapply Hcf|].
    apply (mt_seq _ _ _ [] []); [|constructor].
    apply matches_wb. split; [done|]. simpl. by rewrite after_nonempty.
Qed.

Lemma hms_ms_matches prev M rest :
  matches STAMP_HMS_MS prev M rest ↔ hms_ms_shape prev M rest.
Proof.
  unfold STAMP_HMS_MS, hms_ms_shape. rewrite matches_between.
  - by rewrite matches_hms_ms.
  - intros p M' q H%matches_hms_ms. by apply clock_ms_nonempty.
  - intros p M' q p' q' H%matches_hms_ms. by apply matches_hms_ms.
Qed.

Lemma hms_matches prev M rest :
  matches STAMP_HMS prev M rest ↔ hms_shape prev M rest.
Proof.
  unfold STAMP_HMS, hms_shape. rewrite matches_between.
  - by rewrite matches_hms.
  - intros p M' q H%matches_hms. by apply clock_nonempty.
  - intros p M' q p' q' H%matches_hms. by apply matches_hms.
Qed.

Lemma range_matches prev M rest :
  matches RANGE_VTT prev M rest ↔ range_shape prev M rest.
Proof.
  unfold RANGE_VTT, range_shape, standalone, seqs. simpl foldr. split.
  - intros H.
    apply matches_seq in H as (M0 & M1 & -> & [-> He1]%matches_wb & H).
    apply matches_seq in H as (t1 & M2 & -> & Ht1%matches_hms_ms & H).
    apply matches_seq in H as (w1 & M3 & -> & Hw1%matches_ws & H).
    apply matches_seq in H as (ar & M4 & -> & ->%matches_arrow & H).
    apply matches_seq in H as (w2 & M5 & -> & Hw2%matches_ws & H).
    apply matches_seq in H as (t2 & M6 & -> & Ht2%matches_hms_ms & H).
    apply matches_seq in H as (M7 & M8 & -> & [-> He2]%matches_wb & ->%matches_eps).
    rewrite !after_app in He2. rewrite !app_nil_r in *. rewrite !app_nil_l in *.
    pose proof (clock_ms_nonempty _ Ht1) as Hn1.
    assert (t1 ++ w1 ++ u "-->" ++ w2 ++ t2 ≠ []) as Hn by (by destruct t1).
    rewrite head_app_nonempty in He1 by done.
    rewrite after_nonempty in He2 by done.
    split; [done|]. by exists t1, w1, w2, t2.
  - intros [[He1 He2] (t1 & w1 & w2 & t2 & -> & Ht1 & Hw1 & Hw2 & Ht2)].
    pose proof (clock_ms_nonempty _ Ht1) as Hn1.
    assert (t1 ++ w1 ++ u "-->" ++ w2 ++ t2 ≠ []) as Hn by (by destruct t1).
    apply (mt_seq _ _ _ [] _).
    { apply matches_wb. split; [done|]. by rewrite head_app_nonempty. }
    apply mt_seq; [by apply matches_hms_ms|].
    apply mt_seq; [by apply matches_ws|].
    apply mt_seq; [by apply matches_arrow|].
    apply mt_seq; [by apply matches_ws|].
    rewrite <- (app_nil_r t2). apply mt_seq; [by apply matches_hms_ms|].
    apply (mt_seq _ _ _ [] []); [|constructor].
    apply matches_wb. split; [done|].
    rewrite !after_app, ?app_nil_r, ?app_nil_l, <- ?app_assoc. by rewrite after_nonempty.
Qed.

Lemma bracketed_matches prev M rest :
  matches STAMP_BRACKETED prev M rest ↔ bracketed_shape prev M rest.
Proof.
  unfold STAMP_BRACKETED, bracketed_shape.
  change (seqs [lit "["; ws; dig 1 2; lit ":"; dig 2 2;
                Opt (seqs [lit ":"; dig 2 2]); ws; lit "]"])
    with (Seq (lit "[") (Seq ws (Seq (dig 1 2) (Seq (lit ":") (Seq (dig 2 2)
           (Seq (Opt (Seq (lit ":") (Seq (dig 2 2) Eps))) (Seq ws (Seq (lit "]") Eps)))))))).
  split.
  - intros H.
    apply matches_seq in H as (b1 & M1 & -> & ->%matches_lit & H).
    apply matches_seq in H as (w1 & M2 & -> & Hw1%matches_ws & H).
    apply matches_seq in H as (mm & M3 & -> & Hm%matches_dig12 & H).
    apply matches_seq in H as (c1 & M4 & -> & ->%matches_lit & H).
    apply matches_seq in H as (ss & M5 & -> & Hs%matches_dig & H).
    apply matches_seq in H as (o & M6 & -> & Ho%matches_opt & H).
    apply matches_seq in H as (w2 & M7 & -> & Hw2%matches_ws & H).
    apply matches_seq in H as (b2 & M8 & -> & ->%matches_lit & ->%matches_eps).
    exists w1, (mm ++ u ":" ++ ss ++ o), w2. split_and!; [|done|done|].
    { by rewrite <- !app_assoc. }
    destruct Ho as [Ho| ->].
    + right. apply matches_seq in Ho as (c2 & M9 & -> & ->%matches_lit & Ho).
      apply matches_seq in Ho as (s2 & M10 & -> & Hs2%matches_dig & ->%matches_eps).
      exists (mm ++ u ":" ++ ss), s2. split_and!; [|by exists mm, ss | done].
      rewrite app_nil_r. by rewrite <- !app_assoc.
    + left. exists mm, ss. by rewrite app_nil_r.
  - intros (w1 & t & w2 & -> & Hw1 & Hw2 & Ht).
    apply (mt_seq _ _ _ (u "[")); [by apply matches_lit|].
    apply mt_seq; [by apply matches_ws|].
    assert (∃ mm ss o, t = mm ++ u ":" ++ ss ++ o ∧ (digits 1 mm ∨ digits 2 mm) ∧
                        digits 2 ss ∧
                        (o = [] ∨ ∃ s2, o = u ":" ++ s2 ∧ digits 2 s2))
      as (mm & ss & o & -> & Hm & Hs & Ho).
    { destruct Ht as [(mm & ss & -> & Hm & Hs)|(t' & s2 & -> & (mm & ss & -> & Hm & Hs) & Hs2)].
      - exists mm, ss, []. rewrite app_nil_r. split_and!; [done | done | done | by left].
      - exists mm, ss, (u ":" ++ s2). split_and!; [by rewrite <- !app_assoc | done | done |].
        right. by exists s2. }
    rewrite <- !app_assoc.
    apply mt_seq; [by apply matches_dig12|].
    apply (mt_seq _ _ _ (u ":")); [by apply matches_lit|].
    apply mt_seq; [by apply matches_dig|].
    apply mt_seq.
    { apply matches_opt. destruct Ho as [->|(s2 & -> & Hs2)]; [by right | left].
      apply (mt_seq _ _ _ (u ":")); [by apply matches_lit|].
      rewrite <- (app_nil_r s2). apply mt_seq; [by apply matches_dig | constructor]. }
    apply mt_seq; [by apply matches_ws|].
    apply (mt_seq _ _ _ (u "]") []); [by apply matches_lit | constructor].
Qed.

Lemma no_colon_digit prev rest :
  m (seqs [lit ":"; Chr is_decimal]) prev rest (λ _ _, Some []) = None ↔
  ¬ ∃ d rest', rest = ch ":" :: d :: rest' ∧ is_decimal d = true.
Proof.
  unfold seqs, lit. cbn [foldr m].
  destruct rest as [|x rest]; [split; [by intros _ (? & ? & ? & _) | done]|].
  destruct (x =? ch ":") eqn:Ex.
  - apply N.eqb_eq in Ex as ->.
    destruct rest as [|d rest]; [split; [by intros _ (? & ? & ? & _) | done]|].
    destruct (is_decimal d) eqn:Ed.
    + split; [done|]. intros Hn. destruct Hn. by exists d, rest.
    + split; [|done]. intros _ (d' & r' & [= -> ->] & Hd). congruence.
  - split; [|done]. intros _ (d' & r' & [= -> _] & _). by rewrite N.eqb_refl in Ex.
Qed.

Lemma ms_matches prev M rest :
  matches STAMP_MS prev M rest ↔ ms_shape prev M rest.
Proof.
  unfold STAMP_MS, ms_shape, standalone.
  change (seqs [NotBehind is_decimal; wb; dig 1 2; lit ":"; dig 2 2; wb;
                NotAhead (seqs [lit ":"; Chr is_decimal])])
    with (Seq (NotBehind is_decimal) (Seq wb (Seq (dig 1 2) (Seq (lit ":") (Seq (dig 2 2)
           (Seq wb (Seq (NotAhead (seqs [lit ":"; Chr is_decimal])) Eps))))))).
  split.
  - intros H.
    apply matches_seq in H as (M0 & M1 & -> & Hb & H).
    inversion Hb as [| | | | | | | | | | |? ? ? Hnb|]; subst; clear Hb.
    apply matches_seq in H as (M2 & M3 & -> & [-> He1]%matches_wb & H).
    apply matches_seq in H as (mm & M4 & -> & Hm%matches_dig12 & H).
    apply matches_seq in H as (c1 & M5 & -> & ->%matches_lit & H).
    apply matches_seq in H as (ss & M6 & -> & Hs%matches_dig & H).
    apply matches_seq in H as (M7 & M8 & -> & [-> He2]%matches_wb & H).
    apply matches_seq in H as (M9 & M10 & -> & Ha & ->%matches_eps).
    inversion Ha as [| | | | | | | | | | | |? ? ? Hna]; subst; clear Ha.
    rewrite !after_app in He2. rewrite !after_app in Hna.
    rewrite !app_nil_r in *. rewrite !app_nil_l in *.
    assert (short_clock (mm ++ u ":" ++ ss)) as Hsc by (by exists mm, ss).
    pose proof (short_clock_nonempty _ Hsc) as Hn.
    rewrite <- ?app_assoc in He1, He2, Hna.
    rewrite head_app_nonempty in He1 by done. rewrite after_nonempty in He2 by done.
    split_and!; [done | done | done | done |].
    by apply (no_colon_digit (after prev (mm ++ u ":" ++ ss))).
  - intros ((He1 & He2) & Hsc & Hnb & Hna).
    pose proof (short_clock_nonempty _ Hsc) as Hn.
    destruct Hsc as (mm & ss & -> & Hm & Hs).
    apply (mt_seq _ _ _ [] _); [by constructor|].
    apply (mt_seq _ _ _ [] _).
    { apply matches_wb. split; [done|]. by rewrite head_app_nonempty. }
    apply mt_seq; [by apply matches_dig12|].
    apply (mt_seq _ _ _ (u ":")); [by apply matches_lit|].
    rewrite <- (app_nil_r ss). apply mt_seq; [by apply matches_dig|].
    apply (mt_seq _ _ _ [] []).
    { apply matches_wb. split; [done|].
      rewrite !after_app, ?app_nil_r, ?app_nil_l, <- ?app_assoc. by rewrite after_nonempty. }
    apply (mt_seq _ _ _ [] []); [|constructor].
    constructor. by apply no_colon_digit.
Qed.

Lemma one_pass_shape r (sh : shape) prev s out :
  (∀ prev M rest, matches r prev M rest ↔ sh prev M rest) →
  one_pass r (u " ") prev s out → shape_pass sh prev s out.
Proof.
  intros Hsh. induction 1 as [prev E|prev c s out E H IH|prev s M c rest out Hs E H IH].
  - constructor.
  - constructor; [|done]. intros M rest Heq HM%Hsh.
    apply match_here_complete in HM as [y Hy]. rewrite <- Heq in Hy. congruence.
  - subst s. apply match_here_sound in E as (M' & HM' & Hm).
    assert (M' = M ++ [c]) as ->.
    { apply (app_inv_tail rest). rewrite <- HM'. by rewrite <- app_assoc. }
    apply (sp_replace sh); [by apply Hsh | done].
Qed.

Lemma rules_applied_shapes rs shs s out :
  Forall2 (λ r (sh : shape), ∀ prev M rest, matches r prev M rest ↔ sh prev M rest) rs shs →
  rules_applied rs s out → shapes_removed shs s out.
Proof.
  intros HF. revert s. induction HF as [|r sh rs shs Hsh _ IH]; intros s H.
  - inversion H; subst. constructor.
  - inversion H as [|? ? ? s1 ? Hp H']; subst.
    apply (removed_next _ _ _ s1); [by apply (one_pass_shape r) | by apply IH].
Qed.

End RuleShapes.

Section Unique.
Context {U : UnicodeData}.

Lemma prefix_by_length {A} (M M' rest rest' : list A) :
  M ++ rest = M' ++ rest' → length M = length M' → M = M'.
Proof. intros H Hl. by apply app_inj_1 in H as [? _]. Qed.

(** The part before the first occurrence of a character. *)
Lemma pivot_unique {A} (x : A) l1 r1 l2 r2 :
  l1 ++ x :: r1 = l2 ++ x :: r2 → x ∉ l1 → x ∉ l2 → l1 = l2.
Proof.
  revert l2. induction l1 as [|a l1 IH]; intros [|b l2] H H1 H2; simpl in H.
  - done.
  - injection H as -> _. destruct H2. by left.
  - injection H as -> _. destruct H1. by left.
  - injection H as -> H. f_equal. apply IH; [done | |].
    + intros ?. apply H1. by right.
    + intros ?. apply H2. by right.
Qed.

Lemma clock_length M : clock M → length M = 8%nat.
Proof.
  intros (hh & mm & ss & -> & [Hh _] & [Hm _] & [Hs _]).
  rewrite !length_app. simpl. lia.
Qed.

Lemma clock_ms_length M : clock_ms M → length M = 12%nat.
Proof.
  intros (t & p & ms & -> & Ht%clock_length & _ & [Hms _]).
  rewrite length_app. simpl. lia.
Qed.

Lemma digits_no c n s : is_decimal c = false → digits n s → c ∉ s.
Proof.
  intros Hc [_ HF] Hin. rewrite Forall_forall in HF. specialize (HF c Hin). congruence.
Qed.

Lemma blank_no c s : is_space c = false → blank s → c ∉ s.
Proof.
  intros Hc HF Hin. unfold blank in HF. rewrite Forall_forall in HF.
  specialize (HF c Hin). congruence.
Qed.

Lemma short_clock_unique M M' rest rest' :
  short_clock M → short_clock M' → M ++ rest = M' ++ rest' → M = M'.
Proof.
  intros (mm & ss & -> & Hm & Hs) (mm' & ss' & -> & Hm' & Hs') H.
  assert (ch ":" ∉ mm) as H1 by (destruct Hm; by eapply digits_no).
  assert (ch ":" ∉ mm') as H2 by (destruct Hm'; by eapply digits_no).
  rewrite <- !app_assoc in H.
  pose proof (pivot_unique (ch ":") mm _ mm' _ H H1 H2) as ->.
  apply app_inv_head in H. injection H as H. f_equal. f_equal.
  apply (prefix_by_length _ _ _ _ H). destruct Hs as [-> _], Hs' as [-> _]. done.
Qed.

Lemma short_clock_no c M :
  is_decimal c = false → c ≠ ch ":" → short_clock M → c ∉ M.
Proof.
  intros Hc Hn (mm & ss & -> & Hm & Hs).
  rewrite !elem_of_app. intros [Hin|[Hin|Hin]].
  - destruct Hm as [Hm|Hm]; by apply (digits_no c _ _ Hc Hm).
  - apply list_elem_of_singleton in Hin. done.
  - by apply (digits_no c _ _ Hc Hs).
Qed.

Lemma bracketed_unique prev M rest prev' M' rest' :
  bracketed_shape prev M rest → bracketed_shape prev' M' rest' →
  M ++ rest = M' ++ rest' → M = M'.
Proof.
  assert (∀ p M r, bracketed_shape p M r →
            ∃ X, M = ch "[" :: X ++ [ch "]"] ∧ ch "]" ∉ X) as Hx.
  { intros p M0 r (w1 & t & w2 & -> & Hw1 & Hw2 & Ht).
    exists (w1 ++ t ++ w2). split; [simpl; by rewrite <- !app_assoc|].
    rewrite !elem_of_app. intros [Hin|[Hin|Hin]].
    - by apply (blank_no (ch "]") w1).
    - destruct Ht as [Ht|(t' & ss & -> & Ht & Hs)].
      + by apply (short_clock_no (ch "]") t).
      + apply elem_of_app in Hin as [Hin|Hin]; [by apply (short_clock_no (ch "]") t')|].
        apply elem_of_app in Hin as [Hin|Hin].
        * apply list_elem_of_singleton in Hin. done.
        * by apply (digits_no (ch "]") 2 ss).
    - by apply (blank_no (ch "]") w2). }
  intros (X & -> & HX)%Hx (X' & -> & HX')%Hx H.
  simpl in H. injection H as H. rewrite <- !app_assoc in H. simpl in H.
  by rewrite (pivot_unique _ _ _ _ _ H HX HX').
Qed.

Lemma blank_then_unique w w' c c' r r' :
  blank w → blank w' → is_space c = false → is_space c' = false →
  w ++ c :: r = w' ++ c' :: r' → w = w' ∧ c :: r = c' :: r'.
Proof.
  revert w'. induction w as [|a w IH]; intros [|b w'] Hw Hw' Hc Hc' H; simpl in H.
  - done.
  - injection H as -> _. apply Forall_cons in Hw' as [? _]. congruence.
  - injection H as -> _. apply Forall_cons in Hw as [? _]. congruence.
  - injection H as -> H. apply Forall_cons in Hw as [_ Hw]. apply Forall_cons in Hw' as [_ Hw'].
    destruct (IH w' Hw Hw' Hc Hc' H) as [-> ?]. done.
Qed.

Lemma clock_ms_head t : clock_ms t → ∃ d r, t = d :: r ∧ is_decimal d = true.
Proof.
  intros (t0 & p & ms & -> & (hh & mm & ss & -> & [Hl HF] & _) & _).
  destruct hh as [|d hh]; [simpl in Hl; lia|]. apply Forall_cons in HF as [Hd _].
  eexists d, _. split; [reflexivity | done].
Qed.

Lemma range_unique prev M rest prev' M' rest' :
  (∀ c, is_space c = true → is_decimal c = false) →
  range_shape prev M rest → range_shape prev' M' rest' →
  M ++ rest = M' ++ rest' → M = M'.
Proof.
  intros Hsd [_ (t1 & w1 & w2 & t2 & -> & Ht1 & Hw1 & Hw2 & Ht2)]
             [_ (t1' & w1' & w2' & t2' & -> & Ht1' & Hw1' & Hw2' & Ht2')] H.
  rewrite <- !app_assoc in H.
  assert (t1 = t1') as <-.
  { apply (prefix_by_length _ _ _ _ H). by rewrite !clock_ms_length. }
  apply app_inv_head in H.
  change (u "-->") with (ch "-" :: u "->") in *.
  rewrite <- !app_comm_cons in H.
  assert (is_space (ch "-") = false) as Hd0 by (vm_compute; reflexivity).
  destruct (blank_then_unique w1 w1' (ch "-") (ch "-") _ _ Hw1 Hw1' Hd0 Hd0 H) as [<- H'].
  apply (f_equal (drop 3)) in H'. simpl in H'.
  destruct (clock_ms_head _ Ht2) as (d & r & -> & Hd).
  destruct (clock_ms_head _ Ht2') as (d' & r' & -> & Hd').
  rewrite <- !app_comm_cons in H'.
  assert (is_space d = false) as Hsp.
  { destruct (is_space d) eqn:E; [|done]. rewrite (Hsd d E) in Hd. done. }
  assert (is_space d' = false) as Hsp'.
  { destruct (is_space d') eqn:E; [|done]. rewrite (Hsd d' E) in Hd'. done. }
  destruct (blank_then_unique _ _ _ _ _ _ Hw2 Hw2' Hsp Hsp' H') as [<- H''].
  rewrite !app_comm_cons in H''.
  assert (d :: r = d' :: r') as ->; [|done].
  apply (prefix_by_length _ _ _ _ H''). by rewrite !clock_ms_length.
Qed.

Lemma shape_pass_inv (sh : shape) prev s out :
  shape_pass sh prev s out →
  (s = [] ∧ out = []) ∨
  (∃ c s' out', s = c :: s' ∧ out = c :: out' ∧
     (∀ M rest, s = M ++ rest → ¬ sh prev M rest) ∧ shape_pass sh (Some c) s' out') ∨
  (∃ M c rest out', s = M ++ c :: rest ∧ out = u " " ++ out' ∧
     sh prev (M ++ [c]) rest ∧ shape_pass sh (Some c) rest out').
Proof.
  intros [prev'|prev' c s' out' Hno H|prev' M c rest out' Hsh H].
  - by left.
  - right; left. by exists c, s', out'.
  - right; right. by exists M, c, rest, out'.
Qed.

Lemma shape_pass_fun (sh : shape) prev s o1 o2 :
  (∀ p M r p' M' r', sh p M r → sh p' M' r' → M ++ r = M' ++ r' → M = M') →
  shape_pass sh prev s o1 → shape_pass sh prev s o2 → o1 = o2.
Proof.
  intros Hu H1. revert o2.
  induction H1 as [prev|prev c s out Hno H1 IH|prev M c rest out Hsh H1 IH]; intros o2 H2;
    apply shape_pass_inv in H2
      as [[Hs ->]|[(c' & s' & out' & Hs & -> & Hno' & H2)
                  |(M' & c' & rest' & out' & Hs & -> & Hsh' & H2)]].
  - done.
  - done.
  - by destruct M'.
  - done.
  - injection Hs as <- <-. f_equal. auto.
  - destruct (Hno (M' ++ [c']) rest'); [by rewrite <- app_assoc | done].
  - by destruct M.
  - destruct (Hno' (M ++ [c]) rest); [by rewrite <- app_assoc | done].
  - assert (M' ++ [c'] = M ++ [c]) as HM.
    { apply (Hu _ _ _ _ _ _ Hsh' Hsh). rewrite <- !app_assoc. simpl. by rewrite Hs. }
    apply app_inj_tail in HM as [-> ->].
    apply app_inv_head in Hs. injection Hs as ->. f_equal. auto.
Qed.

Lemma timestamp_shapes_unique :
  (∀ c, is_space c = true → is_decimal c = false) →
  Forall (λ sh : shape, ∀ p M r p' M' r',
            sh p M r → sh p' M' r' → M ++ r = M' ++ r' → M = M') timestamp_shapes.
Proof.
  intros Hsd. unfold timestamp_shapes. repeat apply Forall_cons_2; [..|apply Forall_nil_2].
  - intros. by eapply range_unique.
  - intros. by eapply bracketed_unique.
  - intros p M r p' M' r' [_ H] [_ H'] Heq.
    apply (prefix_by_length _ _ _ _ Heq). by rewrite !clock_ms_length.
  - intros p M r p' M' r' [_ H] [_ H'] Heq.
    apply (prefix_by_length _ _ _ _ Heq). by rewrite !clock_length.
  - intros p M r p' M' r' (_ & H & _) (_ & H' & _) Heq. by eapply short_clock_unique.
Qed.

Lemma shapes_removed_fun shs s o1 o2 :
  Forall (λ sh : shape, ∀ p M r p' M' r',
            sh p M r → sh p' M' r' → M ++ r = M' ++ r' → M = M') shs →
  shapes_removed shs s o1 → shapes_removed shs s o2 → o1 = o2.
Proof.
  intros HF H1. revert o2.
  induction H1 as [|sh shs s s1 out Hp H1 IH]; intros o2 H2.
  - by inversion H2.
  - inversion H2 as [|? ? ? s1' ? Hp' H2']; subst.
    apply Forall_cons in HF as [Hu HF].
    rewrite (shape_pass_fun _ _ _ _ _ Hu Hp Hp') in *. auto.
Qed.

End Unique.

Section OnceInOrder.
Context {U : UnicodeData}.

(** C5 (amended): the five rules match exactly the five shapes of the
    specification, in its order of precedence: the range, the bracketed
    stamp, [HH:MM:SS.mmm], [HH:MM:SS] and [MM:SS], the first field of a
    bracketed stamp and of [MM:SS] being of one or two digits.
    [strip_timestamps_everywhere] removes these shapes one after the other,
    each by one pass from left to right over the whole string the pass
    before it has left, a single space being put for every match; where no
    character is white space and a digit at once this fixes its result.
    The same holds of the passes of the five patterns themselves.  No pass
    is made a second time. *)
Theorem timestamp_rules_once_in_order :
  Forall2 (λ r (sh : shape), ∀ prev M rest, matches r prev M rest ↔ sh prev M rest)
          timestamp_rules timestamp_shapes ∧
  ∀ s,
    shapes_removed timestamp_shapes s (strip_timestamps_everywhere s) ∧
    ((∀ c, is_space c = true → is_decimal c = false) →
     ∀ out, shapes_removed timestamp_shapes s out → out = strip_timestamps_everywhere s) ∧
    ∀ out, rules_applied timestamp_rules s out ↔ out = strip_timestamps_everywhere s.
Proof.
  assert (Forall2 (λ r (sh : shape), ∀ prev M rest, matches r prev M rest ↔ sh prev M rest)
            timestamp_rules timestamp_shapes) as Hshapes.
  { unfold timestamp_rules, timestamp_shapes.
    constructor; [intros; apply range_matches|].
    constructor; [intros; apply bracketed_matches|].
    constructor; [intros; apply hms_ms_matches|].
    constructor; [intros; apply hms_matches|].
    constructor; [intros; apply ms_matches | constructor]. }
  split; [exact Hshapes|]. intros s.
  assert (rules_applied timestamp_rules s (strip_timestamps_everywhere s)) as H.
  { unfold timestamp_rules, strip_timestamps_everywhere.
    repeat (eapply rules_next; [by apply re_sub_pass|]). constructor. }
  assert (shapes_removed timestamp_shapes s (strip_timestamps_everywhere s)) as Hs
    by (by apply (rules_applied_shapes timestamp_rules)).
  split_and!.
  - exact Hs.
  - intros Hsd out Hout.
    by apply (shapes_removed_fun _ _ _ _ (timestamp_shapes_unique Hsd) Hout).
  - intros out. split; [intros H'; by apply (rules_applied_fun _ _ _ _ H') | by intros ->].
Qed.

End OnceInOrder.

(** ** The program on sample inputs *)

#[local] Existing Instance ascii_only.

Lemma is_ok_inv {A} (r : result A) : is_ok r = true → ∃ a, r = Ok a.
Proof. destruct r; [eauto | discriminate]. Qed.

(** A run that is shown by evaluation not to raise. *)
Ltac run_ok r n a E :=
  let H := fresh in
  assert (is_ok (parse_dir r n a) = true) as H by (vm_compute; reflexivity);
  destruct (is_ok_inv _ H) as [[wc ng] E]; clear H.


(** C2: on the line ["(laughter) "] the remainder after the removals, once
    trimmed, is wrapped in parentheses, yet [clean_line] returns
    ["(laughter)"] and not the empty string; the same for a cue between
    tags.  Without the white space around it the cue is dropped. *)
Theorem cue_with_trailing_space_kept :
  let line := u "(laughter) " in
  is_cue (strip (generic_cleanup line)) = true ∧
  clean_line line txt = u "(laughter)" ∧
  clean_line (u "<i>(laughter)</i>") txt = u "(laughter)" ∧
  clean_line (u "(laughter)") txt = [].
Proof. cbv zeta. split_and!; vm_compute; reflexivity. Qed.

(** C1 as stated fails: of two labels at the start of a line each cleaning
    strips one. *)
Lemma clean_line_not_idempotent :
  clean_line (clean_line (u "Alice: Note: hello") txt) txt
  ≠ clean_line (u "Alice: Note: hello") txt.
Proof. vm_compute. discriminate. Qed.

(** Each condition of the amended claim is needed: a cleaned line on which
    a time-stamp rule, the header rule or the index rule fires is changed
    by a second cleaning. *)
Example clean_line_refires :
  clean_line (u "1:23:4:56") txt = u "1:23:" ∧ clean_line (u "1:23:") txt = u ":" ∧
  clean_line (u "Alice: WEBVTT") vtt = u "WEBVTT" ∧ clean_line (u "WEBVTT") vtt = [] ∧
  clean_line (u "Alice: 42") srt = u "42" ∧ clean_line (u "42") srt = [].
Proof. split_and!; vm_compute; reflexivity. Qed.

(** The amended C1 on a line with one label. *)
Lemma clean_line_idempotent_when_settled_witness :
  fires txt (clean_line (u "Alice: hello") txt) = false ∧
  clean_line (clean_line (u "Alice: hello") txt) txt = clean_line (u "Alice: hello") txt.
Proof.
  split; [vm_compute; reflexivity|].
  apply (clean_line_idempotent_when_settled (u "Alice: hello") txt). vm_compute. reflexivity.
Defined.

(** C3 as stated fails: a file that cannot be read ends the run, though the
    file after it is readable. *)
Lemma unreadable_file_aborts_run :
  parse_dir [unreadable_file ".txt"; text_file ".txt" "hello world"] no_file default_args
    = Raise OSError ∧
  ∃ r, parse_dir [text_file ".txt" "hello world"] no_file default_args = Ok r.
Proof. split; [vm_compute; reflexivity | vm_compute; eauto]. Qed.

(** The amended C3 on two corpora: one whose first file can only be read
    at the second attempt, where the run returns with the words of that
    file and of the file after it counted, and one whose second file cannot
    be read at all. *)
Lemma unreadable_file_aborts_witness :
  let fp := second_try_file ".txt" "hello world" in
  let root := [fp; text_file ".txt" "more words"] in
  let root' := [text_file ".txt" "hello world"; unreadable_file ".srt"] in
  fp ∈ iter_files root ∧ e_read fp = Raise OSError ∧
  (∃ wc ng, parse_dir root no_file default_args = Ok (wc, ng) ∧
            (1 ≤ count wc (u "hello"))%nat ∧ count wc (u "words") = 1%nat) ∧
  parse_dir [text_file ".txt" "hello world"; text_file ".txt" "more words"]
            no_file default_args
    = parse_dir root no_file default_args ∧
  unreadable_file ".srt" ∈ iter_files root' ∧
  ∃ e, parse_dir root' no_file default_args = Raise e.
Proof.
  cbv zeta.
  set (fp := second_try_file ".txt" "hello world").
  set (root := [fp; text_file ".txt" "more words"]).
  assert (fp ∈ iter_files root) as Hin.
  { assert (iter_files root = root) as -> by (vm_compute; reflexivity).
    apply elem_of_cons; by left. }
  destruct (unreadable_file_aborts root no_file default_args fp OSError Hin eq_refl)
    as [H _].
  destruct (H (list_byte_of_string "hello world") eq_refl) as (_ & Hsame & Hcount).
  assert (unreadable_file ".srt"
            ∈ iter_files [text_file ".txt" "hello world"; unreadable_file ".srt"]) as Hin'.
  { assert (iter_files [text_file ".txt" "hello world"; unreadable_file ".srt"]
            = [text_file ".txt" "hello world"; unreadable_file ".srt"]) as ->
      by (vm_compute; reflexivity).
    apply elem_of_cons; right. apply elem_of_cons; by left. }
  split_and!; [exact Hin | reflexivity | | | exact Hin' |].
  - run_ok root no_file default_args E. exists wc, ng. split; [exact E|]. split.
    + destruct (Hcount (list_to_set DEFAULT_STOPWORDS) wc ng eq_refl E (u "hello")) as [Hc _].
      assert (occurrences (u "hello")
                (file_tokens default_args (list_to_set DEFAULT_STOPWORDS)
                   (guess_fmt (e_suffix fp))
                   (universal_newlines (map Byte.to_N (list_byte_of_string "hello world"))))
              = 1%nat) as Ho by (vm_compute; reflexivity).
      rewrite Ho in Hc. exact Hc.
    + change (count wc (u "words"))
        with (match Ok (wc, ng) with Ok (w, _) => count w (u "words") | Raise _ => 0%nat end).
      rewrite <- E. vm_compute. reflexivity.
  - apply (Hsame (text_file ".txt" "hello world")).
    + split_and!; [reflexivity | reflexivity | vm_compute; reflexivity].
    + constructor; [right; by split|]. constructor; [by left | constructor].
  - destruct (unreadable_file_aborts _ no_file default_args _ OSError Hin' eq_refl) as [_ H'].
    exact (H' OSError eq_refl).
Defined.

(** C4 on the corpus of two files, forwards and backwards. *)
Lemma unigram_table_additive_witness :
  ∃ wc ng,
    parse_dir two_files no_file bigram_args = Ok (wc, ng) ∧
    total wc = 5%nat ∧
    ∃ ng', parse_dir (rev two_files) no_file bigram_args = Ok (wc, ng').
Proof.
  run_ok two_files no_file bigram_args E.
  exists wc, ng. split; [exact E|].
  destruct (unigram_table_additive two_files no_file bigram_args wc ng E)
    as (stop & toks & _ & _ & _ & _ & Hperm).
  split.
  - change (total wc)
      with (match Ok (wc, ng) with Ok (w, _) => total w | Raise _ => 0%nat end).
    rewrite <- E. vm_compute. reflexivity.
  - apply Hperm. symmetry. apply Permutation_rev.
Defined.

(** C7 on scenario 4 of the specification. *)
Lemma make_ngrams_spec_witness :
  let tokens := map u ["data"; "science"; "is"; "great"]%string in
  (2 ≤ 2)%Z ∧ (2 ≤ Z.of_nat (length tokens))%Z ∧
  Z.of_nat (length (make_ngrams tokens 2)) = 3%Z ∧
  make_ngrams tokens 2 = map u ["data science"; "science is"; "is great"]%string.
Proof.
  cbv zeta. split; [lia|]. split; [simpl; lia|].
  destruct (make_ngrams_spec (map u ["data"; "science"; "is"; "great"]%string) 2)
    as [_ H]; [lia|].
  destruct H as [Hlen _]; [simpl; lia|].
  split; [exact Hlen | vm_compute; reflexivity].
Defined.

(** C8 as stated fails: with the order 0 requested the empty string is a
    key of the order-0 table. *)
Lemma empty_key_at_order_zero :
  ∃ wc ng c,
    parse_dir two_files no_file order_zero_args = Ok (wc, ng) ∧
    ng !! 0%Z = Some c ∧ c !! [] = Some 7%nat.
Proof.
  run_ok two_files no_file order_zero_args E.
  assert (∃ c, ng !! 0%Z = Some c ∧ c !! [] = Some 7%nat) as (c & H1 & H2).
  { change ng with (match Ok (wc, ng) with Ok (_, g) => g | Raise _ => ∅ end).
    rewrite <- E. vm_compute. eexists. split; reflexivity. }
  exists wc, ng, c. exact (conj E (conj H1 H2)).
Qed.

(** The amended C8 on the bigram table of the corpus of two files. *)
Lemma no_empty_key_witness :
  ∃ wc ng,
    parse_dir two_files no_file bigram_args = Ok (wc, ng) ∧
    wc !! [] = None ∧ ∀ c, ng !! 2%Z = Some c → c !! [] = None.
Proof.
  run_ok two_files no_file bigram_args E.
  exists wc, ng. split; [exact E|].
  destruct (no_empty_key two_files no_file bigram_args wc ng E) as [H1 H2].
  split; [exact H1|]. intros c. apply H2. lia.
Defined.

(** C10 on the corpus of two files. *)
Lemma order_zero_inserts_empty_key_witness :
  0%Z ∈ a_ngrams order_zero_args ∧ iter_files two_files ≠ [] ∧
  ∃ wc ng c v,
    parse_dir two_files no_file order_zero_args = Ok (wc, ng) ∧
    ng !! 0%Z = Some c ∧ c !! [] = Some v ∧ (0 < v)%nat.
Proof.
  assert (0%Z ∈ a_ngrams order_zero_args) as H0 by (simpl; apply elem_of_cons; by left).
  assert (iter_files two_files ≠ []) as Hne by (vm_compute; discriminate).
  split; [exact H0|]. split; [exact Hne|].
  run_ok two_files no_file order_zero_args E.
  destruct order_zero_inserts_empty_key as [_ H].
  destruct (H two_files no_file order_zero_args wc ng H0 Hne E) as (c & v & H1 & H2 & H3).
  exists wc, ng, c, v. exact (conj E (conj H1 (conj H2 H3))).
Defined.

(** C5 as stated fails in its last clause: a later rule does read what an
    earlier rule has put.  The string holds no bracketed stamp; the range
    rule puts a space within the brackets, and the bracketed rule then
    matches from bracket to bracket, through that space. *)
Lemma later_rule_reads_written_space :
  let s := u "[00:00:01.000 --> 00:00:02.000 1:23]" in
  re_search STAMP_BRACKETED s = false ∧
  re_sub RANGE_VTT (u " ") s = u "[  1:23]" ∧
  re_sub STAMP_BRACKETED (u " ") (u "[  1:23]") = u " " ∧
  strip_timestamps_everywhere s = u " ".
Proof. cbv zeta. split_and!; vm_compute; reflexivity. Qed.

(** In ASCII no character is white space and a digit at once. *)
Lemma ascii_space_no_digit : ∀ c, is_space c = true → is_decimal c = false.
Proof.
  intros c. unfold is_space, is_decimal. destruct (is_ascii c); [|done].
  unfold ascii_space, ascii_digit, in_range.
  rewrite !orb_true_iff, !andb_true_iff, andb_false_iff, !N.leb_le, N.eqb_eq, !N.leb_gt.
  lia.
Qed.

(** The amended C5 on a line with a bracketed stamp and a short one: the
    five passes over the shapes lead to one string only. *)
Lemma timestamp_rules_once_in_order_witness :
  (∀ c, is_space c = true → is_decimal c = false) ∧
  shapes_removed timestamp_shapes (u "[00:01:23] at 1:23") (u "  at  ") ∧
  ∀ out, shapes_removed timestamp_shapes (u "[00:01:23] at 1:23") out → out = u "  at  ".
Proof.
  split; [exact ascii_space_no_digit|].
  destruct timestamp_rules_once_in_order as [_ H].
  destruct (H (u "[00:01:23] at 1:23")) as (H1 & H2 & _).
  assert (strip_timestamps_everywhere (u "[00:01:23] at 1:23") = u "  at  ") as E
    by (vm_compute; reflexivity).
  rewrite E in H1, H2. split; [exact H1 | exact (H2 ascii_space_no_digit)].
Defined.

(** No rule is applied a second time: the bracketed rule leaves a range
    behind, which the range rule, already done, does not remove; the two
    stamps go in the third pass and the arrow stays. *)
Example earlier_rule_not_applied_again :
  let s := u "00:00:01.000[1:23]-->00:00:02.000" in
  re_sub STAMP_BRACKETED (u " ") (re_sub RANGE_VTT (u " ") s)
    = u "00:00:01.000 -->00:00:02.000" ∧
  re_search RANGE_VTT (u "00:00:01.000 -->00:00:02.000") = true ∧
  strip_timestamps_everywhere s = u "  --> ".
Proof. cbv zeta. split_and!; vm_compute; reflexivity. Qed.

(** Each of the five rules on a stamp of its shape, and the last one held
    back by what stands around it. *)
Example rules_on_their_shapes :
  re_sub RANGE_VTT (u " ") (u "a 00:01:23,456  -->00:01:25.789 b") = u "a   b" ∧
  re_sub STAMP_BRACKETED (u " ") (u "a [ 1:23 ] [01:02:03] b") = u "a     b" ∧
  re_sub STAMP_HMS_MS (u " ") (u "a 00:01:23,456 b") = u "a   b" ∧
  re_sub STAMP_HMS (u " ") (u "a 00:01:23 b x00:01:23") = u "a   b x00:01:23" ∧
  re_sub STAMP_MS (u " ") (u "a 1:23 12:34 b 1:23:4 123:45") = u "a     b 1:23:4 123:45".
Proof. split_and!; vm_compute; reflexivity. Qed.

(** The order of the rules shows on a bracketed stamp that holds an
    [HH:MM:SS]: the bracketed rule, coming first, takes the brackets too. *)
Example bracketed_before_hms :
  strip_timestamps_everywhere (u "[00:01:23]") = u " " ∧
  re_sub STAMP_BRACKETED (u " ") (re_sub STAMP_HMS (u " ") (u "[00:01:23]")) = u "[ ]" ∧
  strip_timestamps_everywhere (u "00:01:23.456 --> 00:01:25.789") = u " " ∧
  strip_timestamps_everywhere (u "at 1:23 and 01:02:03,5") = u "at   and  ,5".
Proof. split_and!; vm_compute; reflexivity. Qed.

(** The strict handler, which [load_stopwords] uses, does raise. *)
Example strict_decoding_raises :
  decode Utf8 Strict [Byte.x61; Byte.xff] = Raise UnicodeDecodeError ∧
  decode Utf8 Ignore [Byte.x61; Byte.xff] = Ok (u "a") ∧
  decode Utf8 Ignore [Byte.xe2; Byte.x80; Byte.x99] = Ok [8217].
Proof. split_and!; reflexivity. Qed.

(** Scenarios 1, 3, 4 and 5 of the specification. *)
Example scenarios :
  clean_line (u "00:01:23,456 --> 00:01:25,000") vtt = [] ∧
  (∀ f, clean_line (u "(laughter)") f = []) ∧
  make_ngrams (map u ["data"; "science"; "is"; "great"]%string) 2
    = map u ["data science"; "science is"; "is great"]%string ∧
  clean_line (u "42") srt = [].
Proof. split_and!; try intros []; vm_compute; reflexivity. Qed.

(** ** The further properties on sample inputs *)

Ltac by_evaluation := apply (bool_decide_unpack _); vm_compute; reflexivity.

(** X1 on a line with a remark in brackets inside. *)
Lemma clean_line_plain_witness :
  Forall (λ c, c ∉ [58; 60; 46]) (u "  so (well) it goes ") ∧
  clean_line (u "  so (well) it goes ") vtt = u "so (well) it goes".
Proof.
  assert (Forall (λ c, c ∉ [58; 60; 46]) (u "  so (well) it goes ")) as H by by_evaluation.
  split; [exact H|].
  rewrite (clean_line_plain (u "  so (well) it goes ") vtt H). vm_compute. reflexivity.
Defined.

(** X2 on a line of a space, a tab and a line end. *)
Lemma clean_line_blank_witness :
  Forall (λ c, is_space c = true) [32; 9; 10] ∧ clean_line [32; 9; 10] srt = [].
Proof.
  assert (Forall (λ c, is_space c = true) [32; 9; 10]) as H
    by (repeat constructor).
  split; [exact H|]. exact (clean_line_blank [32; 9; 10] srt H).
Defined.

(** X3 on the index line of the twelfth subtitle. *)
Lemma clean_line_srt_index_witness :
  Forall (λ c, is_space c = true) (u " ") ∧ Forall (λ c, is_decimal c = true) (u "12") ∧
  u "12" ≠ [] ∧ Forall (λ c, is_space c = true) [13; 10] ∧
  clean_line (u " " ++ u "12" ++ [13; 10]) srt = [].
Proof.
  assert (Forall (λ c, is_space c = true) (u " ")) as Ha by (repeat constructor).
  assert (Forall (λ c, is_decimal c = true) (u "12")) as Hd by (repeat constructor).
  assert (u "12" ≠ []) as Hne by discriminate.
  assert (Forall (λ c, is_space c = true) [13; 10]) as Hb by (repeat constructor).
  split_and!; [done..|].
  exact (clean_line_srt_index (u " ") (u "12") [13; 10] Ha Hd Hne Hb).
Defined.

(** X8 on a token that had an apostrophe. *)
Lemma tokenize_alphabet_witness :
  u "dont" ∈ tokenize (u "i don't know 42") false ∧
  u "dont" ≠ [] ∧ isdigit (u "dont") = false.
Proof.
  assert (u "dont" ∈ tokenize (u "i don't know 42") false) as H by by_evaluation.
  split; [exact H|].
  destruct (tokenize_alphabet (u "i don't know 42") false (u "dont") H) as (H1 & _ & H2).
  split; [exact H1|]. by destruct (H2 eq_refl).
Defined.

(** X9 on the corpus of two files: no table of trigrams when bigrams are
    asked for. *)
Lemma ngram_table_counts_witness :
  ∃ wc ng, parse_dir two_files no_file bigram_args = Ok (wc, ng) ∧ ng !! 3%Z = None.
Proof.
  run_ok two_files no_file bigram_args E.
  exists wc, ng. split; [exact E|].
  destruct (ngram_table_counts two_files no_file bigram_args wc ng E) as (stop & toks & _ & _ & H).
  destruct (H 3%Z) as [H3 _]. apply H3. simpl.
  intros [?|?%elem_of_nil]%elem_of_cons; done.
Defined.

(** X10 on the corpus of two files. *)
Lemma order_one_is_unigrams_witness :
  times_requested 1 (a_ngrams order_one_args) = 1%nat ∧
  ∃ wc ng, parse_dir two_files no_file order_one_args = Ok (wc, ng) ∧ ng !! 1%Z = Some wc.
Proof.
  split; [reflexivity|].
  run_ok two_files no_file order_one_args E.
  exists wc, ng. split; [exact E|].
  exact (order_one_is_unigrams two_files no_file order_one_args wc ng eq_refl E).
Defined.

(** X11 on the corpus of two files, backwards. *)
Lemma parse_dir_order_independent_witness :
  rev two_files ≡ₚ two_files ∧
  ∃ r, parse_dir two_files no_file bigram_args = Ok r ∧
       parse_dir (rev two_files) no_file bigram_args = Ok r.
Proof.
  assert (rev two_files ≡ₚ two_files) as HP by (symmetry; apply Permutation_rev).
  split; [exact HP|].
  run_ok two_files no_file bigram_args E.
  exists (wc, ng). split; [exact E|].
  exact (parse_dir_order_independent two_files (rev two_files) no_file bigram_args wc ng HP E).
Defined.

(** X13: the first file of the corpus, then both. *)
Lemma counts_grow_witness :
  let first := [text_file ".txt" "Alice: data science is great"] in
  ∃ wc ng wc' ng',
    parse_dir first no_file bigram_args = Ok (wc, ng) ∧
    parse_dir two_files no_file bigram_args = Ok (wc', ng') ∧
    (count wc (u "great") ≤ count wc' (u "great"))%nat.
Proof.
  cbv zeta.
  run_ok [text_file ".txt" "Alice: data science is great"] no_file bigram_args E.
  rename wc into wc1, ng into ng1.
  run_ok two_files no_file bigram_args E'.
  exists wc1, ng1, wc, ng. split; [exact E|]. split; [exact E'|].
  destruct (counts_grow [text_file ".txt" "Alice: data science is great"]
              [text_file ".srt" "12
00:00:01,000 --> 00:00:02,000
great data"] no_file bigram_args wc1 ng1 wc ng E E' (u "great")) as [H _].
  exact H.
Defined.

(** X14 on a stopword file of one line. *)
Lemma load_stopwords_spec_witness :
  ∃ sw, load_stopwords (Some (u "stop.txt")) (text_file ".txt" " Data ") = Ok sw ∧
        u "the" ∈ sw.
Proof.
  assert (is_ok (load_stopwords (Some (u "stop.txt")) (text_file ".txt" " Data ")) = true)
    as H by (vm_compute; reflexivity).
  destruct (is_ok_inv _ H) as [sw E]. exists sw. split; [exact E|].
  destruct (load_stopwords_spec _ _ sw E) as [Hd _]. apply Hd. by_evaluation.
Defined.

(** X15 on the corpus of two files. *)
Lemma invalid_stopword_file_aborts_witness :
  a_stopwords stopwords_args = Some (u "stop.txt") ∧
  e_is_file invalid_utf8_file = true ∧
  e_read invalid_utf8_file = Ok [Byte.x61; Byte.xff] ∧
  decode Utf8 Strict [Byte.x61; Byte.xff] = Raise UnicodeDecodeError ∧
  parse_dir two_files invalid_utf8_file stopwords_args = Raise UnicodeDecodeError.
Proof.
  split_and!; [reflexivity..|].
  exact (invalid_stopword_file_aborts two_files invalid_utf8_file stopwords_args
           (ch "s") (u "top.txt") [Byte.x61; Byte.xff] UnicodeDecodeError
           eq_refl eq_refl eq_refl eq_refl).
Defined.

(** X16 on a file that holds the letter U+00E9. *)
Lemma read_file_valid_utf8_witness :
  e_read e_acute_file = Ok [Byte.xc3; Byte.xa9] ∧
  decode Utf8 Strict [Byte.xc3; Byte.xa9] = Ok [233] ∧
  read_file e_acute_file = Ok [233].
Proof.
  split_and!; [reflexivity..|].
  destruct (read_file_valid_utf8 e_acute_file [Byte.xc3; Byte.xa9] [233] eq_refl eq_refl)
    as [H _].
  exact H.
Defined.

(** X17 on a table of four rows, all asked for. *)
Lemma write_csv_all_witness :
  (0 = 0 ∨ Z.of_nat (length sample_items) ≤ 0)%Z ∧
  ∃ rows, write_csv sample_items (top_arg 0) = ([u "phrase"; u "count"], rows) ∧
          rows ≡ₚ sample_items.
Proof.
  assert (0 = 0 ∨ Z.of_nat (length sample_items) ≤ 0)%Z as H by (by left).
  split; [exact H|].
  destruct (write_csv_all sample_items 0 H) as (rows & E & HP & _).
  exists rows. exact (conj E HP).
Defined.

(** X18 on the same table with a negative [--top]. *)
Lemma write_csv_top_witness :
  (-1)%Z ≠ 0%Z ∧ write_csv sample_items (top_arg (-1)) = ([u "phrase"; u "count"], []).
Proof.
  assert ((-1)%Z ≠ 0%Z) as H by discriminate.
  split; [exact H|].
  destruct (write_csv_top sample_items (-1) H) as (rows & rest & E & _ & _ & _ & _ & Hn).
  rewrite E, Hn; [reflexivity | reflexivity].
Defined.

(** X19 on the corpus of two files with the minimum length 0. *)
Lemma minlen_below_two_witness :
  (0 ≤ 1)%Z ∧
  parse_dir two_files no_file (with_minlen 0 default_args)
  = parse_dir two_files no_file (with_minlen 1 default_args).
Proof.
  split; [lia|]. apply (minlen_below_two two_files no_file default_args 0). lia.
Defined.

(** X20 on the corpus of two files. *)
Lemma unigram_keys_witness :
  ∃ wc ng, parse_dir two_files no_file default_args = Ok (wc, ng) ∧
    ∀ k v, wc !! k = Some v → (2 ≤ Z.of_nat (length k))%Z ∧ isdigit k = false.
Proof.
  run_ok two_files no_file default_args E.
  exists wc, ng. split; [exact E|]. intros k v Hk.
  destruct (unigram_keys two_files no_file default_args wc ng E) as (stop & _ & H).
  destruct (H k v Hk) as (_ & _ & Hlen & _ & _ & Hnum).
  split; [exact Hlen | exact (Hnum eq_refl)].
Defined.

(** X21 on the bigrams of the corpus of two files. *)
Lemma ngram_keys_witness :
  ∃ wc ng, parse_dir two_files no_file bigram_args = Ok (wc, ng) ∧ (1 ≤ 2)%Z ∧
    ∀ c p v, ng !! 2%Z = Some c → c !! p = Some v →
      ∃ ws, Z.of_nat (length ws) = 2%Z ∧ p = join (u " ") ws ∧
            ∀ w, w ∈ ws → is_Some (wc !! w).
Proof.
  run_ok two_files no_file bigram_args E.
  exists wc, ng. split; [exact E|].
  assert (1 ≤ 2)%Z as H12 by lia. split; [exact H12|].
  intros c p v Hc Hp.
  exact (ngram_keys two_files no_file bigram_args wc ng 2 c p v E H12 Hc Hp).
Defined.

(** X22 on the corpus of two files. *)
Lemma returning_run_read_all_witness :
  ∃ wc ng, parse_dir two_files no_file default_args = Ok (wc, ng) ∧
    Forall (λ fp, ∃ text, read_file fp = Ok text) (iter_files two_files).
Proof.
  run_ok two_files no_file default_args E.
  exists wc, ng. split; [exact E|].
  destruct (returning_run_read_all two_files no_file default_args wc ng E) as [_ H].
  exact H.
Defined.

(** The writer on the table of four rows: rows of the same count stay in
    the order of the counter, and [--top 3] cuts between two rows of the
    same count. *)
Example write_csv_rows :
  write_csv sample_items (top_arg 0)
    = ([u "phrase"; u "count"],
       [(u "data", 2%nat); (u "great", 2%nat); (u "science", 1%nat); (u "is", 1%nat)]) ∧
  (write_csv sample_items (top_arg 3)).2
    = [(u "data", 2%nat); (u "great", 2%nat); (u "science", 1%nat)] ∧
  (write_csv sample_items (top_arg 9)).2 = (write_csv sample_items (top_arg 0)).2.
Proof. split_and!; vm_compute; reflexivity. Qed.

(** The unigram program on the corpus of two files. *)
Example unigram_program_run :
  match wc_parse_dir two_files no_file default_args with
  | Ok counts => (count counts (u "great"), count counts (u "data"), count counts (u "is"))
  | Raise _ => (0, 0, 0)%nat
  end = (2, 2, 0)%nat.
Proof. vm_compute. reflexivity. Qed.
